(** * DRSA: Dominance-based Rough Set Approach engine

    Shallow embedding of [src/imo_drsa/drsa.py] (class [DRSA]) and the
    properties of its dominance cones, rough approximations, quality of
    approximation, reduct/core search and decision-rule induction.

    Modelling conventions.
    - A NumPy float or integer entry of the objective matrix is an element
      of [Z]: the code only ever compares entries with [>=], [<=], [==],
      [>], [<], so any totally ordered carrier gives the same masks
      (entries equal to NaN are outside the model).
    - A 1-D array is a [list]; a 2-D array is a list of rows, so
      [M[y, x]] is row [y], column [x].  A criterion is a column index
      in [nat]; NumPy's negative indices are outside the model.
    - A Python float obtained as a quotient of two counts is the exact
      rational in [Q] ([pyfloat] adds NaN for the mean of an empty
      array); [==] on such floats is [Qeq_bool].
    - Python exceptions are values of [exn]; a method is a function into
      [result], written with the binds of the error monad in the order
      in which the source evaluates.
    - [self] is [Unfit] after [__init__] and [Fit c] after [fit], with [c]
      the attributes that [fit] stores.
    - Of [src/imo_drsa/decision_maker.py] the rule selectors of [BaseDM]
      and the reduct choice and stopping test of [AutomatedDM] and
      [DummyDM] are embedded; a hypervolume is a rational, its indicator
      any function of the front; the weighted float score of
      [simple_score] is any function of its three arguments into the
      floats, NaN included, and [list.sort] any function that permutes
      its list and sorts it stably when no key is NaN. *)

From Stdlib Require Import QArith Qabs Ascii.
From stdpp Require Import base option list numbers strings pretty gmap sets sorting.
Close Scope Q_scope.

(** ** Exceptions and the error monad *)

Inductive exn : Type :=
  | AssertionError (msg : string)
  | IndexError
  | ValueError (msg : string)
  | ZeroDivisionError.

Inductive result (A : Type) : Type :=
  | Ok (a : A)
  | Raise (e : exn).
Arguments Ok {A} a.
Arguments Raise {A} e.

#[global] Instance result_ret : MRet result := λ A a, Ok a.
#[global] Instance result_bind : MBind result :=
  λ A B f r, match r with Ok a => f a | Raise e => Raise e end.

Definition is_ok {A} (r : result A) : Prop := ∃ a, r = Ok a.

(** ** Engine state *)

(** The attributes set by [fit]. *)
Record config : Type := Config {
  F_pareto : list (list Z);
  decision_attribute : list Z;
  criteria : list nat;
  N : nat;
  m : Z;
  direction : string
}.

(** After [__init__] only [is_fit = False] exists; after [fit] all
    attributes do. *)
Inductive DRSA : Type :=
  | Unfit
  | Fit (c : config).

Definition init : DRSA := Unfit.

Definition is_fit (self : DRSA) : bool :=
  match self with Unfit => false | Fit _ => true end.

(** The error every query raises on an engine that was not fitted. *)
Definition NotFittedError : exn := AssertionError "DRSA has not been fit.".

(** [assert self.is_fit, "DRSA has not been fit."], giving access to the
    attributes. *)
Definition assert_fit (self : DRSA) : result config :=
  match self with
  | Fit c => Ok c
  | Unfit => Raise NotFittedError
  end.

(** [decision_attribute.max()] *)
Definition array_max (a : list Z) : result Z :=
  match a with
  | [] => Raise (ValueError "zero-size array to reduction operation maximum which has no identity")
  | d :: a' => Ok (foldl Z.max d a')
  end.

(** [fit] overwrites every attribute of [self] and returns [self]. *)
Definition fit (self : DRSA) (F_pareto_gain_type : option (list (list Z)))
    (criteria : option (list nat)) (decision_attribute : option (list Z))
    (direction : string) : result DRSA :=
  match F_pareto_gain_type, criteria, decision_attribute with
  | None, _, _ => Raise (AssertionError "F_pareto_gain_type is None")
  | Some _, None, _ => Raise (AssertionError "criteria is None")
  | Some _, Some _, None => Raise (AssertionError "decision_attribute is None")
  | Some F, Some crit, Some dec =>
      m ← array_max dec;
      Ok (Fit (Config F dec crit (length F) m direction))
  end.

(** ** Array helpers *)

(** [F[:, idx]]; every row of a NumPy matrix has the same length, so the
    index is out of range for all rows or for none. *)
Fixpoint column (F : list (list Z)) (idx : nat) : result (list Z) :=
  match F with
  | [] => Ok []
  | row :: F' =>
      match row !! idx with
      | None => Raise IndexError
      | Some v => vals ← column F' idx; Ok (v :: vals)
      end
  end.

(** [F[idx, i]] *)
Definition entry (F : list (list Z)) (idx i : nat) : result Z :=
  match F !! idx with
  | None => Raise IndexError
  | Some row => match row !! i with None => Raise IndexError | Some v => Ok v end
  end.

(** [np.ones((n, k), dtype=bool)] *)
Definition ones2 (n k : nat) : list (list bool) := replicate n (replicate k true).

(** [np.ones(n, dtype=bool)] *)
Definition ones (n : nat) : list bool := replicate n true.

(** [cmp(vals[:, None], vals[None, :])] *)
Definition outer (cmp : Z → Z → bool) (vals : list Z) : list (list bool) :=
  (λ vy, (λ vx, cmp vy vx) <$> vals) <$> vals.

(** Elementwise [&] of two vectors and of two matrices of the same shape. *)
Definition mask_and (a b : list bool) : list bool := zip_with andb a b.
Definition mask_and2 (a b : list (list bool)) : list (list bool) :=
  zip_with mask_and a b.
Definition mask_not (a : list bool) : list bool := negb <$> a.
Definition mask_not2 (a : list (list bool)) : list (list bool) := mask_not <$> a.

(** [row op c] for a row and a scalar. *)
Definition row_op (op : bool → bool → bool) (row : list bool) (c : bool) : list bool :=
  (λ b, op b c) <$> row.

(** [M op col[:, None]] for a matrix [M] and a vector [col], with NumPy's
    broadcasting of the first axis: equal lengths, or one of them 1. *)
Definition broadcast_col (op : bool → bool → bool) (M : list (list bool))
    (col : list bool) : result (list (list bool)) :=
  if decide (length col = length M) then Ok (zip_with (row_op op) M col)
  else
    match col, M with
    | [c], _ => Ok ((λ row, row_op op row c) <$> M)
    | _, [row] => Ok (row_op op row <$> col)
    | _, _ => Raise (ValueError "operands could not be broadcast together")
    end.

(** Entry [x] of every row: column [x] of a boolean matrix. *)
Definition bcolumn (M : list (list bool)) (x : nat) : list bool :=
  (λ row, default false (row !! x)) <$> M.

(** [np.all(M, axis=0)] and [np.any(M, axis=0)] for [M] with [k] columns. *)
Definition all_axis0 (k : nat) (M : list (list bool)) : list bool :=
  (λ x, forallb id (bcolumn M x)) <$> seq 0 k.
Definition any_axis0 (k : nat) (M : list (list bool)) : list bool :=
  (λ x, existsb id (bcolumn M x)) <$> seq 0 k.

(** [mask.sum()] *)
Definition count_true (mask : list bool) : nat := length (filter (λ b, b = true) mask).

(** ** Dominance cones *)

(** The loop [for idx in criteria: vals = F[:, idx]; mask &= cmp(...)];
    [mask] and the comparison matrix are both N×N, as [fit] sets
    [N = F.shape[0]]. *)
Fixpoint cone_loop (cmp : Z → Z → bool) (F : list (list Z)) (criteria : list nat)
    (mask : list (list bool)) : result (list (list bool)) :=
  match criteria with
  | [] => Ok mask
  | idx :: criteria' =>
      vals ← column F idx;
      cone_loop cmp F criteria' (mask_and2 mask (outer cmp vals))
  end.

Definition positive_cone (self : DRSA) (criteria : list nat) : result (list (list bool)) :=
  c ← assert_fit self;
  cone_loop Z.geb (F_pareto c) criteria (ones2 (N c) (N c)).

Definition negative_cone (self : DRSA) (criteria : list nat) : result (list (list bool)) :=
  c ← assert_fit self;
  cone_loop Z.leb (F_pareto c) criteria (ones2 (N c) (N c)).

(** ** Rough approximations *)

Definition lower_approx_up (self : DRSA) (criteria : list nat) (threshold : Z)
    : result (list bool) :=
  c ← assert_fit self;
  cone ← positive_cone self criteria;
  M ← broadcast_col orb (mask_not2 cone) ((λ d, Z.geb d threshold) <$> decision_attribute c);
  Ok (all_axis0 (N c) M).

Definition upper_approx_up (self : DRSA) (criteria : list nat) (threshold : Z)
    : result (list bool) :=
  c ← assert_fit self;
  cone ← negative_cone self criteria;
  M ← broadcast_col andb cone ((λ d, Z.geb d threshold) <$> decision_attribute c);
  Ok (any_axis0 (N c) M).

Definition lower_approx_down (self : DRSA) (criteria : list nat) (threshold : Z)
    : result (list bool) :=
  c ← assert_fit self;
  cone ← negative_cone self criteria;
  M ← broadcast_col orb (mask_not2 cone) ((λ d, Z.leb d threshold) <$> decision_attribute c);
  Ok (all_axis0 (N c) M).

Definition upper_approx_down (self : DRSA) (criteria : list nat) (threshold : Z)
    : result (list bool) :=
  c ← assert_fit self;
  cone ← positive_cone self criteria;
  M ← broadcast_col andb cone ((λ d, Z.leb d threshold) <$> decision_attribute c);
  Ok (any_axis0 (N c) M).

(** ** Quality of approximation *)

(** The body of [for t in range(2, self.m + 1)], threading
    [consistent_mask]. *)
Fixpoint quality_loop (self : DRSA) (c : config) (criteria : list nat) (ts : list Z)
    (consistent_mask : list bool) : result (list bool) :=
  match ts with
  | [] => Ok consistent_mask
  | t :: ts' =>
      lower ← (if String.eqb (direction c) "up" then lower_approx_up self criteria t
               else lower_approx_down self criteria t);
      upper ← (if String.eqb (direction c) "up" then upper_approx_up self criteria t
               else upper_approx_down self criteria t);
      let boundary := mask_and upper (mask_not lower) in
      quality_loop self c criteria ts' (mask_and consistent_mask (mask_not boundary))
  end.

Definition quality (self : DRSA) (criteria : list nat) : result Q :=
  c ← assert_fit self;
  consistent_mask ← quality_loop self c criteria (seqZ 2 (m c - 1)) (ones (N c));
  if decide (N c = 0) then Raise ZeroDivisionError
  else Ok (Qmake (Z.of_nat (count_true consistent_mask)) (Pos.of_nat (N c))).

(** ** Reducts and core *)

(** [itertools.combinations(l, r)]: the [r]-element subsequences of [l],
    in lexicographic order of positions. *)
Fixpoint combinations {A} (l : list A) (r : nat) : list (list A) :=
  match r, l with
  | 0, _ => [[]]
  | S _, [] => []
  | S r', x :: l' => (cons x <$> combinations l' r') ++ combinations l' r
  end.

(** [set(t)] for a tuple of criteria. *)
Definition pyset (t : list nat) : gset nat := list_to_set t.

(** [set(red).issubset(subset)] *)
Definition issubset (red subset : list nat) : bool :=
  bool_decide (pyset red ⊆ pyset subset).

(** The loop [for subset in combinations(self.criteria, r)], threading
    [reducts]. *)
Fixpoint find_reducts_subsets (self : DRSA) (full_quality : Q)
    (subsets : list (list nat)) (reducts : list (list nat)) : result (list (list nat)) :=
  match subsets with
  | [] => Ok reducts
  | subset :: subsets' =>
      q ← quality self subset;
      if Qeq_bool q full_quality then
        if negb (existsb (λ red, issubset red subset) reducts)
        then find_reducts_subsets self full_quality subsets' (reducts ++ [subset])
        else find_reducts_subsets self full_quality subsets' reducts
      else find_reducts_subsets self full_quality subsets' reducts
  end.

(** The loop [for r in range(1, len(self.criteria) + 1)] with its
    [if reducts: break]. *)
Fixpoint find_reducts_sizes (self : DRSA) (c : config) (full_quality : Q)
    (sizes : list nat) (reducts : list (list nat)) : result (list (list nat)) :=
  match sizes with
  | [] => Ok reducts
  | r :: sizes' =>
      reducts' ← find_reducts_subsets self full_quality (combinations (criteria c) r) reducts;
      match reducts' with
      | [] => find_reducts_sizes self c full_quality sizes' reducts'
      | _ :: _ => Ok reducts'
      end
  end.

Definition find_reducts (self : DRSA) : result (list (list nat)) :=
  c ← assert_fit self;
  full_quality ← quality self (criteria c);
  reducts ← find_reducts_sizes self c full_quality (seq 1 (length (criteria c))) [];
  if decide (length reducts = 0) then Ok [criteria c] else Ok reducts.

(** [core(reducts=None)]: the argument is [None] when omitted. *)
Definition core (self : DRSA) (reducts : option (list (list nat))) : result (list nat) :=
  c ← assert_fit self;
  reducts ← match reducts with
            | Some (red :: reds) => Ok (red :: reds)
            | Some [] | None => find_reducts self   (* [reducts or self.find_reducts()] *)
            end;
  match reducts with
  | [] => Ok []
  | red0 :: reds =>
      let core_set := foldl (λ core_set red, core_set ∩ pyset red) (pyset red0) reds in
      Ok (merge_sort Nat.le (elements core_set))
  end.

(** ** Decision rules *)

(** A NumPy float that is a mean of a boolean array: the exact quotient,
    or NaN for the mean of an empty array. *)
Inductive pyfloat : Type :=
  | nan
  | fl (q : Q).

Definition pyfloat_eqb (a b : pyfloat) : bool :=
  match a, b with
  | fl p, fl q => Qeq_bool p q
  | _, _ => false
  end.

(** [mask.mean()] *)
Definition mean (mask : list bool) : pyfloat :=
  match mask with
  | [] => nan
  | _ :: _ => fl (Qmake (Z.of_nat (count_true mask)) (Pos.of_nat (length mask)))
  end.

(** [a[mask]] for a boolean [mask]. *)
Definition bool_index (a : list Z) (mask : list bool) : result (list Z) :=
  if decide (length mask = length a)
  then Ok (fst <$> filter (λ p, p.2 = true) (zip a mask))
  else Raise IndexError.

(** [np.where(mask)[0]] *)
Fixpoint where_from (i : nat) (mask : list bool) : list nat :=
  match mask with
  | [] => []
  | b :: mask' => (if b then [i] else []) ++ where_from (S i) mask'
  end.
Definition np_where (mask : list bool) : list nat := where_from 0 mask.

(** A profile [{criterion: value}]: a [dict], kept in insertion order. *)
Definition dict : Type := list (nat * Z).

Fixpoint dict_get (d : dict) (k : nat) : option Z :=
  match d with
  | [] => None
  | (k', v) :: d' => if decide (k = k') then Some v else dict_get d' k
  end.

(** [d[k] = v] *)
Fixpoint dict_set (d : dict) (k : nat) (v : Z) : dict :=
  match d with
  | [] => [(k, v)]
  | (k', v') :: d' => if decide (k = k') then (k, v) :: d' else (k', v') :: dict_set d' k v
  end.

(** [set(d.keys())] *)
Definition dict_keys (d : dict) : gset nat := list_to_set (fst <$> d).

(** [d1 == d2]: same keys with the same values, whatever the order. *)
Definition dict_eqb (d1 d2 : dict) : bool :=
  bool_decide (length d1 = length d2)
  && forallb (λ kv, bool_decide (dict_get d2 kv.1 = Some kv.2)) d1.

(** A rule is the tuple
    [(profile, concl, support, confidence, kind, direction, desc)]. *)
Record rule : Type := Rule {
  profile : dict;
  concl : string;
  support : pyfloat;
  confidence : pyfloat;
  kind : string;
  rule_direction : string;
  desc : string
}.

(** [r1 == r2] on rule tuples: componentwise. *)
Definition rule_eqb (r1 r2 : rule) : bool :=
  dict_eqb (profile r1) (profile r2)
  && String.eqb (concl r1) (concl r2)
  && pyfloat_eqb (support r1) (support r2)
  && pyfloat_eqb (confidence r1) (confidence r2)
  && String.eqb (kind r1) (kind r2)
  && String.eqb (rule_direction r1) (rule_direction r2)
  && String.eqb (desc r1) (desc r2).

(** [str.upper] on ASCII letters. *)
Definition ascii_upper (a : ascii) : ascii :=
  let n := nat_of_ascii a in
  if (97 <=? n) && (n <=? 122) then ascii_of_nat (n - 32) else a.

Fixpoint str_upper (s : string) : string :=
  match s with
  | EmptyString => EmptyString
  | String a s' => String (ascii_upper a) (str_upper s')
  end.

(** [sep.join(parts)] *)
Fixpoint join (sep : string) (parts : list string) : string :=
  match parts with
  | [] => ""
  | [p] => p
  | p :: parts' => p +:+ sep +:+ join sep parts'
  end.

(** The loop [for i, val in profile.items(): mask &= cmp(F[:, i], val)]. *)
Fixpoint premise_loop (cmp : Z → Z → bool) (F : list (list Z)) (items : dict)
    (mask : list bool) : result (list bool) :=
  match items with
  | [] => Ok mask
  | (i, val) :: items' =>
      vals ← column F i;
      premise_loop cmp F items' (mask_and mask ((λ v, cmp v val) <$> vals))
  end.

(** The comprehension [{i: F[idx, i] for i in criteria}]. *)
Fixpoint make_profile (F : list (list Z)) (idx : nat) (criteria : list nat)
    (profile : dict) : result dict :=
  match criteria with
  | [] => Ok profile
  | i :: criteria' =>
      v ← entry F idx i;
      make_profile F idx criteria' (dict_set profile i v)
  end.

Definition is_robust (self : DRSA) (rule : rule) : result bool :=
  c ← assert_fit self;
  let cmp_op := if String.eqb (direction c) "up" then Z.geb else Z.leb in
  mask ← premise_loop cmp_op (F_pareto c) (profile rule) (ones (N c));
  base_mask ← premise_loop Z.eqb (F_pareto c) (profile rule) (ones (N c));
  Ok (existsb id (mask_and base_mask mask)).

(** The loops [for i in keys2: if p2[i] > p1[i]: return False] of
    [subsumes]; [p1[i]] is defined because [keys2 <= keys1]. *)
Definition profile_weaker (bad : Z → Z → bool) (p1 p2 : dict) : bool :=
  forallb (λ i, match dict_get p2 i, dict_get p1 i with
                | Some v2, Some v1 => negb (bad v2 v1)
                | _, _ => true
                end) (elements (dict_keys p2)).

Definition subsumes (self : DRSA) (r1 r2 : rule) : result bool :=
  c ← assert_fit self;
  let p1 := profile r1 in
  let p2 := profile r2 in
  if negb (String.eqb (concl r1) (concl r2)) then Ok false
  else if negb (bool_decide (dict_keys p2 ⊆ dict_keys p1)) then Ok false
  else if String.eqb (direction c) "up" then Ok (profile_weaker Z.gtb p1 p2)
  else if String.eqb (direction c) "down" then Ok (profile_weaker Z.ltb p1 p2)
  else Raise (ValueError ("Unknown direction: '" +:+ direction c +:+ "'. Must be 'up' or 'down'.")).

(** [any(self.subsumes(r1, r2) for r2 in rules if r2 != r1)] *)
Fixpoint any_subsumes (self : DRSA) (r1 : rule) (rules : list rule) : result bool :=
  match rules with
  | [] => Ok false
  | r2 :: rules' =>
      if negb (rule_eqb r2 r1) then
        subsumes self r1 r2 ≫= λ b : bool,
        if b then Ok true else any_subsumes self r1 rules'
      else any_subsumes self r1 rules'
  end.

(** The loop [for r1 in rules] building [minimal_rules]; [todo] is the
    part of [rules] still to visit. *)
Fixpoint minimal_loop (self : DRSA) (rules todo minimal_rules : list rule)
    : result (list rule) :=
  match todo with
  | [] => Ok minimal_rules
  | r1 :: todo' =>
      any_subsumes self r1 rules ≫= λ b : bool,
      minimal_loop self rules todo' (if b then minimal_rules else minimal_rules ++ [r1])
  end.

Section Rules.

(** Python's [format(x, ".2f")] of a float is not modelled: every
    statement below holds for any such formatting function. *)
Variable fmt_2f : pyfloat → string.

Definition make_rule_description (self : DRSA) (profile : dict) (conclusion : string)
    (support confidence : pyfloat) (kind : string) : result string :=
  c ← assert_fit self;
  let op := if String.eqb (direction c) "up" then "<=" else ">=" in
  let conds := (λ iv : nat * Z,
                  "f_" +:+ pretty (iv.1 + 1) +:+ "(x) " +:+ op +:+ " " +:+ pretty (- iv.2)%Z)
               <$> profile in
  let premise := join " AND " conds in
  Ok ("[" +:+ str_upper kind +:+ "] IF " +:+ premise +:+ " THEN " +:+ conclusion
      +:+ " (support=" +:+ fmt_2f support +:+ ", confidence=" +:+ fmt_2f confidence +:+ ")").

(** The body of [for idx in indices], threading [seen] and [rules]. *)
Definition rule_step (self : DRSA) (c : config) (criteria : list nat) (threshold : Z)
    (kind : string) (idx : nat) (st : gset string * list rule)
    : result (gset string * list rule) :=
  let up := String.eqb (direction c) "up" in
  let comp := if up then Z.geb else Z.leb in
  let conf_fn (mask : list bool) : result pyfloat :=
    sel ← bool_index (decision_attribute c) mask;
    Ok (mean ((λ d, comp d threshold) <$> sel)) in
  let concl := "x is 'good'" in
  profile ← make_profile (F_pareto c) idx criteria [];
  mask ← premise_loop comp (F_pareto c) profile (ones (N c));
  let support := mean mask in
  confidence ← conf_fn mask;
  desc ← make_rule_description self profile concl support confidence kind;
  if bool_decide (desc ∉ st.1) then
    let seen := st.1 ∪ {[desc]} in
    let rule := Rule profile concl support confidence kind (direction c) desc in
    is_robust self rule ≫= λ robust : bool,
    Ok (seen, if robust then st.2 ++ [rule] else st.2)
  else Ok st.

Fixpoint rule_loop (self : DRSA) (c : config) (criteria : list nat) (threshold : Z)
    (kind : string) (indices : list nat) (st : gset string * list rule)
    : result (gset string * list rule) :=
  match indices with
  | [] => Ok st
  | idx :: indices' =>
      st' ← rule_step self c criteria threshold kind idx st;
      rule_loop self c criteria threshold kind indices' st'
  end.

(** [induce_decision_rules(criteria=None, threshold=2, minimal=True)] *)
Definition induce_decision_rules (self : DRSA) (criteria_arg : option (list nat))
    (threshold : Z) (minimal : bool) : result (list rule) :=
  c ← assert_fit self;
  let criteria := match criteria_arg with
                  | Some (i :: l) => i :: l
                  | Some [] | None => criteria c   (* [criteria or self.criteria] *)
                  end in
  let up := String.eqb (direction c) "up" in
  lower ← (if up then lower_approx_up self criteria threshold
           else lower_approx_down self criteria threshold);
  upper ← (if up then upper_approx_up self criteria threshold
           else upper_approx_down self criteria threshold);
  st ← rule_loop self c criteria threshold "certain" (np_where lower) (∅, []);
  st ← rule_loop self c criteria threshold "possible"
         (np_where (mask_and upper (mask_not lower))) st;
  let rules := st.2 in
  if minimal then minimal_loop self rules rules [] else Ok rules.

End Rules.

(** * Specification vocabulary *)

(** [F[y, i]] as a total function; the default is never reached on
    indices in range. *)
Definition obj (c : config) (y i : nat) : Z :=
  default 0%Z (F_pareto c !! y ≫= (.!! i)).

(** [M[y, x]] of a boolean matrix. *)
Definition get2 (M : list (list bool)) (y x : nat) : option bool :=
  M !! y ≫= (.!! x).

(** The shape constraints of the data model: [N] objects with [n_var]
    criteria each, one decision class per object, [m] the largest class.
    [fit] establishes the first and the last; the others are required of
    its arguments. *)
Record well_formed (c : config) (n_var : nat) : Prop := WellFormed {
  wf_N : N c = length (F_pareto c);
  wf_rows : Forall (λ row, length row = n_var) (F_pareto c);
  wf_decision : length (decision_attribute c) = N c;
  wf_m : array_max (decision_attribute c) = Ok (m c)
}.

(** Criteria that are column indices of the objective matrix. *)
Definition in_range (n_var : nat) (P : list nat) : Prop := Forall (λ i, i < n_var) P.

(** The dominance matrix in closed form: entry [[y, x]] tells whether
    row [y] compares by [cmp] to row [x] on every criterion of [P]. *)
Definition dominates (cmp : Z → Z → bool) (P : list nat) (ry rx : list Z) : bool :=
  forallb (λ i, cmp (default 0%Z (ry !! i)) (default 0%Z (rx !! i))) P.

Definition dom_matrix (cmp : Z → Z → bool) (F : list (list Z)) (P : list nat)
    : list (list bool) :=
  (λ ry, dominates cmp P ry <$> F) <$> F.

(** An [n]×[n] boolean matrix. *)
Definition shaped (n : nat) (M : list (list bool)) : Prop :=
  length M = n ∧ Forall (λ row, length row = n) M.

(** Pointwise implication of masks and of matrices. *)
Definition mask_le : relation (list bool) := Forall2 (λ a b : bool, a = true → b = true).
Definition mask_le2 : relation (list (list bool)) := Forall2 mask_le.

(** The approximations in closed form. *)
Definition class_up (c : config) (t : Z) : list bool :=
  (λ d, Z.geb d t) <$> decision_attribute c.
Definition class_down (c : config) (t : Z) : list bool :=
  (λ d, Z.leb d t) <$> decision_attribute c.

Definition lower_of (c : config) (cone : list (list bool)) (cls : list bool) : list bool :=
  all_axis0 (N c) (zip_with (row_op orb) (mask_not2 cone) cls).
Definition upper_of (c : config) (cone : list (list bool)) (cls : list bool) : list bool :=
  any_axis0 (N c) (zip_with (row_op andb) cone cls).

(** The pair (lower, upper) used by [quality] and by rule induction at
    threshold [t]. *)
Definition lower_dir (c : config) (P : list nat) (t : Z) : list bool :=
  if String.eqb (direction c) "up"
  then lower_of c (dom_matrix Z.geb (F_pareto c) P) (class_up c t)
  else lower_of c (dom_matrix Z.leb (F_pareto c) P) (class_down c t).
Definition upper_dir (c : config) (P : list nat) (t : Z) : list bool :=
  if String.eqb (direction c) "up"
  then upper_of c (dom_matrix Z.leb (F_pareto c) P) (class_up c t)
  else upper_of c (dom_matrix Z.geb (F_pareto c) P) (class_down c t).

(** [consistent_mask] after the thresholds [ts]. *)
Definition consistent_of (c : config) (P : list nat) (ts : list Z) (mask : list bool)
    : list bool :=
  foldl (λ mask t,
           mask_and mask (mask_not (mask_and (upper_dir c P t) (mask_not (lower_dir c P t)))))
        mask ts.

(** [quality(P)] in closed form: consistently classified objects over [N]. *)
Definition quality_of (c : config) (P : list nat) : Q :=
  Qmake (Z.of_nat (count_true (consistent_of c P (seqZ 2 (m c - 1)) (ones (N c)))))
        (Pos.of_nat (N c)).

(** The subsets accepted by one pass over [subsets], in closed form. *)
Definition accepted (c : config) (full_quality : Q) (subsets reducts : list (list nat))
    : list (list nat) :=
  foldl (λ reducts subset,
           if Qeq_bool (quality_of c subset) full_quality
              && negb (existsb (λ red, issubset red subset) reducts)
           then reducts ++ [subset] else reducts)
        reducts subsets.

(** No earlier element of the list is, as a set, included in a later one. *)
Definition no_earlier_subset (reds : list (list nat)) : Prop :=
  ∀ i j Si Sj, i < j → reds !! i = Some Si → reds !! j = Some Sj → ¬ Si ⊆ Sj.

(** What the rule loops maintain: every collected rule is robust, its
    description was recorded in [seen], and descriptions are pairwise
    different. *)
Definition rules_inv (c : config) (st : gset string * list rule) : Prop :=
  Forall (λ r, is_robust (Fit c) r = Ok true) st.2 ∧
  (∀ r, r ∈ st.2 → desc r ∈ st.1) ∧
  NoDup (desc <$> st.2).

(** What every induced rule satisfies: the fixed conclusion, the engine's
    direction, a kind, a support in (0, 1], a confidence in [0, 1], and
    confidence 1 when the rule is certain. *)
Definition rule_sound (c : config) (r : rule) : Prop :=
  concl r = "x is 'good'" ∧ rule_direction r = direction c ∧
  (kind r = "certain" ∨ kind r = "possible") ∧
  (∃ s, support r = fl s ∧ (0 < s)%Q ∧ (s <= 1)%Q) ∧
  (∃ q, confidence r = fl q ∧ (0 <= q)%Q ∧ (q <= 1)%Q ∧
        (kind r = "certain" → (q == 1)%Q)).

(** * Decision makers ([decision_maker.py]) *)

(** [a >= b] and [a > b] on floats: false when a side is NaN. *)
Definition pyfloat_geb (a b : pyfloat) : bool :=
  match a, b with
  | fl p, fl q => Qle_bool q p
  | _, _ => false
  end.

Definition pyfloat_gtb (a b : pyfloat) : bool :=
  match a, b with
  | fl p, fl q => negb (Qle_bool p q)
  | _, _ => false
  end.

(** [l[:k]] for a Python integer [k]: a negative [k] counts from the end. *)
Definition slice_to {A} (l : list A) (k : Z) : list A :=
  if (0 <=? k)%Z then take (Z.to_nat k) l
  else take (Z.to_nat (Z.of_nat (length l) + k)) l.

(** [rules == prev_rules] on lists of rule tuples. *)
Definition rules_eqb (l1 l2 : list rule) : bool :=
  bool_decide (length l1 = length l2) && forallb (λ p, rule_eqb p.1 p.2) (zip l1 l2).

Module BaseDM.

(** [[r for r in rules if r[4] == 'certain']] *)
Definition certain_rules (rules : list rule) : list rule :=
  filter (λ r, kind r = "certain") rules.

(** The test under [any(...)] in [select_pareto]: [(s2, c2)] of [r2] is
    at least [(s1, c1)] of [r] on both and greater on one. *)
Definition dominates_rule (r r2 : rule) : bool :=
  (pyfloat_geb (support r2) (support r) && pyfloat_geb (confidence r2) (confidence r))
  && (pyfloat_gtb (support r2) (support r) || pyfloat_gtb (confidence r2) (confidence r)).

Definition select_pareto (rules : list rule) : list rule :=
  let certain := certain_rules rules in
  filter (λ r, existsb (dominates_rule r) certain = false) certain.

(** The stable descending sort by the first component: what
    [scored.sort(reverse=True, key=lambda x: x[0])] leaves when no key
    is NaN, entries with equal keys keeping their order. *)
Fixpoint insert_desc (x : pyfloat * rule) (l : list (pyfloat * rule))
    : list (pyfloat * rule) :=
  match l with
  | [] => [x]
  | y :: l' => if pyfloat_geb x.1 y.1 then x :: y :: l' else y :: insert_desc x l'
  end.

Definition sort_desc (l : list (pyfloat * rule)) : list (pyfloat * rule) :=
  foldr insert_desc [] l.

(** What is known of [list.sort] on float keys: it always leaves a
    permutation of the list, and on keys without NaN it is the stable
    descending sort.  With a NaN among the keys [<] is not an order and
    the list left depends on the sorting algorithm. *)
Record python_sort (list_sort : list (pyfloat * rule) → list (pyfloat * rule)) : Prop :=
  PythonSort {
    sort_permutation : ∀ l, list_sort l ≡ₚ l;
    sort_stable_desc : ∀ l, Forall (λ p, p.1 ≠ nan) l → list_sort l = sort_desc l
  }.

Section SimpleScore.

(** The float [alpha * r[3] + (1 - alpha) * r[2]]: its rounding is not
    modelled; [weighted alpha r[3] r[2]] stands for its value, NaN
    included, for any such function. *)
Variable weighted : pyfloat → pyfloat → pyfloat → pyfloat.

(** [scored.sort(reverse=True, key=lambda x: x[0])], see [python_sort]. *)
Variable list_sort : list (pyfloat * rule) → list (pyfloat * rule).

(** [simple_score(rules, k=5, alpha=0.7)] *)
Definition simple_score (rules : list rule) (k : Z) (alpha : pyfloat) : list rule :=
  let scored := (λ r, (weighted alpha (confidence r) (support r), r)) <$> certain_rules rules in
  snd <$> slice_to (list_sort scored) k.

End SimpleScore.

End BaseDM.

Module AutomatedDM.

(** The attributes set by [__init__]; [hv_indicator] is the callable
    stored by [classify], a function from an objective matrix to its
    hypervolume. *)
Record state : Type := State {
  hv_indicator : option (list (list Z) → Q);
  max_rounds : Z;
  vol_eps : Q;
  score : string;
  prev_rules : option (list rule);
  prev_hv : option Q;
  round : Z
}.

(** [__init__(max_rounds=3, vol_eps=1e-3, score='simple')] *)
Definition init (max_rounds : Z) (vol_eps : Q) (score : string) : state :=
  State None max_rounds vol_eps score None None 0.

(** Calling [self.hv_indicator] while it is [None]. *)
Inductive failure : Type :=
  | TypeError (msg : string).

Definition select (weighted : pyfloat → pyfloat → pyfloat → pyfloat)
    (list_sort : list (pyfloat * rule) → list (pyfloat * rule)) (self : state)
    (rules : list rule) : list rule :=
  if String.eqb (score self) "simple"
  then BaseDM.simple_score weighted list_sort rules 5 (fl (7 # 10))
  else if String.eqb (score self) "pareto" then BaseDM.select_pareto rules
  else rules.

(** [min(reducts, key=len)]: the first reduct of least length. *)
Definition select_reduct (self : state) (reducts : list (list nat)) (core : list nat)
    : result (list nat) :=
  match reducts with
  | [] => Raise (ValueError "min() arg is an empty sequence")
  | red :: reds =>
      Ok (foldl (λ best r, if length r <? length best then r else best) red reds)
  end.

(** [is_satisfied(X, T, rules)]: the answer and the state it leaves. *)
Definition is_satisfied (self : state) (T : list (list Z)) (rules : list rule)
    : failure + (bool * state) :=
  if decide (length T ≤ 1) then inr (true, self)
  else
    match hv_indicator self with
    | None => inl (TypeError "'NoneType' object is not callable")
    | Some indicator =>
        let hv := indicator T in
        if match prev_hv self with
           | Some prev => negb (Qle_bool (vol_eps self) (Qabs (hv - prev)))
           | None => false
           end
        then inr (true, self)
        else
          let self1 := State (hv_indicator self) (max_rounds self) (vol_eps self)
                         (score self) (prev_rules self) (Some hv) (round self) in
          if match prev_rules self1 with
             | Some prev => rules_eqb rules prev
             | None => false
             end
          then inr (true, self1)
          else
            let self2 := State (hv_indicator self1) (max_rounds self1) (vol_eps self1)
                           (score self1) (Some rules) (prev_hv self1) (round self1 + 1) in
            inr ((max_rounds self2 <=? round self2)%Z, self2)
    end.

(** The answers to consecutive calls of [is_satisfied], each call
    starting from the state the previous one left. *)
Fixpoint answers (self : state) (calls : list (list (list Z) * list rule))
    : failure + (list bool * state) :=
  match calls with
  | [] => inr ([], self)
  | (T, rules) :: calls' =>
      match is_satisfied self T rules with
      | inl e => inl e
      | inr (b, self') =>
          match answers self' calls' with
          | inl e => inl e
          | inr (bs, self'') => inr (b :: bs, self'')
          end
      end
  end.

End AutomatedDM.

Module DummyDM.

(** [reducts[0]] *)
Definition select_reduct (reducts : list (list nat)) (core : list nat) : result (list nat) :=
  match reducts with
  | [] => Raise IndexError
  | red :: _ => Ok red
  end.

End DummyDM.

(** * Example engines *)

(** The scenario of the specification: three objects, one gain-type
    criterion, classes 1, 2, 3, upward unions. *)
Definition scenario : config :=
  Config [[1]; [2]; [3]]%Z [1; 2; 3]%Z [0] 3 3%Z "up".

(** Two incomparable objects of the same class on two criteria. *)
Definition two_peaks : config :=
  Config [[1; 2]; [2; 1]]%Z [2; 2]%Z [0; 1] 2 2%Z "up".

(** Three objects on two criteria; the second criterion runs against the
    classes. *)
Definition three_by_two : config :=
  Config [[1; 5]; [2; 4]; [3; 3]]%Z [1; 2; 2]%Z [0; 1] 3 2%Z "up".

(** A two-decimal rendering of a quotient, rounding the exact rational
    half up; used to run the rule engine on the examples. *)
Definition format_2f (x : pyfloat) : string :=
  match x with
  | nan => "nan"
  | fl q =>
      let cents := ((2 * 100 * Qnum q + Zpos (Qden q)) / (2 * Zpos (Qden q)))%Z in
      let frac := (cents mod 100)%Z in
      pretty (cents / 100)%Z +:+ "." +:+ (if (frac <? 10)%Z then "0" else "") +:+ pretty frac
  end.

(** The two incomparable objects under a direction the engine does not
    know. *)
Definition sideways : config :=
  Config [[1; 2]; [2; 1]]%Z [2; 2]%Z [0; 1] 2 2%Z "sideways".

(** Two objects of one class: no threshold [t >= 2] exists. *)
Definition single_class : config :=
  Config [[1]; [2]]%Z [1; 1]%Z [0] 2 1%Z "up".

(** A certain rule on the first criterion with the given bound. *)
Definition good_at (v : Z) : rule :=
  Rule [(0, v)] "x is 'good'" (fl 1) (fl 1) "certain" "up" "[CERTAIN] rule".

(** An automated decision maker after [classify]: its indicator here is
    the number of rows, and the stored volume is that of an empty front. *)
Definition counting_dm : AutomatedDM.state :=
  AutomatedDM.State (Some (λ T, inject_Z (Z.of_nat (length T)))) 3 (1 # 1000)
    "simple" None (Some 0%Q) 0.

(** The weighted score in exact arithmetic. *)
Definition exact_weighted (alpha c s : pyfloat) : pyfloat :=
  match alpha, c, s with
  | fl a, fl c, fl s => fl (a * c + (1 - a) * s)
  | _, _, _ => nan
  end.

(** Three certain rules of different confidence and support, and a
    possible one. *)
Definition scored_rules : list rule :=
  [ Rule [(0, 1%Z)] "x is 'good'" (fl (1 # 2)) (fl (1 # 2)) "certain" "up" "first";
    Rule [(0, 2%Z)] "x is 'good'" (fl 1) (fl (3 # 4)) "possible" "up" "second";
    Rule [(0, 3%Z)] "x is 'good'" (fl (1 # 4)) (fl 1) "certain" "up" "third";
    Rule [(0, 4%Z)] "x is 'good'" (fl (3 # 4)) (fl (3 # 4)) "certain" "up" "fourth" ].

(** Three rounds on fronts of growing size and changing rule sets. *)
Definition three_rounds : list (list (list Z) * list rule) :=
  [ ([[1; 2]; [2; 1]]%Z, [good_at 1]);
    ([[1; 3]; [2; 2]; [3; 1]]%Z, [good_at 2]);
    ([[1; 4]; [2; 3]; [3; 2]; [4; 1]]%Z, [good_at 3]) ].

(** * Properties *)

(** ** The error monad *)

Lemma bind_Ok {A B} (a : A) (f : A → result B) : (Ok a ≫= f) = f a.
Proof. reflexivity. Qed.

Lemma bind_Raise {A B} (e : exn) (f : A → result B) : (Raise e ≫= f) = Raise e.
Proof. reflexivity. Qed.

Lemma bind_inv {A B} (r : result A) (f : A → result B) (b : B) :
  r ≫= f = Ok b → ∃ a, r = Ok a ∧ f a = Ok b.
Proof. destruct r as [a|e]; [eauto | discriminate]. Qed.

(** Split a hypothesis [x ← r; k = Ok b] into [r = Ok a] and [k a = Ok b]. *)
Ltac bind_inv H :=
  let a := fresh "a" in
  let Ha := fresh "H" a in
  apply bind_inv in H; destruct H as (a & Ha & H).

(** ** Arrays *)

Lemma length_column F idx vals : column F idx = Ok vals → length vals = length F.
Proof.
  revert vals; induction F as [|row F IH]; intros vals H; simpl in H.
  - by inversion H.
  - destruct (row !! idx); [|discriminate].
    bind_inv H. inversion H; subst. simpl. f_equal. eauto.
Qed.

Lemma column_ok F n idx :
  Forall (λ row, length row = n) F → idx < n →
  column F idx = Ok ((λ row, default 0%Z (row !! idx)) <$> F).
Proof.
  intros Hrows Hidx. induction Hrows as [|row F Hrow _ IH]; [done|].
  simpl. destruct (lookup_lt_is_Some_2 row idx) as [v Hv]; [lia|].
  rewrite Hv, IH. done.
Qed.

Lemma column_lookup F idx vals x a :
  column F idx = Ok vals → vals !! x = Some a → entry F x idx = Ok a.
Proof.
  revert vals x; induction F as [|row F IH]; intros vals x H Hx; simpl in H.
  - inversion H; subst. done.
  - destruct (row !! idx) as [v|] eqn:Hv; [|discriminate].
    bind_inv H. inversion H; subst. destruct x as [|x]; simpl in Hx.
    + inversion Hx; subst. unfold entry. simpl. by rewrite Hv.
    + specialize (IH _ _ Ha0 Hx). unfold entry in *. by simpl.
Qed.

(** ** Dominance cones *)

Lemma dominates_snoc cmp P i ry rx :
  dominates cmp (P ++ [i]) ry rx
  = dominates cmp P ry rx && cmp (default 0%Z (ry !! i)) (default 0%Z (rx !! i)).
Proof. unfold dominates. rewrite forallb_app. simpl. by rewrite andb_true_r. Qed.

Lemma dom_matrix_snoc cmp F P i :
  mask_and2 (dom_matrix cmp F P) (outer cmp ((λ row, default 0%Z (row !! i)) <$> F))
  = dom_matrix cmp F (P ++ [i]).
Proof.
  unfold mask_and2, dom_matrix, outer.
  rewrite <- !list_fmap_compose, zip_with_fmap_l, zip_with_fmap_r, zip_with_diag.
  apply list_fmap_ext; intros _ ry _; simpl.
  unfold mask_and.
  rewrite <- !list_fmap_compose, zip_with_fmap_l, zip_with_fmap_r, zip_with_diag.
  apply list_fmap_ext; intros _ rx _; simpl.
  by rewrite dominates_snoc.
Qed.

Lemma cone_loop_closed cmp F n P0 P :
  Forall (λ row, length row = n) F → in_range n P →
  cone_loop cmp F P (dom_matrix cmp F P0) = Ok (dom_matrix cmp F (P0 ++ P)).
Proof.
  intros Hrows HP. revert P0.
  induction HP as [|i P Hi _ IH]; intros P0; simpl.
  - by rewrite app_nil_r.
  - rewrite (column_ok F n i Hrows Hi), bind_Ok, dom_matrix_snoc, IH.
    by rewrite <- app_assoc.
Qed.

Lemma dom_matrix_nil cmp F : dom_matrix cmp F [] = ones2 (length F) (length F).
Proof.
  unfold dom_matrix, ones2. apply const_fmap; intros _ ry _.
  by apply const_fmap.
Qed.

Lemma positive_cone_closed c n P :
  well_formed c n → in_range n P →
  positive_cone (Fit c) P = Ok (dom_matrix Z.geb (F_pareto c) P).
Proof.
  intros [HN Hrows _ _] HP. unfold positive_cone; simpl.
  rewrite HN, <- (dom_matrix_nil Z.geb).
  apply (cone_loop_closed Z.geb _ n [] P Hrows HP).
Qed.

Lemma negative_cone_closed c n P :
  well_formed c n → in_range n P →
  negative_cone (Fit c) P = Ok (dom_matrix Z.leb (F_pareto c) P).
Proof.
  intros [HN Hrows _ _] HP. unfold negative_cone; simpl.
  rewrite HN, <- (dom_matrix_nil Z.leb).
  apply (cone_loop_closed Z.leb _ n [] P Hrows HP).
Qed.

Lemma length_dom_matrix cmp F P : length (dom_matrix cmp F P) = length F.
Proof. unfold dom_matrix. by rewrite length_fmap. Qed.

Lemma dom_matrix_rows cmp F P :
  Forall (λ row, length row = length F) (dom_matrix cmp F P).
Proof.
  unfold dom_matrix. apply Forall_fmap, Forall_forall; intros ry _; simpl.
  by rewrite length_fmap.
Qed.

Lemma get2_dom_matrix cmp F P y x ry rx :
  F !! y = Some ry → F !! x = Some rx →
  get2 (dom_matrix cmp F P) y x = Some (dominates cmp P ry rx).
Proof.
  intros Hy Hx. unfold get2, dom_matrix.
  rewrite list_lookup_fmap, Hy; simpl.
  by rewrite list_lookup_fmap, Hx.
Qed.

Lemma obj_lookup c y i ry :
  F_pareto c !! y = Some ry → default 0%Z (ry !! i) = obj c y i.
Proof. intros Hy. unfold obj. by rewrite Hy. Qed.

Lemma obj_entry c n y i :
  well_formed c n → y < N c → i < n → entry (F_pareto c) y i = Ok (obj c y i).
Proof.
  intros [HN Hrows _ _] Hy Hi. unfold entry, obj.
  destruct (lookup_lt_is_Some_2 (F_pareto c) y) as [ry Hry]; [lia|].
  rewrite Hry; simpl.
  assert (length ry = n) as Hlen.
  { eapply (proj1 (Forall_forall _ _) Hrows), list_elem_of_lookup_2, Hry. }
  destruct (lookup_lt_is_Some_2 ry i) as [v Hv]; [lia|].
  by rewrite Hv.
Qed.

Lemma dominates_spec cmp P ry rx :
  dominates cmp P ry rx = true
  ↔ ∀ i, i ∈ P → cmp (default 0%Z (ry !! i)) (default 0%Z (rx !! i)) = true.
Proof.
  unfold dominates. rewrite forallb_forall.
  split; intros H i Hi; apply H; by apply list_elem_of_In.
Qed.

Lemma scenario_fit :
  fit init (Some [[1]; [2]; [3]]%Z) (Some [0]) (Some [1; 2; 3]%Z) "up" = Ok (Fit scenario).
Proof. reflexivity. Qed.

Lemma scenario_well_formed : well_formed scenario 1.
Proof. split; [reflexivity | repeat constructor | reflexivity | reflexivity]. Qed.

Lemma two_peaks_well_formed : well_formed two_peaks 2.
Proof. split; [reflexivity | repeat constructor | reflexivity | reflexivity]. Qed.

(** [fit] on arguments of consistent shape gives a well-formed engine. *)
Lemma fit_well_formed self0 F crit dec dir n self :
  Forall (λ row, length row = n) F → length dec = length F →
  fit self0 (Some F) (Some crit) (Some dec) dir = Ok self →
  ∃ c, self = Fit c ∧ well_formed c n ∧ criteria c = crit ∧ direction c = dir.
Proof.
  intros Hrows Hlen Hfit. unfold fit in Hfit. bind_inv Hfit.
  inversion Hfit; subst. eexists; split; [reflexivity|].
  split; [|done]. by split.
Qed.

Lemma shaped_dom_matrix c n cmp P :
  well_formed c n → shaped (N c) (dom_matrix cmp (F_pareto c) P).
Proof.
  intros [HN _ _ _]. split.
  - by rewrite length_dom_matrix.
  - rewrite HN. apply dom_matrix_rows.
Qed.

Lemma dom_matrix_entry c n cmp P y x :
  well_formed c n → y < N c → x < N c →
  get2 (dom_matrix cmp (F_pareto c) P) y x = Some true
  ↔ ∀ i, i ∈ P → cmp (obj c y i) (obj c x i) = true.
Proof.
  intros [HN _ _ _] Hy Hx.
  destruct (lookup_lt_is_Some_2 (F_pareto c) y) as [ry Hry]; [lia|].
  destruct (lookup_lt_is_Some_2 (F_pareto c) x) as [rx Hrx]; [lia|].
  rewrite (get2_dom_matrix _ _ _ _ _ _ _ Hry Hrx).
  assert (dominates cmp P ry rx = true
          ↔ ∀ i, i ∈ P → cmp (obj c y i) (obj c x i) = true) as <-.
  { rewrite dominates_spec.
    split; intros H i Hi; specialize (H i Hi);
      by rewrite (obj_lookup c y i ry Hry), (obj_lookup c x i rx Hrx) in *. }
  split; [by intros [= ->] | by intros ->].
Qed.

(** C4. On a fitted engine and criteria [P] that are columns of the
    objective matrix, [positive_cone(P)] and [negative_cone(P)] return
    N×N matrices with [positive_cone(P)[y,x]] true iff
    [F[y,i] ≥ F[x,i]] for all [i] in [P], [negative_cone(P)[y,x]] true iff
    [F[y,i] ≤ F[x,i]] for all [i] in [P], and true on the diagonal. *)
Theorem cones_characterisation c n P :
  well_formed c n → in_range n P →
  ∃ pos neg,
    positive_cone (Fit c) P = Ok pos ∧ negative_cone (Fit c) P = Ok neg ∧
    shaped (N c) pos ∧ shaped (N c) neg ∧
    ∀ y x, y < N c → x < N c →
      (get2 pos y x = Some true ↔ ∀ i, i ∈ P → (obj c y i >= obj c x i)%Z) ∧
      (get2 neg y x = Some true ↔ ∀ i, i ∈ P → (obj c y i <= obj c x i)%Z) ∧
      get2 pos x x = Some true ∧ get2 neg x x = Some true.
Proof.
  intros Hwf HP.
  exists (dom_matrix Z.geb (F_pareto c) P), (dom_matrix Z.leb (F_pareto c) P).
  split; [by apply (positive_cone_closed c n)|].
  split; [by apply (negative_cone_closed c n)|].
  split; [by apply (shaped_dom_matrix c n)|].
  split; [by apply (shaped_dom_matrix c n)|].
  intros y x Hy Hx. rewrite !(dom_matrix_entry c n) by done.
  repeat split.
  - intros H i Hi. specialize (H i Hi). lia.
  - intros H i Hi. specialize (H i Hi). lia.
  - intros H i Hi. specialize (H i Hi). lia.
  - intros H i Hi. specialize (H i Hi). lia.
  - intros i _. lia.
  - intros i _. lia.
Qed.

(** ** Rough approximations *)

Lemma broadcast_col_same op M col :
  length col = length M → broadcast_col op M col = Ok (zip_with (row_op op) M col).
Proof. intros H. unfold broadcast_col. by rewrite decide_True. Qed.

Lemma lookup_all_axis0 k M x :
  x < k → all_axis0 k M !! x = Some (forallb id (bcolumn M x)).
Proof.
  intros Hx. unfold all_axis0. by rewrite list_lookup_fmap, lookup_seq_lt.
Qed.

Lemma lookup_any_axis0 k M x :
  x < k → any_axis0 k M !! x = Some (existsb id (bcolumn M x)).
Proof.
  intros Hx. unfold any_axis0. by rewrite list_lookup_fmap, lookup_seq_lt.
Qed.

Lemma length_all_axis0 k M : length (all_axis0 k M) = k.
Proof. unfold all_axis0. by rewrite length_fmap, length_seq. Qed.

Lemma length_any_axis0 k M : length (any_axis0 k M) = k.
Proof. unfold any_axis0. by rewrite length_fmap, length_seq. Qed.

Lemma forallb_bcolumn M x :
  forallb id (bcolumn M x) = true
  ↔ ∀ y row, M !! y = Some row → default false (row !! x) = true.
Proof.
  unfold bcolumn. rewrite <- Is_true_true, forallb_True, Forall_fmap, Forall_lookup.
  split; intros H y row Hy; specialize (H y row Hy); simpl in *;
    by apply Is_true_true.
Qed.

Lemma existsb_bcolumn M x :
  existsb id (bcolumn M x) = true
  ↔ ∃ y row, M !! y = Some row ∧ default false (row !! x) = true.
Proof.
  unfold bcolumn. rewrite <- Is_true_true, existb_True, Exists_fmap, Exists_exists.
  split.
  - intros (row & Hrow & Hb). apply list_elem_of_lookup in Hrow as [y Hy].
    exists y, row. split; [done|]. by apply Is_true_true.
  - intros (y & row & Hy & Hb). exists row. split.
    + by eapply list_elem_of_lookup_2.
    + by apply Is_true_true.
Qed.

Lemma lookup_zip_row_op op M col y mrow :
  zip_with (row_op op) M col !! y = Some mrow
  ↔ ∃ row cy, M !! y = Some row ∧ col !! y = Some cy ∧ mrow = row_op op row cy.
Proof.
  rewrite lookup_zip_with.
  destruct (M !! y) as [row|]; simpl; [destruct (col !! y) as [cy|]; simpl|].
  - split; [intros [= <-]; eauto | intros (? & ? & [= <-] & [= <-] & ->); done].
  - split; [done | intros (? & ? & _ & ? & _); done].
  - split; [done | intros (? & ? & ? & _); done].
Qed.

Lemma lower_of_spec c cone cls x :
  shaped (N c) cone → length cls = N c → x < N c →
  lower_of c cone cls !! x = Some true
  ↔ ∀ y, get2 cone y x = Some true → cls !! y = Some true.
Proof.
  intros [Hlen Hrows] Hcls Hx. unfold lower_of.
  rewrite (lookup_all_axis0 _ _ _ Hx).
  split.
  - intros [= Hall] y Hy. rewrite forallb_bcolumn in Hall.
    unfold get2 in Hy. destruct (cone !! y) as [row|] eqn:Hrow; [simpl in Hy|done].
    destruct (lookup_lt_is_Some_2 cls y) as [cy Hcy].
    { apply lookup_lt_Some in Hrow. lia. }
    specialize (Hall y (row_op orb (mask_not row) cy)).
    rewrite Hcy. f_equal.
    assert (default false (row_op orb (mask_not row) cy !! x) = true) as Hb.
    { apply Hall, lookup_zip_row_op. exists (mask_not row), cy.
      unfold mask_not2. by rewrite list_lookup_fmap, Hrow. }
    unfold row_op, mask_not in Hb. rewrite !list_lookup_fmap, Hy in Hb.
    by simpl in Hb.
  - intros H. f_equal. apply forallb_bcolumn; intros y mrow Hm.
    apply lookup_zip_row_op in Hm as (nrow & cy & Hn & Hcy & ->).
    unfold mask_not2 in Hn. rewrite list_lookup_fmap in Hn.
    destruct (cone !! y) as [row|] eqn:Hrow; [|done]. injection Hn as <-.
    assert (length row = N c) as Hrl.
    { eapply (proj1 (Forall_forall _ _) Hrows), list_elem_of_lookup_2, Hrow. }
    destruct (lookup_lt_is_Some_2 row x) as [bx Hbx]; [lia|].
    unfold row_op, mask_not. rewrite !list_lookup_fmap, Hbx. simpl.
    destruct bx; [simpl|done].
    specialize (H y). unfold get2 in H. rewrite Hrow in H; simpl in H.
    specialize (H Hbx). congruence.
Qed.

Lemma upper_of_spec c cone cls x :
  shaped (N c) cone → length cls = N c → x < N c →
  upper_of c cone cls !! x = Some true
  ↔ ∃ y, get2 cone y x = Some true ∧ cls !! y = Some true.
Proof.
  intros [Hlen Hrows] Hcls Hx. unfold upper_of.
  rewrite (lookup_any_axis0 _ _ _ Hx).
  split.
  - intros [= Hex]. apply existsb_bcolumn in Hex as (y & mrow & Hm & Hb).
    apply lookup_zip_row_op in Hm as (row & cy & Hrow & Hcy & ->).
    exists y. unfold get2. rewrite Hrow; simpl.
    unfold row_op in Hb. rewrite list_lookup_fmap in Hb.
    destruct (row !! x) as [bx|]; [simpl in Hb|done].
    apply andb_true_iff in Hb as [-> ->]. done.
  - intros (y & Hy & Hcy). f_equal. apply existsb_bcolumn.
    unfold get2 in Hy. destruct (cone !! y) as [row|] eqn:Hrow; [simpl in Hy|done].
    exists y, (row_op andb row true). split.
    + apply lookup_zip_row_op. eauto.
    + unfold row_op. by rewrite list_lookup_fmap, Hy.
Qed.

Lemma lower_approx_up_closed c n P t :
  well_formed c n → in_range n P →
  lower_approx_up (Fit c) P t
  = Ok (lower_of c (dom_matrix Z.geb (F_pareto c) P) (class_up c t)).
Proof.
  intros Hwf HP. unfold lower_approx_up.
  rewrite (positive_cone_closed c n P Hwf HP); simpl.
  rewrite broadcast_col_same; [done|].
  destruct Hwf as [HN _ Hdec _].
  unfold mask_not2. by rewrite !length_fmap, length_dom_matrix, Hdec.
Qed.

Lemma upper_approx_up_closed c n P t :
  well_formed c n → in_range n P →
  upper_approx_up (Fit c) P t
  = Ok (upper_of c (dom_matrix Z.leb (F_pareto c) P) (class_up c t)).
Proof.
  intros Hwf HP. unfold upper_approx_up.
  rewrite (negative_cone_closed c n P Hwf HP); simpl.
  rewrite broadcast_col_same; [done|].
  destruct Hwf as [HN _ Hdec _].
  by rewrite !length_fmap, length_dom_matrix, Hdec.
Qed.

Lemma lower_approx_down_closed c n P t :
  well_formed c n → in_range n P →
  lower_approx_down (Fit c) P t
  = Ok (lower_of c (dom_matrix Z.leb (F_pareto c) P) (class_down c t)).
Proof.
  intros Hwf HP. unfold lower_approx_down.
  rewrite (negative_cone_closed c n P Hwf HP); simpl.
  rewrite broadcast_col_same; [done|].
  destruct Hwf as [HN _ Hdec _].
  unfold mask_not2. by rewrite !length_fmap, length_dom_matrix, Hdec.
Qed.

Lemma upper_approx_down_closed c n P t :
  well_formed c n → in_range n P →
  upper_approx_down (Fit c) P t
  = Ok (upper_of c (dom_matrix Z.geb (F_pareto c) P) (class_down c t)).
Proof.
  intros Hwf HP. unfold upper_approx_down.
  rewrite (positive_cone_closed c n P Hwf HP); simpl.
  rewrite broadcast_col_same; [done|].
  destruct Hwf as [HN _ Hdec _].
  by rewrite !length_fmap, length_dom_matrix, Hdec.
Qed.

Lemma class_up_lookup c t y :
  class_up c t !! y = Some true
  ↔ ∃ d, decision_attribute c !! y = Some d ∧ (d >= t)%Z.
Proof.
  unfold class_up. rewrite list_lookup_fmap.
  destruct (decision_attribute c !! y) as [d|]; simpl.
  - split.
    + intros [= H]. exists d. split; [done|]. lia.
    + intros (d' & [= <-] & H). f_equal. lia.
  - split; [done | intros (? & ? & _); done].
Qed.

(** C5. On a fitted engine, [lower_approx_up(P, t)[x]] is true iff every
    object [y] with [positive_cone(P)[y, x]] true has
    [decision_attribute[y] ≥ t], and [upper_approx_up(P, t)[x]] is true iff
    some object [y] with [negative_cone(P)[y, x]] true has
    [decision_attribute[y] ≥ t]. *)
Theorem approx_up_characterisation c n P t :
  well_formed c n → in_range n P →
  ∃ pos neg lower upper,
    positive_cone (Fit c) P = Ok pos ∧ negative_cone (Fit c) P = Ok neg ∧
    lower_approx_up (Fit c) P t = Ok lower ∧ upper_approx_up (Fit c) P t = Ok upper ∧
    length lower = N c ∧ length upper = N c ∧
    ∀ x, x < N c →
      (lower !! x = Some true
       ↔ ∀ y d, get2 pos y x = Some true → decision_attribute c !! y = Some d → (d >= t)%Z) ∧
      (upper !! x = Some true
       ↔ ∃ y d, get2 neg y x = Some true ∧ decision_attribute c !! y = Some d ∧ (d >= t)%Z).
Proof.
  intros Hwf HP. do 4 eexists.
  split; [by apply (positive_cone_closed c n)|].
  split; [by apply (negative_cone_closed c n)|].
  split; [by apply (lower_approx_up_closed c n)|].
  split; [by apply (upper_approx_up_closed c n)|].
  split; [apply length_all_axis0|]. split; [apply length_any_axis0|].
  intros x Hx.
  assert (length (class_up c t) = N c) as Hcls.
  { unfold class_up. rewrite length_fmap. apply Hwf. }
  split.
  - rewrite lower_of_spec by eauto using shaped_dom_matrix.
    split.
    + intros H y d Hy Hd. apply H, class_up_lookup in Hy as (d' & Hd' & Hge).
      congruence.
    + intros H y Hy. apply class_up_lookup.
      destruct (lookup_lt_is_Some_2 (decision_attribute c) y) as [d Hd].
      { unfold get2 in Hy. destruct (dom_matrix _ _ _ !! y) eqn:Hrow; [|done].
        apply lookup_lt_Some in Hrow. rewrite length_dom_matrix in Hrow.
        destruct Hwf as [HN _ Hdec _]. lia. }
      eauto.
  - rewrite upper_of_spec by eauto using shaped_dom_matrix.
    split.
    + intros (y & Hy & Hc). apply class_up_lookup in Hc as (d & Hd & Hge). eauto.
    + intros (y & d & Hy & Hd & Hge). exists y. split; [done|].
      apply class_up_lookup. eauto.
Qed.

(** ** Pointwise order on masks *)

Lemma mask_le_refl a : mask_le a a.
Proof. apply Forall_Forall2_diag, Forall_forall. auto. Qed.

Lemma mask_not_anti a b : mask_le a b → mask_le (mask_not b) (mask_not a).
Proof.
  intros H. unfold mask_not. apply Forall2_fmap_2, Forall2_flip.
  eapply Forall2_impl; [exact H|]. intros [] []; simpl; auto.
Qed.

Lemma mask_not2_anti M M' : mask_le2 M M' → mask_le2 (mask_not2 M') (mask_not2 M).
Proof.
  intros H. unfold mask_not2. apply Forall2_fmap_2, Forall2_flip.
  eapply Forall2_impl; [exact H|]. intros ? ?; apply mask_not_anti.
Qed.

Lemma mask_and_mono a a' b b' :
  mask_le a a' → mask_le b b' → mask_le (mask_and a b) (mask_and a' b').
Proof.
  intros Ha. revert b b'. unfold mask_and.
  induction Ha as [|x x' a a' Hx Ha IH]; intros b b' Hb; [constructor|].
  destruct Hb as [|y y' b b' Hy Hb]; simpl; constructor; [|by apply IH].
  intros [Hx1 Hy1]%andb_true_iff. by rewrite (Hx Hx1), (Hy Hy1).
Qed.

Lemma zip_row_op_mono op M M' col :
  (∀ a a' b, (a = true → a' = true) → op a b = true → op a' b = true) →
  mask_le2 M M' →
  mask_le2 (zip_with (row_op op) M col) (zip_with (row_op op) M' col).
Proof.
  intros Hop H. revert col.
  induction H as [|row row' M M' Hrow _ IH]; intros col; [constructor|].
  destruct col as [|cy col]; simpl; constructor; [|apply IH].
  unfold row_op. apply Forall2_fmap_2.
  eapply Forall2_impl; [exact Hrow|]. intros; eapply Hop; eauto.
Qed.

Lemma bcolumn_mono M M' x : mask_le2 M M' → mask_le (bcolumn M x) (bcolumn M' x).
Proof.
  intros H. unfold bcolumn. apply Forall2_fmap_2.
  eapply Forall2_impl; [exact H|]. intros row row' Hrow; simpl.
  pose proof (proj1 (Forall2_lookup _ _ _) Hrow x) as Hx.
  destruct Hx as [b b' Hb|]; simpl; auto.
Qed.

Lemma forallb_id_mono a b : mask_le a b → forallb id a = true → forallb id b = true.
Proof.
  induction 1 as [|x y a b Hxy _ IH]; [done|]. simpl.
  intros [Hx Ha]%andb_true_iff. unfold id in *. by rewrite (Hxy Hx), (IH Ha).
Qed.

Lemma existsb_id_mono a b : mask_le a b → existsb id a = true → existsb id b = true.
Proof.
  induction 1 as [|x y a b Hxy _ IH]; [done|]. simpl.
  intros [Hx|Ha]%orb_true_iff; unfold id in *.
  - by rewrite (Hxy Hx).
  - rewrite (IH Ha). apply orb_true_r.
Qed.

Lemma all_axis0_mono k M M' : mask_le2 M M' → mask_le (all_axis0 k M) (all_axis0 k M').
Proof.
  intros H. unfold all_axis0. apply Forall2_fmap_2, Forall_Forall2_diag, Forall_forall.
  intros x _. apply forallb_id_mono, bcolumn_mono, H.
Qed.

Lemma any_axis0_mono k M M' : mask_le2 M M' → mask_le (any_axis0 k M) (any_axis0 k M').
Proof.
  intros H. unfold any_axis0. apply Forall2_fmap_2, Forall_Forall2_diag, Forall_forall.
  intros x _. apply existsb_id_mono, bcolumn_mono, H.
Qed.

Lemma lower_of_anti c cone cone' cls :
  mask_le2 cone' cone → mask_le (lower_of c cone cls) (lower_of c cone' cls).
Proof.
  intros H. unfold lower_of. apply all_axis0_mono, zip_row_op_mono.
  - intros [] [] []; simpl; auto.
  - by apply mask_not2_anti.
Qed.

Lemma upper_of_mono c cone cone' cls :
  mask_le2 cone cone' → mask_le (upper_of c cone cls) (upper_of c cone' cls).
Proof.
  intros H. unfold upper_of. apply any_axis0_mono, zip_row_op_mono; [|done].
  intros [] [] []; simpl; auto.
Qed.

Lemma count_true_mono a b : mask_le a b → count_true a ≤ count_true b.
Proof.
  unfold count_true. induction 1 as [|x y a b Hxy _ IH]; [done|].
  rewrite !filter_cons. destruct x, y; simpl in *;
    repeat case_decide; simpl; try done; try lia.
Qed.

Lemma count_true_le a : count_true a ≤ length a.
Proof. unfold count_true. apply length_filter. Qed.

(** ** Cones shrink when criteria are added *)

Lemma dominates_anti cmp (P P' : list nat) ry rx :
  P ⊆ P' → dominates cmp P' ry rx = true → dominates cmp P ry rx = true.
Proof. rewrite !dominates_spec. intros HP H i Hi. apply H, HP, Hi. Qed.

Lemma dom_matrix_anti cmp F (P P' : list nat) :
  P ⊆ P' → mask_le2 (dom_matrix cmp F P') (dom_matrix cmp F P).
Proof.
  intros HP. unfold dom_matrix.
  apply Forall2_fmap_2, Forall_Forall2_diag, Forall_forall; intros ry _.
  apply Forall2_fmap_2, Forall_Forall2_diag, Forall_forall; intros rx _.
  by apply dominates_anti.
Qed.

Lemma lower_dir_mono c (P P' : list nat) t :
  P ⊆ P' → mask_le (lower_dir c P t) (lower_dir c P' t).
Proof.
  intros HP. unfold lower_dir.
  destruct (String.eqb _ _); by apply lower_of_anti, dom_matrix_anti.
Qed.

Lemma upper_dir_anti c (P P' : list nat) t :
  P ⊆ P' → mask_le (upper_dir c P' t) (upper_dir c P t).
Proof.
  intros HP. unfold upper_dir.
  destruct (String.eqb _ _); by apply upper_of_mono, dom_matrix_anti.
Qed.

Lemma consistent_of_mono c (P P' : list nat) ts mask mask' :
  P ⊆ P' → mask_le mask mask' →
  mask_le (consistent_of c P ts mask) (consistent_of c P' ts mask').
Proof.
  intros HP. unfold consistent_of. revert mask mask'.
  induction ts as [|t ts IH]; intros mask mask' Hm; [done|]. simpl.
  apply IH, mask_and_mono; [done|].
  apply mask_not_anti, mask_and_mono.
  - by apply upper_dir_anti.
  - by apply mask_not_anti, lower_dir_mono.
Qed.

(** ** Quality of approximation *)

Lemma well_formed_N_pos c n : well_formed c n → N c ≠ 0.
Proof.
  intros [_ _ Hdec Hm] HN. rewrite HN in Hdec.
  destruct (decision_attribute c); [discriminate Hm | discriminate Hdec].
Qed.

Lemma quality_loop_closed c n P ts mask :
  well_formed c n → in_range n P →
  quality_loop (Fit c) c P ts mask = Ok (consistent_of c P ts mask).
Proof.
  intros Hwf HP. unfold consistent_of, lower_dir, upper_dir. revert mask.
  induction ts as [|t ts IH]; intros mask; [done|]. simpl.
  destruct (String.eqb (direction c) "up").
  - rewrite (lower_approx_up_closed c n P t Hwf HP), (upper_approx_up_closed c n P t Hwf HP).
    simpl. apply IH.
  - rewrite (lower_approx_down_closed c n P t Hwf HP),
      (upper_approx_down_closed c n P t Hwf HP).
    simpl. apply IH.
Qed.

Lemma quality_closed c n P :
  well_formed c n → in_range n P → quality (Fit c) P = Ok (quality_of c P).
Proof.
  intros Hwf HP. unfold quality. simpl.
  rewrite (quality_loop_closed c n P _ _ Hwf HP). simpl.
  rewrite decide_False; [done|]. by eapply well_formed_N_pos.
Qed.

Lemma quality_of_mono c (P P' : list nat) :
  P ⊆ P' → (quality_of c P <= quality_of c P')%Q.
Proof.
  intros Hsub. unfold Qle, quality_of; simpl.
  apply Z.mul_le_mono_nonneg_r; [lia|].
  apply inj_le, count_true_mono, consistent_of_mono; [done|].
  apply mask_le_refl.
Qed.

(** [quality] depends on the criteria only as a set. *)
Lemma quality_of_set c (P P' : list nat) :
  P ⊆ P' → P' ⊆ P → quality_of c P = quality_of c P'.
Proof.
  intros H1 H2. unfold quality_of. do 2 f_equal. apply Nat.le_antisymm;
    apply count_true_mono, consistent_of_mono; auto using mask_le_refl.
Qed.

Lemma in_range_subseteq n (P P' : list nat) : P ⊆ P' → in_range n P' → in_range n P.
Proof.
  unfold in_range. rewrite !Forall_forall. intros HP H i Hi. apply H, HP, Hi.
Qed.

(** C1. On a fitted engine, for criteria subsets [P ⊆ P'] (columns of the
    objective matrix), [quality(P)] and [quality(P')] are defined and
    [quality(P) ≤ quality(P')]. *)
Theorem quality_monotone c n (P P' : list nat) :
  well_formed c n → in_range n P' → P ⊆ P' →
  ∃ q q', quality (Fit c) P = Ok q ∧ quality (Fit c) P' = Ok q' ∧ (q <= q')%Q.
Proof.
  intros Hwf HP' Hsub.
  pose proof (in_range_subseteq n P P' Hsub HP') as HP.
  exists (quality_of c P), (quality_of c P').
  split; [by apply (quality_closed c n)|].
  split; [by apply (quality_closed c n)|].
  by apply quality_of_mono.
Qed.

(** ** Queries on an engine that was not fitted *)

(** C9. Before [fit], every query (the two cones, the four approximation
    operators, [quality], [find_reducts], [core] and
    [induce_decision_rules]) raises the not-fitted assertion error. *)
Theorem queries_before_fit fmt_2f (P : list nat) (t : Z)
    (reducts : option (list (list nat))) (criteria_arg : option (list nat))
    (minimal : bool) :
  is_fit init = false ∧
  positive_cone init P = Raise NotFittedError ∧
  negative_cone init P = Raise NotFittedError ∧
  lower_approx_up init P t = Raise NotFittedError ∧
  upper_approx_up init P t = Raise NotFittedError ∧
  lower_approx_down init P t = Raise NotFittedError ∧
  upper_approx_down init P t = Raise NotFittedError ∧
  quality init P = Raise NotFittedError ∧
  find_reducts init = Raise NotFittedError ∧
  core init reducts = Raise NotFittedError ∧
  induce_decision_rules fmt_2f init criteria_arg t minimal = Raise NotFittedError.
Proof. repeat split. Qed.

(** ** Cones of the empty criteria tuple *)

Lemma get2_ones2 n y x : y < n → x < n → get2 (ones2 n n) y x = Some true.
Proof.
  intros Hy Hx. unfold get2, ones2.
  rewrite lookup_replicate_2 by done. simpl. by rewrite lookup_replicate_2.
Qed.

(** C10. On a fitted engine, [positive_cone(())] and [negative_cone(())]
    do not fail and return the all-true N×N matrix. *)
Theorem cones_empty_criteria c :
  positive_cone (Fit c) [] = Ok (ones2 (N c) (N c)) ∧
  negative_cone (Fit c) [] = Ok (ones2 (N c) (N c)) ∧
  shaped (N c) (ones2 (N c) (N c)) ∧
  ∀ y x, y < N c → x < N c → get2 (ones2 (N c) (N c)) y x = Some true.
Proof.
  repeat split.
  - unfold ones2. by rewrite length_replicate.
  - unfold ones2. apply Forall_replicate. by rewrite length_replicate.
  - intros y x. apply get2_ones2.
Qed.

(** ** Decision rules *)

Lemma dict_get_elem_of (d : dict) i v : dict_get d i = Some v → (i, v) ∈ d.
Proof.
  induction d as [|[k w] d IH]; simpl; [done|].
  destruct (decide (i = k)) as [->|Hne]; [intros [= ->]; by left | intros Hget; right; auto].
Qed.

Lemma mask_and_lookup_true a b x :
  mask_and a b !! x = Some true ↔ a !! x = Some true ∧ b !! x = Some true.
Proof.
  unfold mask_and. rewrite lookup_zip_with.
  destruct (a !! x) as [[]|], (b !! x) as [[]|]; simpl; intuition congruence.
Qed.

Lemma existsb_id_lookup a : existsb id a = true ↔ ∃ x, a !! x = Some true.
Proof.
  rewrite <- Is_true_true, existb_True, Exists_exists. split.
  - intros (b & Hb & Ht). apply list_elem_of_lookup in Hb as [x Hx].
    exists x. destruct b; [done | by simpl in Ht].
  - intros (x & Hx). exists true. split; [by eapply list_elem_of_lookup_2 | done].
Qed.

(** An object that passes the premise loop passes every comparison. *)
Lemma premise_loop_sound cmp F (items : dict) mask mask' x :
  premise_loop cmp F items mask = Ok mask' → mask' !! x = Some true →
  mask !! x = Some true ∧
  ∀ i v, (i, v) ∈ items → ∃ a, entry F x i = Ok a ∧ cmp a v = true.
Proof.
  revert mask. induction items as [|[i val] items IH]; intros mask H Hx; simpl in H.
  - injection H as <-. split; [done|]. intros i v Hin. by apply elem_of_nil in Hin.
  - bind_inv H. destruct (IH _ H Hx) as [Hm Hitems].
    apply mask_and_lookup_true in Hm as [Hm Hc]. split; [done|].
    intros i' v' [[= -> ->]|Hin]%elem_of_cons; [|by apply Hitems].
    rewrite list_lookup_fmap in Hc.
    destruct (a !! x) as [v|] eqn:Hv; [simpl in Hc|done].
    exists v. split; [by eapply column_lookup | congruence].
Qed.

Lemma is_robust_sound c r :
  is_robust (Fit c) r = Ok true →
  ∃ x, x < N c ∧
    ∀ i v, dict_get (profile r) i = Some v →
      ∃ a, entry (F_pareto c) x i = Ok a ∧ a = v ∧
           (if String.eqb (direction c) "up" then (a >= v)%Z else (a <= v)%Z).
Proof.
  unfold is_robust. simpl. intros H. bind_inv H. bind_inv H.
  injection H as Hex. apply existsb_id_lookup in Hex as [x Hx].
  apply mask_and_lookup_true in Hx as [Hb Hm].
  destruct (premise_loop_sound _ _ _ _ _ _ Ha0 Hb) as [Hones Hbase].
  destruct (premise_loop_sound _ _ _ _ _ _ Ha Hm) as [_ Hprem].
  exists x. split.
  - apply lookup_lt_Some in Hones. unfold ones in Hones.
    by rewrite length_replicate in Hones.
  - intros i v Hget. apply dict_get_elem_of in Hget.
    destruct (Hbase i v Hget) as (b & Hentry & ->%Z.eqb_eq).
    destruct (Hprem i v Hget) as (b' & Hentry' & Hcmp).
    assert (b' = v) as -> by congruence.
    exists v. split; [done|]. split; [done|].
    destruct (String.eqb _ _); lia.
Qed.

Lemma any_subsumes_false self r1 rules :
  any_subsumes self r1 rules = Ok false →
  ∀ r2, r2 ∈ rules → rule_eqb r2 r1 = false → subsumes self r1 r2 = Ok false.
Proof.
  induction rules as [|r rules IH]; intros H r2 Hin Hne; simpl in H.
  - by apply elem_of_nil in Hin.
  - apply elem_of_cons in Hin as [->|Hin].
    + rewrite Hne in H. simpl in H. bind_inv H. by destruct a.
    + destruct (rule_eqb r r1); simpl in H; [by apply IH|].
      bind_inv H. destruct a; [done | by apply IH].
Qed.

(** The rules kept by the minimality filter are rules of the input that no
    other rule of the input subsumes. *)
Lemma minimal_loop_spec self rules todo minimal_rules res :
  minimal_loop self rules todo minimal_rules = Ok res →
  ∃ kept, res = minimal_rules ++ kept ∧ kept `sublist_of` todo ∧
          ∀ r1, r1 ∈ kept → any_subsumes self r1 rules = Ok false.
Proof.
  revert minimal_rules. induction todo as [|r1 todo IH]; intros acc H; simpl in H.
  - injection H as <-. exists []. rewrite app_nil_r. split; [done|]. split; [done|].
    intros r Hr. by apply elem_of_nil in Hr.
  - bind_inv H. destruct (IH _ H) as (kept & -> & Hsub & Hkept). destruct a.
    + exists kept. split; [done|]. split; [by apply sublist_cons|done].
    + exists (r1 :: kept). rewrite <- app_assoc. split; [done|].
      split; [by apply sublist_skip|].
      intros r [->|Hr]%elem_of_cons; auto.
Qed.

Section RuleProperties.

Variable fmt_2f : pyfloat → string.

Lemma rule_step_inv c criteria t kind idx st st' :
  rule_step fmt_2f (Fit c) c criteria t kind idx st = Ok st' →
  rules_inv c st → rules_inv c st'.
Proof.
  unfold rule_step. intros H (Hrob & Hseen & Hnd).
  bind_inv H. bind_inv H. bind_inv H. bind_inv H.
  case_bool_decide as Hfresh; [|by injection H as <-].
  bind_inv H. injection H as <-. destruct a3; unfold rules_inv; simpl.
  - split; [|split].
    + apply Forall_app. split; [done|]. by constructor.
    + intros r [Hr|Hr]%elem_of_app.
      * apply elem_of_union_l. auto.
      * apply list_elem_of_singleton in Hr as ->. simpl.
        apply elem_of_union_r. by apply elem_of_singleton.
    + rewrite fmap_app. apply NoDup_app. split; [done|]. split.
      * intros d Hd [->|Hin]%elem_of_cons; [|by apply elem_of_nil in Hin].
        apply list_elem_of_fmap in Hd as (r & Hdr & Hr). simpl in Hdr.
        apply Hfresh. rewrite Hdr. auto.
      * simpl. apply NoDup_singleton.
  - split; [done|]. split; [|done].
    intros r Hr. apply elem_of_union_l. auto.
Qed.

Lemma rule_loop_inv c criteria t kind indices st st' :
  rule_loop fmt_2f (Fit c) c criteria t kind indices st = Ok st' →
  rules_inv c st → rules_inv c st'.
Proof.
  revert st. induction indices as [|idx indices IH]; intros st H Hinv; simpl in H.
  - by injection H as <-.
  - bind_inv H. eauto using rule_step_inv.
Qed.

(** The rules before the minimality filter, and what is returned. *)
Lemma induce_decision_rules_inv c criteria_arg t minimal rs :
  induce_decision_rules fmt_2f (Fit c) criteria_arg t minimal = Ok rs →
  ∃ rules,
    Forall (λ r, is_robust (Fit c) r = Ok true) rules ∧
    NoDup (desc <$> rules) ∧
    rs `sublist_of` rules ∧
    (minimal = true → ∀ r1, r1 ∈ rs → any_subsumes (Fit c) r1 rules = Ok false).
Proof.
  unfold induce_decision_rules. simpl. intros H.
  bind_inv H. bind_inv H. bind_inv H. bind_inv H.
  assert (rules_inv c (∅, [])) as Hinit.
  { split; [constructor|]. split; [|constructor].
    intros r Hr. by apply elem_of_nil in Hr. }
  pose proof (rule_loop_inv _ _ _ _ _ _ _ Ha1 Hinit) as Hinv1.
  pose proof (rule_loop_inv _ _ _ _ _ _ _ Ha2 Hinv1) as (Hrob & _ & Hnd).
  exists a2.2. split; [done|]. split; [done|].
  destruct minimal.
  - apply minimal_loop_spec in H as (kept & -> & Hsub & Hkept).
    split; [done|]. intros _. exact Hkept.
  - injection H as <-. split; [done|]. intros [=].
Qed.

End RuleProperties.

Lemma profile_weaker_true bad (p1 p2 : dict) :
  (∀ k v2 v1, dict_get p2 k = Some v2 → dict_get p1 k = Some v1 → bad v2 v1 = false) →
  profile_weaker bad p1 p2 = true.
Proof.
  intros H. unfold profile_weaker. apply forallb_forall. intros k _.
  destruct (dict_get p2 k) as [v2|] eqn:H2; [|done].
  destruct (dict_get p1 k) as [v1|] eqn:H1; [|done].
  by rewrite (H k v2 v1 H2 H1).
Qed.

(** C7. Every rule returned by [induce_decision_rules] is matched by some
    object of the objective matrix exactly: the object's value equals the
    profile value on every profiled criterion (and so satisfies the
    premise). *)
Theorem returned_rules_are_robust fmt_2f c criteria_arg t minimal rs r :
  induce_decision_rules fmt_2f (Fit c) criteria_arg t minimal = Ok rs →
  r ∈ rs →
  ∃ x, x < N c ∧
    ∀ i v, dict_get (profile r) i = Some v →
      ∃ a, entry (F_pareto c) x i = Ok a ∧ a = v ∧
           (if String.eqb (direction c) "up" then (a >= v)%Z else (a <= v)%Z).
Proof.
  intros H Hr.
  apply induce_decision_rules_inv in H as (rules & Hrob & _ & Hsub & _).
  apply is_robust_sound.
  apply (proj1 (Forall_forall _ _) Hrob).
  by eapply elem_of_sublist.
Qed.

(** C6. With [minimal=True], no returned rule is subsumed by another
    returned rule: for two rules at different positions of the returned
    list with the same conclusion, it is not the case that the second
    uses a subset of the first's criteria with, for direction "up",
    [profile2[k] ≤ profile1[k]] on each of its criteria (with [≥] for
    "down"). *)
Theorem minimal_rules_not_subsumed fmt_2f c criteria_arg t rs i j r1 r2 :
  induce_decision_rules fmt_2f (Fit c) criteria_arg t true = Ok rs →
  i ≠ j → rs !! i = Some r1 → rs !! j = Some r2 →
  concl r1 = concl r2 →
  ¬ (dict_keys (profile r2) ⊆ dict_keys (profile r1) ∧
     ∀ k v2 v1,
       dict_get (profile r2) k = Some v2 → dict_get (profile r1) k = Some v1 →
       (direction c = "up" → (v2 <= v1)%Z) ∧ (direction c = "down" → (v2 >= v1)%Z)).
Proof.
  intros H Hij Hi Hj Hconcl [Hkeys Hvals].
  apply induce_decision_rules_inv in H as (rules & _ & Hnd & Hsub & Hmin).
  specialize (Hmin eq_refl).
  assert (desc r2 ≠ desc r1) as Hdesc.
  { intros Heq. apply Hij.
    eapply (NoDup_lookup (desc <$> rs)).
    - eapply sublist_NoDup; [exact Hnd|]. by apply fmap_sublist.
    - rewrite list_lookup_fmap, Hi. reflexivity.
    - rewrite list_lookup_fmap, Hj. simpl. by rewrite Heq. }
  assert (rule_eqb r2 r1 = false) as Hne.
  { unfold rule_eqb. apply String.eqb_neq in Hdesc. rewrite Hdesc. apply andb_false_r. }
  assert (subsumes (Fit c) r1 r2 = Ok false) as Hs.
  { eapply any_subsumes_false; [| |exact Hne].
    - apply Hmin. by eapply list_elem_of_lookup_2.
    - eapply elem_of_sublist; [|exact Hsub]. by eapply list_elem_of_lookup_2. }
  unfold subsumes in Hs. simpl in Hs.
  rewrite (proj2 (String.eqb_eq _ _) Hconcl) in Hs. simpl in Hs.
  rewrite bool_decide_eq_true_2 in Hs by done. simpl in Hs.
  destruct (String.eqb (direction c) "up") eqn:Hup.
  - apply String.eqb_eq in Hup.
    rewrite profile_weaker_true in Hs; [done|].
    intros k v2 v1 H2 H1. destruct (Hvals k v2 v1 H2 H1) as [Hle _].
    specialize (Hle Hup). lia.
  - destruct (String.eqb (direction c) "down") eqn:Hdown; [|done].
    apply String.eqb_eq in Hdown.
    rewrite profile_weaker_true in Hs; [done|].
    intros k v2 v1 H2 H1. destruct (Hvals k v2 v1 H2 H1) as [_ Hge].
    specialize (Hge Hdown). lia.
Qed.

(** ** Combinations *)

Lemma elem_of_combinations {A} (l : list A) r S :
  S ∈ combinations l r ↔ S `sublist_of` l ∧ length S = r.
Proof.
  revert r S. induction l as [|x l IH]; intros r S.
  - rewrite sublist_nil_r. destruct r as [|r]; simpl.
    + rewrite list_elem_of_singleton. split; [by intros -> | by intros [-> _]].
    + split; [intros H; by apply elem_of_nil in H | by intros [-> ?]].
  - destruct r as [|r]; simpl.
    + rewrite list_elem_of_singleton. split.
      * intros ->. split; [apply sublist_nil_l | done].
      * intros [_ H]. by apply nil_length_inv.
    + rewrite elem_of_app, list_elem_of_fmap, sublist_cons_r. split.
      * intros [(S' & -> & HS')|HS].
        -- apply IH in HS' as [Hsub <-]. split; [right; eauto | done].
        -- apply IH in HS as [Hsub Hlen]. split; [by left | done].
      * intros [[Hsub|(S' & -> & Hsub)] Hlen].
        -- right. apply IH. done.
        -- left. exists S'. split; [done|]. apply IH. split; [done|].
           simpl in Hlen. lia.
Qed.

Lemma combinations_gt {A} (l : list A) r : length l < r → combinations l r = [].
Proof.
  revert r. induction l as [|x l IH]; intros [|r] Hr; simpl in *; try lia; [done|].
  rewrite (IH r), (IH (S r)) by lia. done.
Qed.

Lemma combinations_full {A} (l : list A) : combinations l (length l) = [l].
Proof.
  induction l as [|x l IH]; [done|]. simpl.
  rewrite IH, combinations_gt by lia. done.
Qed.

(** ** Reduct search *)

Lemma issubset_true (red subset : list nat) : issubset red subset = true ↔ red ⊆ subset.
Proof.
  unfold issubset, pyset. rewrite bool_decide_eq_true. split.
  - intros H i Hi. apply (elem_of_list_to_set (C:=gset nat)), H.
    by apply elem_of_list_to_set.
  - intros H i Hi. apply elem_of_list_to_set, H.
    by apply (elem_of_list_to_set (C:=gset nat)).
Qed.

Lemma existsb_issubset_false (reducts : list (list nat)) subset :
  existsb (λ red, issubset red subset) reducts = false →
  ∀ red, red ∈ reducts → ¬ red ⊆ subset.
Proof.
  intros H red Hred Hsub.
  assert (existsb (λ red, issubset red subset) reducts = true) as Ht; [|congruence].
  apply existsb_exists. exists red. split; [by apply list_elem_of_In|].
  by apply issubset_true.
Qed.

Lemma no_earlier_subset_snoc reds S :
  no_earlier_subset reds → (∀ red, red ∈ reds → ¬ red ⊆ S) →
  no_earlier_subset (reds ++ [S]).
Proof.
  intros Hreds HS i j Si Sj Hij Hi Hj.
  destruct (decide (j < length reds)) as [Hlt|Hge].
  - rewrite lookup_app_l in Hi by lia. rewrite lookup_app_l in Hj by lia.
    exact (Hreds i j Si Sj Hij Hi Hj).
  - assert (j = length reds) as ->.
    { apply lookup_lt_Some in Hj. rewrite length_app in Hj. simpl in Hj. lia. }
    rewrite lookup_app_l in Hi by lia.
    rewrite lookup_app_r, Nat.sub_diag in Hj by lia. injection Hj as <-.
    apply HS. by eapply list_elem_of_lookup_2.
Qed.

Lemma accepted_cons c full S subsets reducts :
  accepted c full (S :: subsets) reducts
  = accepted c full subsets
      (if Qeq_bool (quality_of c S) full
          && negb (existsb (λ red, issubset red S) reducts)
       then reducts ++ [S] else reducts).
Proof. reflexivity. Qed.

(** The pass only appends subsets of full quality. *)
Lemma accepted_app c full subsets reducts :
  ∃ added, accepted c full subsets reducts = reducts ++ added ∧
           Forall (λ S, S ∈ subsets ∧ Qeq_bool (quality_of c S) full = true) added.
Proof.
  revert reducts. induction subsets as [|S subsets IH]; intros reducts.
  - exists []. by rewrite app_nil_r.
  - rewrite accepted_cons.
    destruct (Qeq_bool (quality_of c S) full) eqn:Hq; simpl;
      [destruct (existsb _ reducts); simpl|].
    + destruct (IH reducts) as (added & -> & Hadded). exists added. split; [done|].
      eapply Forall_impl; [exact Hadded|]. intros S' [? ?]. split; [by right|done].
    + destruct (IH (reducts ++ [S])) as (added & -> & Hadded).
      exists (S :: added). rewrite <- app_assoc. split; [done|].
      constructor; [split; [by left|done]|].
      eapply Forall_impl; [exact Hadded|]. intros S' [? ?]. split; [by right|done].
    + destruct (IH reducts) as (added & -> & Hadded). exists added. split; [done|].
      eapply Forall_impl; [exact Hadded|]. intros S' [? ?]. split; [by right|done].
Qed.

Lemma accepted_no_earlier_subset c full subsets reducts :
  no_earlier_subset reducts → no_earlier_subset (accepted c full subsets reducts).
Proof.
  revert reducts. induction subsets as [|S subsets IH]; intros reducts Hreds; [done|].
  rewrite accepted_cons.
  destruct (Qeq_bool (quality_of c S) full); simpl; [|by apply IH].
  destruct (existsb _ reducts) eqn:Hex; simpl; [by apply IH|].
  apply IH, no_earlier_subset_snoc; [done|].
  by apply existsb_issubset_false.
Qed.

Lemma accepted_nonempty c full subsets reducts S :
  S ∈ subsets → Qeq_bool (quality_of c S) full = true →
  accepted c full subsets reducts ≠ [].
Proof.
  assert (∀ subsets reducts, reducts ≠ [] → accepted c full subsets reducts ≠ [])
    as Hkeep.
  { intros subsets' reducts' Hne.
    destruct (accepted_app c full subsets' reducts') as (added & -> & _).
    by destruct reducts'. }
  revert reducts. induction subsets as [|S' subsets IH]; intros reducts HS Hq.
  - by apply elem_of_nil in HS.
  - rewrite accepted_cons. apply elem_of_cons in HS as [<-|HS].
    + rewrite Hq. simpl. destruct (existsb _ reducts) eqn:Hex; simpl.
      * apply Hkeep. intros ->. discriminate Hex.
      * apply Hkeep. by destruct reducts.
    + by apply IH.
Qed.

Lemma find_reducts_subsets_closed c n full subsets reducts :
  well_formed c n → Forall (in_range n) subsets →
  find_reducts_subsets (Fit c) full subsets reducts = Ok (accepted c full subsets reducts).
Proof.
  intros Hwf Hsubsets. revert reducts.
  induction Hsubsets as [|S subsets HS _ IH]; intros reducts; [done|].
  rewrite accepted_cons. simpl.
  rewrite (quality_closed c n S Hwf HS). simpl.
  destruct (Qeq_bool (quality_of c S) full); simpl; [|apply IH].
  destruct (existsb _ reducts); simpl; apply IH.
Qed.

Lemma in_range_combinations c n r :
  in_range n (criteria c) → Forall (in_range n) (combinations (criteria c) r).
Proof.
  intros Hcrit. apply Forall_forall. intros S [Hsub _]%elem_of_combinations.
  eapply in_range_subseteq; [|exact Hcrit]. by apply sublist_subseteq.
Qed.

(** The loop over sizes stops at the first size with an accepted subset. *)
Lemma find_reducts_sizes_seq c n full len a :
  well_formed c n → in_range n (criteria c) →
  ∃ reducts,
    find_reducts_sizes (Fit c) c full (seq a len) [] = Ok reducts ∧
    ((reducts = [] ∧
      ∀ r, a ≤ r < a + len → accepted c full (combinations (criteria c) r) [] = []) ∨
     (∃ r, a ≤ r < a + len ∧
        (∀ r', a ≤ r' < r → accepted c full (combinations (criteria c) r') [] = []) ∧
        reducts = accepted c full (combinations (criteria c) r) [] ∧ reducts ≠ [])).
Proof.
  intros Hwf Hcrit. revert a. induction len as [|len IH]; intros a; simpl.
  - exists []. split; [done|]. left. split; [done|]. intros; lia.
  - rewrite (find_reducts_subsets_closed c n) by auto using in_range_combinations.
    simpl. destruct (accepted c full (combinations (criteria c) a) []) as [|S reds] eqn:Ha.
    + destruct (IH (S a)) as (reducts & Hloop & Hspec). exists reducts.
      split; [done|]. destruct Hspec as [[-> Hnone]|(r & Hr & Hbefore & -> & Hne)].
      * left. split; [done|]. intros r Hr.
        destruct (decide (r = a)) as [->|]; [done | apply Hnone; lia].
      * right. exists r. split; [lia|]. split; [|done].
        intros r' Hr'. destruct (decide (r' = a)) as [->|]; [done | apply Hbefore; lia].
    + exists (S :: reds). split; [done|]. right. exists a.
      split; [lia|]. split; [intros; lia|]. by rewrite Ha.
Qed.

Lemma remove_dups_sublist (l : list nat) : remove_dups l `sublist_of` l.
Proof.
  induction l as [|x l IH]; simpl; [done|].
  case_decide; [by apply sublist_cons | by apply sublist_skip].
Qed.

Lemma length_remove_dups_lt (l : list nat) :
  ¬ NoDup l → length (remove_dups l) < length l.
Proof.
  induction l as [|x l IH]; intros Hnd; simpl.
  - destruct Hnd. constructor.
  - case_decide as Hx.
    + pose proof (sublist_length _ _ (remove_dups_sublist l)). lia.
    + simpl. apply Nat.succ_lt_mono in IH; [done|].
      intros Hl. apply Hnd. by constructor.
Qed.

(** At the first size with an accepted subset, subsets of full quality
    have no repeated criterion: a repetition-free copy would have been
    accepted at a smaller size. *)
Lemma first_level_NoDup c full r S :
  (∀ r', 1 ≤ r' < r → accepted c full (combinations (criteria c) r') [] = []) →
  S ∈ combinations (criteria c) r → Qeq_bool (quality_of c S) full = true →
  NoDup S.
Proof.
  intros Hbefore [Hsub Hlen]%elem_of_combinations Hq.
  destruct (decide (NoDup S)) as [|Hnd]; [done|]. exfalso.
  pose proof (length_remove_dups_lt S Hnd) as Hlt.
  assert (remove_dups S ≠ []) as Hne.
  { destruct S as [|x S]; [destruct Hnd; constructor|].
    intros Hnil. assert (x ∈ remove_dups (x :: S)) as Hx.
    { apply elem_of_remove_dups. by left. }
    rewrite Hnil in Hx. by apply elem_of_nil in Hx. }
  apply (accepted_nonempty c full (combinations (criteria c) (length (remove_dups S)))
           [] (remove_dups S)).
  - apply elem_of_combinations. split; [|done].
    etrans; [apply remove_dups_sublist | exact Hsub].
  - rewrite (quality_of_set c (remove_dups S) S); [done| |];
      intros i Hi; by apply elem_of_remove_dups.
  - apply Hbefore. destruct (remove_dups S); [done|]. simpl in *. lia.
Qed.

Lemma no_subset_between (reds : list (list nat)) r :
  no_earlier_subset reds →
  (∀ S, S ∈ reds → NoDup S ∧ length S = r) →
  ∀ i j Si Sj, i ≠ j → reds !! i = Some Si → reds !! j = Some Sj → ¬ Si ⊆ Sj.
Proof.
  intros Hfwd Hshape i j Si Sj Hij Hi Hj Hsub.
  destruct (decide (i < j)) as [Hlt|Hge]; [exact (Hfwd i j Si Sj Hlt Hi Hj Hsub)|].
  destruct (Hshape Si) as [Hndi Hli]; [by eapply list_elem_of_lookup_2|].
  destruct (Hshape Sj) as [Hndj Hlj]; [by eapply list_elem_of_lookup_2|].
  assert (Si ≡ₚ Sj) as Hperm.
  { apply submseteq_length_Permutation; [by apply NoDup_submseteq | lia]. }
  apply (Hfwd j i Sj Si); [lia|done|done|].
  intros x Hx. by rewrite Hperm.
Qed.

(** [find_reducts] in closed form: the subsets accepted at the first size
    that has one, or the full criteria set when no size has any. *)
Lemma find_reducts_closed c n :
  well_formed c n → in_range n (criteria c) →
  ∃ reducts,
    find_reducts (Fit c) = Ok reducts ∧
    (reducts = [criteria c] ∨
     ∃ r, 1 ≤ r < 1 + length (criteria c) ∧
       (∀ r', 1 ≤ r' < r →
          accepted c (quality_of c (criteria c)) (combinations (criteria c) r') [] = []) ∧
       reducts = accepted c (quality_of c (criteria c)) (combinations (criteria c) r) [] ∧
       reducts ≠ []).
Proof.
  intros Hwf Hcrit.
  destruct (find_reducts_sizes_seq c n (quality_of c (criteria c))
              (length (criteria c)) 1 Hwf Hcrit) as (reds & Hloop & Hspec).
  exists (if decide (length reds = 0) then [criteria c] else reds). split.
  - unfold find_reducts. simpl.
    rewrite (quality_closed c n _ Hwf Hcrit). simpl. rewrite Hloop. simpl.
    by destruct (decide _).
  - destruct Hspec as [[-> _]|(r & Hr & Hbefore & Hreds & Hne)]; [by left|].
    right. exists r. rewrite decide_False by (by destruct reds). done.
Qed.

Lemma find_reducts_nonempty c n :
  well_formed c n → in_range n (criteria c) →
  ∃ reducts, find_reducts (Fit c) = Ok reducts ∧ reducts ≠ [].
Proof.
  intros Hwf Hcrit.
  destruct (find_reducts_closed c n Hwf Hcrit) as (reducts & Hfind & Hspec).
  exists reducts. split; [done|].
  destruct Hspec as [->|(r & _ & _ & _ & Hne)]; done.
Qed.

(** C2. On a fitted engine, [find_reducts()] returns a non-empty list;
    every returned subset has the quality of the full criteria set; no
    returned subset is included in another returned subset; and when the
    criteria are pairwise distinct and no non-empty proper subset keeps
    the full quality, the full criteria set is the only reduct returned. *)
Theorem find_reducts_spec c n :
  well_formed c n → in_range n (criteria c) →
  ∃ reducts,
    find_reducts (Fit c) = Ok reducts ∧
    reducts ≠ [] ∧
    (∀ S, S ∈ reducts →
       ∃ q qf, quality (Fit c) S = Ok q ∧ quality (Fit c) (criteria c) = Ok qf ∧
               (q == qf)%Q) ∧
    (∀ i j Si Sj, i ≠ j → reducts !! i = Some Si → reducts !! j = Some Sj → ¬ Si ⊆ Sj) ∧
    (NoDup (criteria c) →
     (∀ S, S ≠ [] → S ⊆ criteria c → ¬ criteria c ⊆ S →
        ∀ q qf, quality (Fit c) S = Ok q → quality (Fit c) (criteria c) = Ok qf →
                ¬ (q == qf)%Q) →
     reducts = [criteria c]).
Proof.
  intros Hwf Hcrit.
  pose proof (quality_closed c n _ Hwf Hcrit) as Hfull.
  destruct (find_reducts_closed c n Hwf Hcrit) as (reds & Hfind & Hspec).
  set (full := quality_of c (criteria c)) in *.
  exists reds. split; [done|]. clear Hfind.
  destruct Hspec as [->|(r & Hr & Hbefore & Hreds & Hne)].
  - (* no size has an accepted subset: the full set is returned *)
    split; [done|]. split; [|split; [|done]].
    + intros S ->%list_elem_of_singleton. exists full, full. by split.
    + intros i j Si Sj Hij Hi Hj.
      apply lookup_lt_Some in Hi. apply lookup_lt_Some in Hj. simpl in *. lia.
  - destruct (accepted_app c full (combinations (criteria c) r) [])
      as (added & Hadded & Hall).
    rewrite <- Hreds in Hadded. simpl in Hadded. subst added.
    rewrite Forall_forall in Hall.
    split; [done|]. split; [|split].
    + intros S [HS Hq]%Hall. exists (quality_of c S), full.
      split; [|split; [done | by apply Qeq_bool_iff]].
      apply (quality_closed c n); [done|].
      apply elem_of_combinations in HS as [Hsub _].
      eapply in_range_subseteq; [|exact Hcrit]. by apply sublist_subseteq.
    + apply (no_subset_between reds r).
      * rewrite Hreds. apply accepted_no_earlier_subset.
        intros i j Si Sj _ Hi. done.
      * intros S [HS Hq]%Hall. split.
        -- by eapply first_level_NoDup.
        -- by apply elem_of_combinations in HS as [_ ?].
    + intros Hnd Hno.
      assert (r = length (criteria c)) as ->.
      { destruct reds as [|S reds']; [done|].
        destruct (Hall S) as [HS Hq]; [by left|].
        apply elem_of_combinations in HS as [Hsub Hlen].
        destruct (decide (r = length (criteria c))) as [|Hneq]; [done|]. exfalso.
        apply (Hno S) with (q := quality_of c S) (qf := full).
        - destruct S; [simpl in Hlen; lia | done].
        - by apply sublist_subseteq.
        - intros Hsup.
          pose proof (submseteq_length _ _ (NoDup_submseteq _ _ Hnd Hsup)). lia.
        - apply (quality_closed c n); [done|].
          eapply in_range_subseteq; [|exact Hcrit]. by apply sublist_subseteq.
        - done.
        - by apply Qeq_bool_iff. }
      rewrite Hreds, combinations_full in *. unfold accepted in *. simpl in *.
      by destruct (Qeq_bool (quality_of c (criteria c)) full).
Qed.

(** ** Core *)

Lemma elem_of_foldl_inter (s : gset nat) (reds : list (list nat)) i :
  i ∈ foldl (λ core_set red, core_set ∩ pyset red) s reds
  ↔ i ∈ s ∧ ∀ red, red ∈ reds → i ∈ red.
Proof.
  revert s. induction reds as [|red reds IH]; intros s; simpl.
  - split; [intros H; split; [done|] | by intros [H _]].
    intros red Hred. by apply elem_of_nil in Hred.
  - rewrite IH, elem_of_intersection. unfold pyset. rewrite elem_of_list_to_set.
    split.
    + intros [[Hs Hred] Hreds]. split; [done|].
      intros red' [->|Hin]%elem_of_cons; auto.
    + intros [Hs Hreds]. split; [split; [done|] |].
      * apply Hreds. by left.
      * intros red' Hin. apply Hreds. by right.
Qed.

(** [core] of a non-empty list of reducts: the criteria common to all. *)
Lemma core_of_list c (reducts : list (list nat)) :
  reducts ≠ [] →
  ∃ t, core (Fit c) (Some reducts) = Ok t ∧
       ∀ i, i ∈ t ↔ ∀ red, red ∈ reducts → i ∈ red.
Proof.
  intros Hne. destruct reducts as [|red0 reds]; [done|].
  eexists. split; [reflexivity|].
  intros i. rewrite merge_sort_Permutation, elem_of_elements, elem_of_foldl_inter.
  unfold pyset. rewrite elem_of_list_to_set. split.
  - intros [H0 Hreds] red [->|Hin]%elem_of_cons; auto.
  - intros H. split; [apply H; by left|]. intros red Hin. apply H. by right.
Qed.

(** C8. On a fitted engine, for a non-empty list of reducts,
    [core(reducts)] is the intersection of the given reducts; in
    particular it is contained in each of them. *)
Theorem core_is_intersection c (reducts : list (list nat)) :
  reducts ≠ [] →
  ∃ t, core (Fit c) (Some reducts) = Ok t ∧
       (∀ i, i ∈ t ↔ ∀ red, red ∈ reducts → i ∈ red) ∧
       (∀ red, red ∈ reducts → t ⊆ red).
Proof.
  intros Hne. destruct (core_of_list c reducts Hne) as (t & Hcore & Hspec).
  exists t. split; [done|]. split; [done|].
  intros red Hred i Hi. by apply (proj1 (Hspec i) Hi).
Qed.

(** [core] treats an empty list of reducts like an omitted argument. *)
Lemma core_empty_list_default self : core self (Some []) = core self None.
Proof. reflexivity. Qed.

Lemma core_fallback c (reducts : list (list nat)) :
  find_reducts (Fit c) = Ok reducts → reducts ≠ [] →
  core (Fit c) None = core (Fit c) (Some reducts).
Proof.
  intros Hfind Hne. unfold core. simpl. rewrite Hfind. simpl. by destruct reducts.
Qed.

(** C3. On the scenario engine [core([])] returns [(0,)] and not the
    empty tuple: the empty list is falsy, so [reducts or
    self.find_reducts()] replaces it by the reducts found, and the guard
    [if not reducts: return ()] that follows is not reached. *)
Example core_empty_list_scenario : core (Fit scenario) (Some []) = Ok [0].
Proof. vm_compute. reflexivity. Qed.

(** On the scenario engine [core([])] is not the empty tuple. *)
Lemma core_empty_list_counterexample : ¬ (core (Fit scenario) (Some []) = Ok []).
Proof. vm_compute. discriminate. Qed.

(** The same happens on every fitted engine: the guard for an empty
    list is never reached from a caller's [[]], since [find_reducts]
    returns a non-empty list; [core([])] is [core()]. *)
Lemma core_empty_list_falls_back c n :
  well_formed c n → in_range n (criteria c) →
  ∃ reducts t,
    find_reducts (Fit c) = Ok reducts ∧
    core (Fit c) (Some []) = Ok t ∧ core (Fit c) None = Ok t ∧
    ∀ i, i ∈ t ↔ ∀ red, red ∈ reducts → i ∈ red.
Proof.
  intros Hwf Hcrit.
  destruct (find_reducts_nonempty c n Hwf Hcrit) as (reducts & Hfind & Hne).
  destruct (core_of_list c reducts Hne) as (t & Hcore & Hspec).
  exists reducts, t. rewrite core_empty_list_default, (core_fallback c reducts Hfind Hne).
  done.
Qed.

(** ** Rule induction returns *)

Lemma where_from_bound s mask : Forall (λ i, s ≤ i < s + length mask) (where_from s mask).
Proof.
  revert s. induction mask as [|b mask IH]; intros s; simpl; [constructor|].
  apply Forall_app. split.
  - destruct b; repeat constructor; lia.
  - eapply Forall_impl; [apply IH|]. simpl. intros; lia.
Qed.

Lemma np_where_bound mask : Forall (λ i, i < length mask) (np_where mask).
Proof.
  eapply Forall_impl; [apply (where_from_bound 0)|]. simpl. intros; lia.
Qed.

Lemma dict_set_keys n (d : dict) k v :
  k < n → Forall (λ kv, kv.1 < n) d → Forall (λ kv, kv.1 < n) (dict_set d k v).
Proof.
  intros Hk. induction 1 as [|[k' v'] d Hkv Hd IH]; simpl.
  - by repeat constructor.
  - destruct (decide (k = k')); constructor; simpl; auto.
Qed.

Lemma make_profile_total c n idx P (d : dict) :
  well_formed c n → idx < N c → in_range n P → Forall (λ kv, kv.1 < n) d →
  ∃ d', make_profile (F_pareto c) idx P d = Ok d' ∧ Forall (λ kv, kv.1 < n) d'.
Proof.
  intros Hwf Hidx HP. revert d. induction HP as [|i P Hi _ IH]; intros d Hd; simpl.
  - eauto.
  - rewrite (obj_entry c n idx i Hwf Hidx Hi). simpl.
    apply IH. by apply dict_set_keys.
Qed.

Lemma length_mask_and a b : length a = length b → length (mask_and a b) = length a.
Proof. intros H. unfold mask_and. by rewrite length_zip_with_l_eq. Qed.

Lemma premise_loop_total c n cmp (items : dict) mask :
  well_formed c n → Forall (λ kv, kv.1 < n) items → length mask = N c →
  ∃ mask', premise_loop cmp (F_pareto c) items mask = Ok mask' ∧ length mask' = N c.
Proof.
  intros Hwf Hitems. revert mask.
  induction Hitems as [|[i val] items Hi _ IH]; intros mask Hlen; simpl.
  - eauto.
  - rewrite (column_ok _ n i) by (apply Hwf || done). simpl. apply IH.
    rewrite length_mask_and; [done|].
    rewrite !length_fmap, Hlen. apply Hwf.
Qed.

Lemma is_robust_total c n r :
  well_formed c n → Forall (λ kv, kv.1 < n) (profile r) → is_ok (is_robust (Fit c) r).
Proof.
  intros Hwf Hkeys. unfold is_robust. simpl.
  assert (length (ones (N c)) = N c) as Hones by apply length_replicate.
  destruct (premise_loop_total c n
              (if String.eqb (direction c) "up" then Z.geb else Z.leb)
              (profile r) _ Hwf Hkeys Hones) as (mask & -> & _).
  destruct (premise_loop_total c n Z.eqb (profile r) _ Hwf Hkeys Hones)
    as (base & -> & _).
  simpl. by eexists.
Qed.

Lemma rule_step_total fmt_2f c n P t kind idx st :
  well_formed c n → in_range n P → idx < N c →
  is_ok (rule_step fmt_2f (Fit c) c P t kind idx st).
Proof.
  intros Hwf HP Hidx. unfold rule_step.
  destruct (make_profile_total c n idx P [] Hwf Hidx HP) as (d & -> & Hd);
    [constructor|]. simpl.
  assert (length (ones (N c)) = N c) as Hones by apply length_replicate.
  destruct (premise_loop_total c n
              (if String.eqb (direction c) "up" then Z.geb else Z.leb)
              d _ Hwf Hd Hones) as (mask & -> & Hmask).
  simpl. unfold bool_index.
  rewrite decide_True by (rewrite Hmask; symmetry; apply Hwf). simpl.
  case_bool_decide; [|by eexists].
  match goal with |- is_ok (is_robust ?s ?r ≫= _) =>
    destruct (is_robust_total c n r Hwf Hd) as [b ->] end.
  simpl. by eexists.
Qed.

Lemma rule_loop_total fmt_2f c n P t kind indices st :
  well_formed c n → in_range n P → Forall (λ idx, idx < N c) indices →
  is_ok (rule_loop fmt_2f (Fit c) c P t kind indices st).
Proof.
  intros Hwf HP Hind. revert st.
  induction Hind as [|idx indices Hidx _ IH]; intros st; simpl; [by eexists|].
  destruct (rule_step_total fmt_2f c n P t kind idx st Hwf HP Hidx) as [st' ->].
  simpl. apply IH.
Qed.

Lemma subsumes_total c r1 r2 :
  direction c = "up" ∨ direction c = "down" → is_ok (subsumes (Fit c) r1 r2).
Proof.
  intros Hdir. unfold subsumes. simpl.
  destruct (negb _); [by eexists|]. destruct (negb _); [by eexists|].
  destruct Hdir as [-> | ->]; simpl; by eexists.
Qed.

Lemma any_subsumes_total c r1 rules :
  direction c = "up" ∨ direction c = "down" → is_ok (any_subsumes (Fit c) r1 rules).
Proof.
  intros Hdir. induction rules as [|r2 rules IH]; simpl; [by eexists|].
  destruct (negb _); [|done].
  destruct (subsumes_total c r1 r2 Hdir) as [[] ->]; simpl; [by eexists | done].
Qed.

Lemma minimal_loop_total c rules todo minimal_rules :
  direction c = "up" ∨ direction c = "down" →
  is_ok (minimal_loop (Fit c) rules todo minimal_rules).
Proof.
  intros Hdir. revert minimal_rules.
  induction todo as [|r1 todo IH]; intros acc; simpl; [by eexists|].
  destruct (any_subsumes_total c r1 rules Hdir) as [b ->]. simpl. apply IH.
Qed.

(** On a well-formed engine and criteria that are columns of the
    objective matrix, rule induction returns a list of rules; with
    [minimal=True] this needs the direction to be "up" or "down". *)
Lemma induce_decision_rules_total fmt_2f c n criteria_arg t minimal :
  well_formed c n → in_range n (criteria c) →
  (∀ P, criteria_arg = Some P → in_range n P) →
  (minimal = true → direction c = "up" ∨ direction c = "down") →
  is_ok (induce_decision_rules fmt_2f (Fit c) criteria_arg t minimal).
Proof.
  intros Hwf Hcrit Harg Hdir. unfold induce_decision_rules. simpl.
  set (P := match criteria_arg with Some (i :: l) => i :: l | _ => criteria c end).
  assert (in_range n P) as HP.
  { subst P. destruct criteria_arg as [[|i l]|]; auto. }
  assert ((if String.eqb (direction c) "up" then lower_approx_up (Fit c) P t
           else lower_approx_down (Fit c) P t) = Ok (lower_dir c P t)) as ->.
  { unfold lower_dir. destruct (String.eqb _ _).
    - by apply (lower_approx_up_closed c n).
    - by apply (lower_approx_down_closed c n). }
  assert ((if String.eqb (direction c) "up" then upper_approx_up (Fit c) P t
           else upper_approx_down (Fit c) P t) = Ok (upper_dir c P t)) as ->.
  { unfold upper_dir. destruct (String.eqb _ _).
    - by apply (upper_approx_up_closed c n).
    - by apply (upper_approx_down_closed c n). }
  simpl.
  assert (length (lower_dir c P t) = N c) as Hlow.
  { unfold lower_dir. destruct (String.eqb _ _); apply length_all_axis0. }
  assert (length (upper_dir c P t) = N c) as Hupp.
  { unfold upper_dir. destruct (String.eqb _ _); apply length_any_axis0. }
  destruct (rule_loop_total fmt_2f c n P t "certain" (np_where (lower_dir c P t)) (∅, [])
              Hwf HP) as [st1 ->].
  { rewrite <- Hlow. apply np_where_bound. }
  simpl.
  destruct (rule_loop_total fmt_2f c n P t "possible"
              (np_where (mask_and (upper_dir c P t) (mask_not (lower_dir c P t)))) st1
              Hwf HP) as [st2 ->].
  { eapply Forall_impl; [apply np_where_bound|]. simpl. intros idx.
    rewrite length_mask_and; [lia|]. unfold mask_not. rewrite length_fmap. lia. }
  simpl. destruct minimal; [|by eexists].
  apply minimal_loop_total. auto.
Qed.

(** ** The theorems on the example engines *)

Lemma three_by_two_well_formed : well_formed three_by_two 2.
Proof. split; [reflexivity | repeat constructor | reflexivity | reflexivity]. Qed.

Lemma quality_monotone_witness :
  well_formed three_by_two 2 ∧ in_range 2 [0; 1] ∧ [1] ⊆ [0; 1] ∧
  ∃ q q', quality (Fit three_by_two) [1] = Ok q ∧
          quality (Fit three_by_two) [0; 1] = Ok q' ∧ (q <= q')%Q.
Proof.
  assert (in_range 2 [0; 1]) as Hrange by (repeat constructor).
  assert ([1] ⊆ [0; 1]) as Hsub.
  { intros i Hi. apply list_elem_of_singleton in Hi as ->. right. left. }
  split; [exact three_by_two_well_formed|]. split; [exact Hrange|].
  split; [exact Hsub|].
  exact (quality_monotone three_by_two 2 [1] [0; 1] three_by_two_well_formed Hrange Hsub).
Defined.

Lemma find_reducts_spec_witness :
  well_formed three_by_two 2 ∧ in_range 2 (criteria three_by_two) ∧
  ∃ reducts, find_reducts (Fit three_by_two) = Ok reducts ∧ reducts ≠ [].
Proof.
  assert (in_range 2 (criteria three_by_two)) as Hrange by (repeat constructor).
  split; [exact three_by_two_well_formed|]. split; [exact Hrange|].
  destruct (find_reducts_spec three_by_two 2 three_by_two_well_formed Hrange)
    as (reducts & Hfind & Hne & _).
  exists reducts. split; [exact Hfind | exact Hne].
Defined.

Lemma cones_characterisation_witness :
  well_formed scenario 1 ∧ in_range 1 [0] ∧
  ∃ pos neg,
    positive_cone (Fit scenario) [0] = Ok pos ∧ negative_cone (Fit scenario) [0] = Ok neg ∧
    get2 pos 2 0 = Some true ∧ get2 neg 0 2 = Some true.
Proof.
  assert (in_range 1 [0]) as Hrange by (repeat constructor).
  split; [exact scenario_well_formed|]. split; [exact Hrange|].
  destruct (cones_characterisation scenario 1 [0] scenario_well_formed Hrange)
    as (pos & neg & Hpos & Hneg & _ & _ & Hspec).
  exists pos, neg. split; [exact Hpos|]. split; [exact Hneg|].
  split.
  - apply (Hspec 2 0); [simpl; lia | simpl; lia |].
    intros i Hi. apply list_elem_of_singleton in Hi as ->. vm_compute. discriminate.
  - apply (Hspec 0 2); [simpl; lia | simpl; lia |].
    intros i Hi. apply list_elem_of_singleton in Hi as ->. vm_compute. discriminate.
Defined.

Lemma approx_up_characterisation_witness :
  well_formed scenario 1 ∧ in_range 1 [0] ∧
  ∃ lower upper,
    lower_approx_up (Fit scenario) [0] 2 = Ok lower ∧
    upper_approx_up (Fit scenario) [0] 2 = Ok upper ∧
    length lower = 3 ∧ length upper = 3.
Proof.
  assert (in_range 1 [0]) as Hrange by (repeat constructor).
  split; [exact scenario_well_formed|]. split; [exact Hrange|].
  destruct (approx_up_characterisation scenario 1 [0] 2 scenario_well_formed Hrange)
    as (pos & neg & lower & upper & _ & _ & Hlower & Hupper & Hl & Hu & _).
  exists lower, upper. repeat split; assumption.
Defined.

Lemma minimal_rules_not_subsumed_witness :
  ∃ rs r1 r2,
    induce_decision_rules format_2f (Fit two_peaks) None 2 true = Ok rs ∧
    rs !! 0 = Some r1 ∧ rs !! 1 = Some r2 ∧ concl r1 = concl r2 ∧
    ¬ (dict_keys (profile r2) ⊆ dict_keys (profile r1) ∧
       ∀ k v2 v1,
         dict_get (profile r2) k = Some v2 → dict_get (profile r1) k = Some v1 →
         (direction two_peaks = "up" → (v2 <= v1)%Z) ∧
         (direction two_peaks = "down" → (v2 >= v1)%Z)).
Proof.
  eexists _, _, _.
  assert (0 ≠ 1) as Hne by lia.
  split; [vm_compute; reflexivity|].
  split; [reflexivity|]. split; [reflexivity|]. split; [reflexivity|].
  eapply (minimal_rules_not_subsumed format_2f two_peaks None 2 _ 0 1 _ _);
    [vm_compute; reflexivity | exact Hne | reflexivity | reflexivity | reflexivity].
Defined.

Lemma returned_rules_are_robust_witness :
  ∃ rs r,
    induce_decision_rules format_2f (Fit scenario) None 2 true = Ok rs ∧ r ∈ rs ∧
    ∃ x, x < N scenario ∧
      ∀ i v, dict_get (profile r) i = Some v →
        ∃ a, entry (F_pareto scenario) x i = Ok a ∧ a = v ∧
             (if String.eqb (direction scenario) "up" then (a >= v)%Z else (a <= v)%Z).
Proof.
  eexists _, _.
  split; [vm_compute; reflexivity|]. split; [left|].
  eapply (returned_rules_are_robust format_2f scenario None 2 true);
    [vm_compute; reflexivity | left].
Defined.

Lemma core_is_intersection_witness :
  [[0; 1]; [1; 2]] ≠ [] ∧
  ∃ t, core (Fit scenario) (Some [[0; 1]; [1; 2]]) = Ok t ∧ t ⊆ [0; 1] ∧ t ⊆ [1; 2].
Proof.
  assert ([[0; 1]; [1; 2]] ≠ ([] : list (list nat))) as Hne by discriminate.
  split; [exact Hne|].
  destruct (core_is_intersection scenario [[0; 1]; [1; 2]] Hne) as (t & Hcore & _ & Hsub).
  exists t. split; [exact Hcore|]. split.
  - apply Hsub. left.
  - apply Hsub. right. left.
Defined.

(** * Further properties of the engine and the decision makers *)

(** * Further properties of the engine *)

(** ** Downward approximations *)

Lemma class_down_lookup c t y :
  class_down c t !! y = Some true
  ↔ ∃ d, decision_attribute c !! y = Some d ∧ (d <= t)%Z.
Proof.
  unfold class_down. rewrite list_lookup_fmap.
  destruct (decision_attribute c !! y) as [d|]; simpl.
  - split.
    + intros [= H]. exists d. split; [done|]. lia.
    + intros (d' & [= <-] & H). f_equal. lia.
  - split; [done | intros (? & ? & _); done].
Qed.

Lemma get2_lt c n cmp P y x b :
  well_formed c n → get2 (dom_matrix cmp (F_pareto c) P) y x = Some b → y < N c.
Proof.
  intros [HN _ _ _] Hy. unfold get2 in Hy.
  destruct (dom_matrix _ _ _ !! y) eqn:Hrow; [|done].
  apply lookup_lt_Some in Hrow. rewrite length_dom_matrix in Hrow. lia.
Qed.

(** The mirror image of the upward operators: [lower_approx_down(P, t)[x]]
    is true iff every object [y] with [negative_cone(P)[y, x]] true has
    [decision_attribute[y] ≤ t], and [upper_approx_down(P, t)[x]] is true
    iff some object [y] with [positive_cone(P)[y, x]] true has
    [decision_attribute[y] ≤ t]. *)
Theorem approx_down_characterisation c n P t :
  well_formed c n → in_range n P →
  ∃ pos neg lower upper,
    positive_cone (Fit c) P = Ok pos ∧ negative_cone (Fit c) P = Ok neg ∧
    lower_approx_down (Fit c) P t = Ok lower ∧ upper_approx_down (Fit c) P t = Ok upper ∧
    length lower = N c ∧ length upper = N c ∧
    ∀ x, x < N c →
      (lower !! x = Some true
       ↔ ∀ y d, get2 neg y x = Some true → decision_attribute c !! y = Some d → (d <= t)%Z) ∧
      (upper !! x = Some true
       ↔ ∃ y d, get2 pos y x = Some true ∧ decision_attribute c !! y = Some d ∧ (d <= t)%Z).
Proof.
  intros Hwf HP. do 4 eexists.
  split; [by apply (positive_cone_closed c n)|].
  split; [by apply (negative_cone_closed c n)|].
  split; [by apply (lower_approx_down_closed c n)|].
  split; [by apply (upper_approx_down_closed c n)|].
  split; [apply length_all_axis0|]. split; [apply length_any_axis0|].
  intros x Hx.
  assert (length (class_down c t) = N c) as Hcls.
  { unfold class_down. rewrite length_fmap. apply Hwf. }
  split.
  - rewrite lower_of_spec by eauto using shaped_dom_matrix.
    split.
    + intros H y d Hy Hd. apply H, class_down_lookup in Hy as (d' & Hd' & Hle).
      congruence.
    + intros H y Hy. apply class_down_lookup.
      destruct (lookup_lt_is_Some_2 (decision_attribute c) y) as [d Hd].
      { pose proof (get2_lt c n _ _ _ _ _ Hwf Hy). destruct Hwf as [_ _ Hdec _]. lia. }
      eauto.
  - rewrite upper_of_spec by eauto using shaped_dom_matrix.
    split.
    + intros (y & Hy & Hc). apply class_down_lookup in Hc as (d & Hd & Hle). eauto.
    + intros (y & d & Hy & Hd & Hle). exists y. split; [done|].
      apply class_down_lookup. eauto.
Qed.

(** ** Lower approximation ⊆ class union ⊆ upper approximation *)

Lemma dom_matrix_diag c n cmp P x :
  well_formed c n → x < N c → (∀ v, cmp v v = true) →
  get2 (dom_matrix cmp (F_pareto c) P) x x = Some true.
Proof.
  intros Hwf Hx Hrefl. apply (dom_matrix_entry c n); [done..|]. intros i _. apply Hrefl.
Qed.

Lemma lower_of_in_class c n cmp P cls x :
  well_formed c n → length cls = N c → x < N c → (∀ v, cmp v v = true) →
  lower_of c (dom_matrix cmp (F_pareto c) P) cls !! x = Some true → cls !! x = Some true.
Proof.
  intros Hwf Hcls Hx Hrefl H.
  rewrite lower_of_spec in H by eauto using shaped_dom_matrix.
  apply H. by apply (dom_matrix_diag c n).
Qed.

Lemma class_in_upper_of c n cmp P cls x :
  well_formed c n → length cls = N c → x < N c → (∀ v, cmp v v = true) →
  cls !! x = Some true → upper_of c (dom_matrix cmp (F_pareto c) P) cls !! x = Some true.
Proof.
  intros Hwf Hcls Hx Hrefl H.
  rewrite upper_of_spec by eauto using shaped_dom_matrix.
  exists x. split; [by apply (dom_matrix_diag c n) | done].
Qed.

(** An object of the lower approximation of a class union belongs to the
    union, and an object of the union belongs to its upper approximation,
    for upward and for downward unions. *)
Theorem approximations_bracket_class c n P t x d :
  well_formed c n → in_range n P → decision_attribute c !! x = Some d →
  ∃ lower_up upper_up lower_down upper_down,
    lower_approx_up (Fit c) P t = Ok lower_up ∧
    upper_approx_up (Fit c) P t = Ok upper_up ∧
    lower_approx_down (Fit c) P t = Ok lower_down ∧
    upper_approx_down (Fit c) P t = Ok upper_down ∧
    (lower_up !! x = Some true → (d >= t)%Z) ∧
    ((d >= t)%Z → upper_up !! x = Some true) ∧
    (lower_down !! x = Some true → (d <= t)%Z) ∧
    ((d <= t)%Z → upper_down !! x = Some true).
Proof.
  intros Hwf HP Hd. do 4 eexists.
  split; [by apply (lower_approx_up_closed c n)|].
  split; [by apply (upper_approx_up_closed c n)|].
  split; [by apply (lower_approx_down_closed c n)|].
  split; [by apply (upper_approx_down_closed c n)|].
  assert (x < N c) as Hx.
  { apply lookup_lt_Some in Hd. destruct Hwf as [_ _ Hdec _]. lia. }
  assert (length (class_up c t) = N c) as Hup.
  { unfold class_up. rewrite length_fmap. apply Hwf. }
  assert (length (class_down c t) = N c) as Hdown.
  { unfold class_down. rewrite length_fmap. apply Hwf. }
  assert (∀ v, Z.geb v v = true) as Hge by (intros; lia).
  assert (∀ v, Z.leb v v = true) as Hle by (intros; lia).
  repeat split.
  - intros H. apply (lower_of_in_class c n) in H; [|done..].
    apply class_up_lookup in H as (d' & Hd' & ?). congruence.
  - intros H. apply (class_in_upper_of c n); [done..|].
    apply class_up_lookup. eauto.
  - intros H. apply (lower_of_in_class c n) in H; [|done..].
    apply class_down_lookup in H as (d' & Hd' & ?). congruence.
  - intros H. apply (class_in_upper_of c n); [done..|].
    apply class_down_lookup. eauto.
Qed.

(** ** The dominance relation *)

Lemma dominates_flip P ry rx : dominates Z.leb P ry rx = dominates Z.geb P rx ry.
Proof.
  unfold dominates. induction P as [|i P IH]; [done|]. simpl. rewrite IH.
  f_equal. rewrite Z.geb_leb. done.
Qed.

(** [negative_cone(P)] is the transpose of [positive_cone(P)], and
    dominance is transitive: if [z] dominates [y] and [y] dominates [x]
    then [z] dominates [x]. *)
Theorem cones_transpose_transitive c n P :
  well_formed c n → in_range n P →
  ∃ pos neg,
    positive_cone (Fit c) P = Ok pos ∧ negative_cone (Fit c) P = Ok neg ∧
    (∀ y x, get2 neg y x = get2 pos x y) ∧
    (∀ z y x, get2 pos z y = Some true → get2 pos y x = Some true →
              get2 pos z x = Some true).
Proof.
  intros Hwf HP. do 2 eexists.
  split; [by apply (positive_cone_closed c n)|].
  split; [by apply (negative_cone_closed c n)|].
  split.
  - intros y x. unfold get2, dom_matrix. rewrite !list_lookup_fmap.
    destruct (F_pareto c !! y) as [ry|] eqn:Hy, (F_pareto c !! x) as [rx|] eqn:Hx;
      simpl; rewrite ?list_lookup_fmap, ?Hy, ?Hx; simpl; try done.
    by rewrite dominates_flip.
  - intros z y x Hzy Hyx.
    pose proof (get2_lt c n _ _ _ _ _ Hwf Hzy) as Hz.
    pose proof (get2_lt c n _ _ _ _ _ Hwf Hyx) as Hy.
    assert (x < N c) as Hx.
    { unfold get2 in Hyx. destruct (dom_matrix _ _ _ !! y) as [row|] eqn:Hrow; [|done].
      simpl in Hyx. apply lookup_lt_Some in Hyx.
      destruct (shaped_dom_matrix c n Z.geb P Hwf) as [_ Hrows].
      rewrite Forall_forall in Hrows.
      rewrite (Hrows row) in Hyx; [done|]. by eapply list_elem_of_lookup_2. }
    rewrite (dom_matrix_entry c n) in Hzy, Hyx |- * by done.
    intros i Hi. specialize (Hzy i Hi). specialize (Hyx i Hi). lia.
Qed.

(** ** Criteria outside the objective matrix *)

Lemma column_out_of_range F n idx :
  F ≠ [] → Forall (λ row, length row = n) F → n ≤ idx → column F idx = Raise IndexError.
Proof.
  intros Hne Hrows Hidx. destruct Hrows as [|row F Hrow _]; [done|]. simpl.
  rewrite lookup_ge_None_2 by lia. done.
Qed.

Lemma cone_loop_out_of_range cmp F n P i mask :
  F ≠ [] → Forall (λ row, length row = n) F → i ∈ P → n ≤ i →
  cone_loop cmp F P mask = Raise IndexError.
Proof.
  intros Hne Hrows Hi Hge. revert mask.
  induction P as [|j P IH]; intros mask; [by apply elem_of_nil in Hi|]. simpl.
  destruct (decide (j < n)) as [Hj|Hj].
  - rewrite (column_ok F n j Hrows Hj). simpl.
    apply IH. apply elem_of_cons in Hi as [->|Hi]; [lia | done].
  - rewrite (column_out_of_range F n j) by (done || lia). done.
Qed.

Lemma well_formed_F_nonempty c n : well_formed c n → F_pareto c ≠ [].
Proof.
  intros Hwf HF. apply (well_formed_N_pos c n Hwf).
  destruct Hwf as [HN _ _ _]. by rewrite HN, HF.
Qed.

(** A criterion that is not a column of the objective matrix makes both
    cones, the four approximation operators and (when some class is at
    least 2) [quality] raise [IndexError]. *)
Theorem criterion_out_of_range c n P i t :
  well_formed c n → i ∈ P → n ≤ i →
  positive_cone (Fit c) P = Raise IndexError ∧
  negative_cone (Fit c) P = Raise IndexError ∧
  lower_approx_up (Fit c) P t = Raise IndexError ∧
  upper_approx_up (Fit c) P t = Raise IndexError ∧
  lower_approx_down (Fit c) P t = Raise IndexError ∧
  upper_approx_down (Fit c) P t = Raise IndexError ∧
  ((2 <= m c)%Z → quality (Fit c) P = Raise IndexError).
Proof.
  intros Hwf Hi Hge.
  pose proof (well_formed_F_nonempty c n Hwf) as Hne.
  destruct Hwf as [HN Hrows Hdec Hm].
  assert (positive_cone (Fit c) P = Raise IndexError) as Hpos.
  { unfold positive_cone. simpl. by apply (cone_loop_out_of_range _ _ n P i). }
  assert (negative_cone (Fit c) P = Raise IndexError) as Hneg.
  { unfold negative_cone. simpl. by apply (cone_loop_out_of_range _ _ n P i). }
  assert (lower_approx_up (Fit c) P t = Raise IndexError) as Hlu.
  { unfold lower_approx_up. simpl. by rewrite Hpos. }
  assert (lower_approx_down (Fit c) P t = Raise IndexError) as Hld.
  { unfold lower_approx_down. simpl. by rewrite Hneg. }
  do 6 (split; [first [done | unfold upper_approx_up; simpl; by rewrite Hneg
                      | unfold upper_approx_down; simpl; by rewrite Hpos]|]).
  intros Hm2. unfold quality. simpl.
  rewrite seqZ_cons by lia. simpl.
  destruct (String.eqb (direction c) "up").
  - unfold lower_approx_up. simpl. by rewrite Hpos.
  - unfold lower_approx_down. simpl. by rewrite Hneg.
Qed.

(** ** Range and degenerate cases of [quality] *)

Lemma length_mask_and_le a b : length (mask_and a b) ≤ length a.
Proof. unfold mask_and. rewrite length_zip_with. lia. Qed.

Lemma length_consistent_of_le c P ts mask :
  length (consistent_of c P ts mask) ≤ length mask.
Proof.
  unfold consistent_of. revert mask. induction ts as [|t ts IH]; intros mask; [done|].
  simpl. etrans; [apply IH|]. apply length_mask_and_le.
Qed.

(** [quality(P)] lies between 0 and 1. *)
Theorem quality_bounds c n P :
  well_formed c n → in_range n P →
  ∃ q, quality (Fit c) P = Ok q ∧ (0 <= q)%Q ∧ (q <= 1)%Q.
Proof.
  intros Hwf HP. exists (quality_of c P).
  split; [by apply (quality_closed c n)|].
  pose proof (well_formed_N_pos c n Hwf) as HN.
  pose proof (count_true_le (consistent_of c P (seqZ 2 (m c - 1)) (ones (N c)))) as Hc.
  pose proof (length_consistent_of_le c P (seqZ 2 (m c - 1)) (ones (N c))) as Hl.
  assert (length (ones (N c)) = N c) as Hones by apply length_replicate.
  unfold quality_of, Qle. cbn [Qnum Qden]. split; [lia|].
  rewrite <- (positive_nat_Z (Pos.of_nat (N c))), Nat2Pos.id by done. lia.
Qed.

Lemma count_true_ones n : count_true (ones n) = n.
Proof.
  unfold count_true, ones. induction n as [|n IH]; [done|]. cbn [replicate].
  rewrite filter_cons_True by done. simpl. by rewrite IH.
Qed.

(** When no class exceeds 1 the loop over thresholds is empty: [quality]
    never reads the criteria and returns 1 for every criteria tuple, also
    for indices outside the matrix; on an objective matrix without rows the
    final division raises [ZeroDivisionError]. *)
Theorem quality_without_thresholds c P :
  (m c < 2)%Z →
  (N c ≠ 0 → ∃ q, quality (Fit c) P = Ok q ∧ (q == 1)%Q) ∧
  (N c = 0 → quality (Fit c) P = Raise ZeroDivisionError).
Proof.
  intros Hm. unfold quality. simpl. rewrite seqZ_nil by lia. simpl. split.
  - intros HN. rewrite decide_False by done. eexists. split; [done|].
    rewrite count_true_ones. unfold Qeq. simpl. lia.
  - intros HN. by rewrite decide_True.
Qed.

(** [quality] reads the criteria tuple as a set: order and repetitions do
    not change the result. *)
Theorem quality_of_criteria_set c n (P P' : list nat) :
  well_formed c n → in_range n P → P ⊆ P' → P' ⊆ P →
  ∃ q, quality (Fit c) P = Ok q ∧ quality (Fit c) P' = Ok q.
Proof.
  intros Hwf HP H1 H2. exists (quality_of c P).
  split; [by apply (quality_closed c n)|].
  rewrite (quality_of_set c P P' H1 H2).
  apply (quality_closed c n); [done|]. by eapply in_range_subseteq.
Qed.

(** ** Directions other than "up" *)

Lemma quality_loop_direction c c' P ts mask :
  F_pareto c' = F_pareto c → decision_attribute c' = decision_attribute c →
  N c' = N c → String.eqb (direction c) "up" = String.eqb (direction c') "up" →
  quality_loop (Fit c') c' P ts mask = quality_loop (Fit c) c P ts mask.
Proof.
  intros HF Hd HN Hdir. revert mask. induction ts as [|t ts IH]; intros mask; [done|].
  simpl. rewrite <- Hdir.
  unfold lower_approx_up, upper_approx_up, lower_approx_down, upper_approx_down,
    positive_cone, negative_cone. simpl. rewrite HF, Hd, HN.
  destruct (String.eqb (direction c) "up").
  - destruct (cone_loop Z.geb _ _ _); simpl; [|done].
    destruct (broadcast_col orb _ _); simpl; [|done].
    destruct (cone_loop Z.leb _ _ _); simpl; [|done].
    destruct (broadcast_col andb _ _); simpl; [|done]. apply IH.
  - destruct (cone_loop Z.leb _ _ _); simpl; [|done].
    destruct (broadcast_col orb _ _); simpl; [|done].
    destruct (cone_loop Z.geb _ _ _); simpl; [|done].
    destruct (broadcast_col andb _ _); simpl; [|done]. apply IH.
Qed.

Lemma quality_direction c c' P :
  F_pareto c' = F_pareto c → decision_attribute c' = decision_attribute c →
  N c' = N c → m c' = m c →
  String.eqb (direction c) "up" = String.eqb (direction c') "up" →
  quality (Fit c') P = quality (Fit c) P.
Proof.
  intros HF Hd HN Hm Hdir. unfold quality. simpl.
  by rewrite (quality_loop_direction c c' P _ _ HF Hd HN Hdir), Hm, HN.
Qed.

Lemma find_reducts_subsets_direction c c' full subsets reducts :
  (∀ P, quality (Fit c') P = quality (Fit c) P) →
  find_reducts_subsets (Fit c') full subsets reducts
  = find_reducts_subsets (Fit c) full subsets reducts.
Proof.
  intros Hq. revert reducts. induction subsets as [|S subsets IH]; intros reducts; [done|].
  simpl. rewrite Hq. destruct (quality (Fit c) S) as [q|]; simpl; [|done].
  destruct (Qeq_bool q full); [destruct (negb _)|]; apply IH.
Qed.

Lemma find_reducts_sizes_direction c c' full sizes reducts :
  criteria c' = criteria c → (∀ P, quality (Fit c') P = quality (Fit c) P) →
  find_reducts_sizes (Fit c') c' full sizes reducts
  = find_reducts_sizes (Fit c) c full sizes reducts.
Proof.
  intros Hcrit Hq. revert reducts. induction sizes as [|r sizes IH]; intros reducts;
    [done|].
  simpl. rewrite Hcrit, (find_reducts_subsets_direction c c') by done.
  destruct (find_reducts_subsets (Fit c) _ _ _) as [[|S reds]|]; simpl; [apply IH|done..].
Qed.

(** A direction that is neither "up" nor "down" is not rejected by
    [quality] and [find_reducts]: they treat every direction other than
    "up" as "down". *)
Theorem other_direction_is_down c P :
  direction c ≠ "up" →
  let down := Config (F_pareto c) (decision_attribute c) (criteria c) (N c) (m c) "down" in
  quality (Fit c) P = quality (Fit down) P ∧
  find_reducts (Fit c) = find_reducts (Fit down).
Proof.
  intros Hdir down.
  assert (String.eqb (direction down) "up" = String.eqb (direction c) "up") as Heq.
  { simpl. symmetry. by apply String.eqb_neq. }
  assert (∀ P, quality (Fit c) P = quality (Fit down) P) as Hq.
  { intros P'. by apply quality_direction. }
  split; [apply Hq|].
  unfold find_reducts. simpl. rewrite Hq.
  destruct (quality (Fit down) (criteria c)) as [full|]; simpl; [|done].
  by rewrite (find_reducts_sizes_direction down c).
Qed.

(** ** Shape and minimality of the reducts *)

Lemma Qeq_bool_refl' q : Qeq_bool q q = true.
Proof. apply Qeq_bool_iff. reflexivity. Qed.

(** [find_reducts] with the size [r] of what it returns: no smaller size
    has an accepted subset, and every returned subset is a combination of
    size [r] with the full quality. *)
Lemma find_reducts_levels c n :
  well_formed c n → in_range n (criteria c) →
  ∃ reducts r,
    find_reducts (Fit c) = Ok reducts ∧ reducts ≠ [] ∧
    (∀ r', 1 ≤ r' < r →
       accepted c (quality_of c (criteria c)) (combinations (criteria c) r') [] = []) ∧
    (∀ S, S ∈ reducts →
       S ∈ combinations (criteria c) r ∧
       Qeq_bool (quality_of c S) (quality_of c (criteria c)) = true).
Proof.
  intros Hwf Hcrit.
  destruct (find_reducts_sizes_seq c n (quality_of c (criteria c))
              (length (criteria c)) 1 Hwf Hcrit) as (reds & Hloop & Hspec).
  assert (find_reducts (Fit c)
          = Ok (if decide (length reds = 0) then [criteria c] else reds)) as ->.
  { unfold find_reducts. simpl.
    rewrite (quality_closed c n _ Hwf Hcrit). simpl. rewrite Hloop. simpl.
    by destruct (decide _). }
  destruct Hspec as [[-> Hnone]|(r & Hr & Hbefore & Hreds & Hne)].
  - exists [criteria c], (length (criteria c)). simpl.
    split; [done|]. split; [done|]. split.
    + intros r' Hr'. apply Hnone. lia.
    + intros S ->%list_elem_of_singleton. split.
      * rewrite combinations_full. by left.
      * apply Qeq_bool_refl'.
  - exists reds, r. rewrite decide_False by (by destruct reds).
    split; [done|]. split; [done|]. split; [done|].
    destruct (accepted_app c (quality_of c (criteria c)) (combinations (criteria c) r) [])
      as (added & Hadded & Hall).
    rewrite <- Hreds in Hadded. simpl in Hadded. subst added.
    by rewrite Forall_forall in Hall.
Qed.

(** Every returned reduct is a subsequence of the configured criteria
    without repeated criterion, and all returned reducts have the same
    size. *)
Theorem reducts_shape c n :
  well_formed c n → in_range n (criteria c) →
  ∃ reducts r,
    find_reducts (Fit c) = Ok reducts ∧
    ∀ S, S ∈ reducts → S `sublist_of` criteria c ∧ NoDup S ∧ length S = r.
Proof.
  intros Hwf Hcrit.
  destruct (find_reducts_levels c n Hwf Hcrit) as (reducts & r & Hfind & _ & Hbefore & Hall).
  exists reducts, r. split; [done|].
  intros S [HS Hq]%Hall. pose proof HS as [Hsub Hlen]%elem_of_combinations.
  split; [done|]. split; [|done]. by eapply first_level_NoDup.
Qed.

(** A non-empty set of criteria with the full quality has at least as many
    distinct criteria as the size at which the search stopped. *)
Lemma full_quality_size c r (S' : list nat) :
  (∀ r', 1 ≤ r' < r →
     accepted c (quality_of c (criteria c)) (combinations (criteria c) r') [] = []) →
  S' ≠ [] → S' ⊆ criteria c →
  Qeq_bool (quality_of c S') (quality_of c (criteria c)) = true →
  r ≤ length (remove_dups S').
Proof.
  intros Hbefore Hne Hsub Hq.
  set (T := remove_dups (filter (λ i, i ∈ S') (criteria c))).
  assert (∀ i, i ∈ T ↔ i ∈ S') as HT.
  { intros i. unfold T. rewrite elem_of_remove_dups, list_elem_of_filter.
    split; [by intros [? _] | intros Hi; split; [done | by apply Hsub]]. }
  assert (length T ≤ length (remove_dups S')) as Hlen.
  { apply submseteq_length, NoDup_submseteq; [apply NoDup_remove_dups|].
    intros i Hi. apply elem_of_remove_dups. by apply HT. }
  destruct (decide (r ≤ length T)) as [|Hlt]; [lia|]. exfalso.
  apply (accepted_nonempty c (quality_of c (criteria c))
           (combinations (criteria c) (length T)) [] T).
  - apply elem_of_combinations. split; [|done]. unfold T.
    etrans; [apply remove_dups_sublist | apply sublist_filter].
  - rewrite (quality_of_set c T S'); [done| |]; intros i Hi; by apply HT.
  - apply Hbefore. split; [|lia].
    destruct T as [|i T'] eqn:HTeq; [|simpl; lia].
    destruct S' as [|i S'']; [done|]. exfalso.
    assert (i ∈ ([] : list nat)) as Hi by (apply HT; by left).
    by apply elem_of_nil in Hi.
Qed.

(** Every returned reduct is minimal: no non-empty proper subset of it has
    the quality of the full criteria set; and no non-empty set of
    configured criteria with the full quality has fewer distinct criteria
    than the returned reducts. *)
Theorem reducts_are_minimal c n :
  well_formed c n → in_range n (criteria c) →
  ∃ reducts qf,
    find_reducts (Fit c) = Ok reducts ∧ quality (Fit c) (criteria c) = Ok qf ∧
    ∀ S, S ∈ reducts →
      ∀ S' q, S' ≠ [] → S' ⊆ criteria c → quality (Fit c) S' = Ok q → (q == qf)%Q →
        length S ≤ length (remove_dups S') ∧ (S' ⊆ S → S ⊆ S').
Proof.
  intros Hwf Hcrit.
  destruct (find_reducts_levels c n Hwf Hcrit) as (reducts & r & Hfind & _ & Hbefore & Hall).
  exists reducts, (quality_of c (criteria c)).
  split; [done|]. split; [by apply (quality_closed c n)|].
  intros S [HS HqS]%Hall S' q Hne Hsub Hquality Hq.
  pose proof HS as [HSsub HSlen]%elem_of_combinations.
  assert (in_range n S') as HS' by (by eapply in_range_subseteq).
  rewrite (quality_closed c n S' Hwf HS') in Hquality. injection Hquality as <-.
  apply Qeq_bool_iff in Hq.
  pose proof (full_quality_size c r S' Hbefore Hne Hsub Hq) as Hsize.
  split; [lia|]. intros HS'S.
  assert (NoDup S) as Hnd by (by eapply first_level_NoDup).
  assert (remove_dups S' ≡ₚ S) as Hperm.
  { apply submseteq_length_Permutation; [|lia].
    apply NoDup_submseteq; [apply NoDup_remove_dups|].
    intros i Hi. apply HS'S. by apply elem_of_remove_dups. }
  intros i Hi. rewrite <- Hperm in Hi. by apply elem_of_remove_dups.
Qed.

(** ** The core is a sorted tuple of configured criteria *)

Lemma StronglySorted_le_lt (l : list nat) :
  StronglySorted Nat.le l → NoDup l → StronglySorted Nat.lt l.
Proof.
  induction 1 as [|x l Hl IH Hx]; intros Hnd; [constructor|].
  apply NoDup_cons in Hnd as [Hx' Hnd]. constructor; [auto|].
  rewrite Forall_forall in Hx |- *. intros y Hy. specialize (Hx y Hy).
  assert (x ≠ y) by (intros ->; done). unfold Nat.lt. lia.
Qed.

Lemma sorted_elements_strict (s : gset nat) :
  StronglySorted Nat.lt (merge_sort Nat.le (elements s)).
Proof.
  apply StronglySorted_le_lt.
  - apply (StronglySorted_merge_sort Nat.le); apply _.
  - rewrite merge_sort_Permutation. apply NoDup_elements.
Qed.

(** Whatever the argument, the tuple returned by [core] is strictly
    increasing: sorted and without repetition. *)
Theorem core_sorted c (reducts : option (list (list nat))) t :
  core (Fit c) reducts = Ok t → StronglySorted Nat.lt t.
Proof.
  unfold core. simpl. intros H. bind_inv H.
  destruct a as [|red0 reds]; injection H as <-; [constructor|].
  apply sorted_elements_strict.
Qed.

(** Called without reducts, [core] returns configured criteria only. *)
Theorem core_within_criteria c n :
  well_formed c n → in_range n (criteria c) →
  ∃ t, core (Fit c) None = Ok t ∧ t ⊆ criteria c.
Proof.
  intros Hwf Hcrit.
  destruct (find_reducts_levels c n Hwf Hcrit) as (reducts & r & Hfind & Hne & _ & Hall).
  destruct (core_of_list c reducts Hne) as (t & Hcore & Hspec).
  exists t. rewrite (core_fallback c reducts Hfind Hne). split; [done|].
  intros i Hi. destruct reducts as [|S reds]; [done|].
  destruct (Hall S) as [[Hsub _]%elem_of_combinations _]; [by left|].
  eapply sublist_subseteq; [exact Hsub|].
  apply (proj1 (Hspec i) Hi). by left.
Qed.

(** ** Profiles and premises *)

Lemma dict_set_elem_of (d : dict) k v k' v' :
  (k', v') ∈ dict_set d k v → (k', v') = (k, v) ∨ (k', v') ∈ d.
Proof.
  induction d as [|[k0 v0] d IH]; simpl.
  - intros ->%list_elem_of_singleton. by left.
  - destruct (decide (k = k0)) as [->|Hne].
    + intros [->|Hin]%elem_of_cons; [by left | right; by right].
    + intros [->|Hin]%elem_of_cons; [right; by left|].
      destruct (IH Hin) as [->|Hd]; [by left | right; by right].
Qed.

Lemma dict_set_elem_of_new (d : dict) k v : (k, v) ∈ dict_set d k v.
Proof.
  induction d as [|[k0 v0] d IH]; simpl; [by left|].
  destruct (decide (k = k0)); [by left | by right].
Qed.

(** Writing the value a key already has leaves every entry in place. *)
Lemma dict_set_elem_of_old (d : dict) k v kv :
  (∀ v0, (k, v0) ∈ d → v0 = v) → kv ∈ d → kv ∈ dict_set d k v.
Proof.
  intros Hsame. induction d as [|[k0 v0] d IH]; simpl;
    [intros Hnil; by apply elem_of_nil in Hnil|].
  intros Hin. destruct (decide (k = k0)) as [->|Hne].
  - apply elem_of_cons in Hin as [->|Hin]; [|by right].
    rewrite (Hsame v0) by (by left). by left.
  - apply elem_of_cons in Hin as [->|Hin]; [by left|]. right. apply IH; [|done].
    intros v1 Hv1. apply Hsame. by right.
Qed.

(** The profile built for object [idx]: every entry is a criterion of [P]
    (or of the initial dictionary) with the object's value, and every
    criterion of [P] has an entry. *)
Lemma make_profile_spec c n idx P (d : dict) :
  well_formed c n → idx < N c → in_range n P →
  Forall (λ kv, kv.1 < n ∧ kv.2 = obj c idx kv.1) d →
  ∃ d', make_profile (F_pareto c) idx P d = Ok d' ∧
        Forall (λ kv, kv.1 < n ∧ kv.2 = obj c idx kv.1) d' ∧
        (∀ kv, kv ∈ d' → kv ∈ d ∨ kv.1 ∈ P) ∧
        (∀ kv, kv ∈ d → kv ∈ d') ∧
        (∀ i, i ∈ P → (i, obj c idx i) ∈ d').
Proof.
  intros Hwf Hidx HP. revert d. induction HP as [|i P Hi _ IH]; intros d Hd; simpl.
  - exists d. split; [done|]. split; [done|]. split; [intros; by left|].
    split; [done|]. intros i Hi. by apply elem_of_nil in Hi.
  - rewrite (obj_entry c n idx i Hwf Hidx Hi). simpl.
    assert (∀ v0, (i, v0) ∈ d → v0 = obj c idx i) as Hsame.
    { intros v0 Hv0. rewrite Forall_forall in Hd. by destruct (Hd _ Hv0) as [_ Hv]. }
    destruct (IH (dict_set d i (obj c idx i))) as (d1 & Hd1 & Hall & Hkeys & Hold & Hin).
    { rewrite Forall_forall in Hd |- *. intros kv Hkv.
      destruct kv as [k v]. apply dict_set_elem_of in Hkv as [[= -> ->]|Hkv]; [done|].
      by apply Hd. }
    exists d1. split; [done|]. split; [done|]. split; [|split].
    + intros kv Hkv. destruct (Hkeys kv Hkv) as [Hset|HinP]; [|right; by right].
      destruct kv as [k v]. apply dict_set_elem_of in Hset as [[= -> ->]|Hkv1];
        [right; by left | by left].
    + intros kv Hkv. by apply Hold, dict_set_elem_of_old.
    + intros i1 [->|Hi1]%elem_of_cons; [|by apply Hin].
      apply Hold, dict_set_elem_of_new.
Qed.

Lemma lookup_column_obj c n i x :
  well_formed c n → x < N c →
  ((λ row, default 0%Z (row !! i)) <$> F_pareto c) !! x = Some (obj c x i).
Proof.
  intros [HN _ _ _] Hx. rewrite list_lookup_fmap.
  destruct (lookup_lt_is_Some_2 (F_pareto c) x) as [rx Hrx]; [lia|].
  rewrite Hrx. simpl. by rewrite (obj_lookup c x i rx Hrx).
Qed.

(** The premise mask in closed form: an object passes iff it passed
    before and compares to every profile value. *)
Lemma premise_loop_spec c n cmp (items : dict) mask :
  well_formed c n → Forall (λ kv, kv.1 < n) items → length mask = N c →
  ∃ mask1, premise_loop cmp (F_pareto c) items mask = Ok mask1 ∧ length mask1 = N c ∧
    ∀ x, x < N c →
      (mask1 !! x = Some true
       ↔ mask !! x = Some true ∧ ∀ kv, kv ∈ items → cmp (obj c x kv.1) kv.2 = true).
Proof.
  intros Hwf Hitems. revert mask.
  induction Hitems as [|[i val] items Hi _ IH]; intros mask Hlen; simpl.
  - exists mask. split; [done|]. split; [done|]. intros x Hx. split; [|by intros [? _]].
    intros H. split; [done|]. intros kv Hkv. by apply elem_of_nil in Hkv.
  - rewrite (column_ok _ n i) by (apply Hwf || done). simpl.
    destruct (IH (mask_and mask ((λ v, cmp v val) <$>
                                  ((λ row, default 0%Z (row !! i)) <$> F_pareto c))))
      as (mask1 & Hloop & Hlen1 & Hspec).
    { rewrite length_mask_and; [done|]. rewrite !length_fmap, Hlen. apply Hwf. }
    exists mask1. split; [done|]. split; [done|]. intros x Hx.
    rewrite (Hspec x Hx), mask_and_lookup_true, list_lookup_fmap,
      (lookup_column_obj c n i x Hwf Hx). simpl. split.
    + intros [[Hm [= Hc]] Hrest]. split; [done|].
      intros kv [->|Hkv]%elem_of_cons; [done | by apply Hrest].
    + intros [Hm Hall]. split; [split; [done|]|].
      * f_equal. apply (Hall (i, val)). by left.
      * intros kv Hkv. apply Hall. by right.
Qed.

(** ** Robustness of an object's own profile *)

(** On a rule whose profile is the profile of an object of the matrix,
    on criteria in range, [is_robust] returns [True], whatever the other
    fields of the rule are and for either direction. *)
Theorem object_rules_are_robust c n P idx :
  well_formed c n → in_range n P → idx < N c →
  ∃ profile_idx,
    make_profile (F_pareto c) idx P [] = Ok profile_idx ∧
    ∀ r, profile r = profile_idx → is_robust (Fit c) r = Ok true.
Proof.
  intros Hwf HP Hidx.
  destruct (make_profile_spec c n idx P [] Hwf Hidx HP) as (d & Hmk & Hd & _ & _ & _);
    [constructor|].
  exists d. split; [done|]. intros r Hr. unfold is_robust. simpl. rewrite Hr.
  assert (Forall (λ kv : nat * Z, kv.1 < n) d) as Hkeys.
  { eapply Forall_impl; [exact Hd|]. by intros kv [? _]. }
  assert (length (ones (N c)) = N c) as Hones by apply length_replicate.
  destruct (premise_loop_spec c n
              (if String.eqb (direction c) "up" then Z.geb else Z.leb)
              d _ Hwf Hkeys Hones) as (mask & -> & _ & Hmask).
  destruct (premise_loop_spec c n Z.eqb d _ Hwf Hkeys Hones) as (base & -> & _ & Hbase).
  simpl. f_equal. apply existsb_id_lookup. exists idx.
  assert (ones (N c) !! idx = Some true) as Hone.
  { unfold ones. by apply lookup_replicate_2. }
  rewrite Forall_forall in Hd.
  apply mask_and_lookup_true. split.
  - apply (Hbase idx Hidx). split; [done|]. intros kv Hkv.
    destruct (Hd kv Hkv) as [_ ->]. apply Z.eqb_refl.
  - apply (Hmask idx Hidx). split; [done|]. intros kv Hkv.
    destruct (Hd kv Hkv) as [_ ->]. destruct (String.eqb _ _); lia.
Qed.

(** ** Support and confidence of the induced rules *)

Lemma where_from_true s mask i :
  i ∈ where_from s mask → s ≤ i ∧ mask !! (i - s) = Some true.
Proof.
  revert s. induction mask as [|b mask IH]; intros s; simpl.
  - intros H. by apply elem_of_nil in H.
  - intros [Hb|Hrest]%elem_of_app.
    + destruct b; [|by apply elem_of_nil in Hb].
      apply list_elem_of_singleton in Hb as ->. by rewrite Nat.sub_diag.
    + destruct (IH _ Hrest) as [Hle Hi]. split; [lia|].
      replace (i - s) with (S (i - S s)) by lia. done.
Qed.

Lemma np_where_true mask i : i ∈ np_where mask → mask !! i = Some true.
Proof.
  intros [_ H]%where_from_true. by rewrite Nat.sub_0_r in H.
Qed.

Lemma count_true_pos l x : l !! x = Some true → 0 < count_true l.
Proof.
  unfold count_true. revert x. induction l as [|b l IH]; intros x Hx; [done|].
  destruct x as [|x]; simpl in Hx.
  - injection Hx as ->. rewrite filter_cons_True by done. simpl. lia.
  - rewrite filter_cons. specialize (IH x Hx). case_decide; simpl; lia.
Qed.

Lemma count_true_all l : Forall (λ b, b = true) l → count_true l = length l.
Proof.
  unfold count_true. induction 1 as [|b l Hb _ IH]; [done|].
  rewrite filter_cons_True by done. simpl. by rewrite IH.
Qed.

Lemma Zpos_of_nat n : n ≠ 0 → Z.pos (Pos.of_nat n) = Z.of_nat n.
Proof. intros Hn. by rewrite <- (positive_nat_Z (Pos.of_nat n)), Nat2Pos.id. Qed.

(** The mean of a non-empty boolean array. *)
Lemma mean_spec l :
  l ≠ [] →
  ∃ q, mean l = fl q ∧ (0 <= q)%Q ∧ (q <= 1)%Q ∧
       ((∃ x, l !! x = Some true) → (0 < q)%Q) ∧
       (Forall (λ b, b = true) l → (q == 1)%Q).
Proof.
  intros Hne. destruct l as [|b l]; [done|]. eexists. split; [reflexivity|].
  set (l' := b :: l). assert (length l' ≠ 0) as Hlen by done.
  pose proof (count_true_le l') as Hle.
  unfold Qle, Qlt, Qeq. cbn [Qnum Qden]. rewrite (Zpos_of_nat _ Hlen).
  split; [lia|]. split; [lia|]. split.
  - intros [x Hx]. pose proof (count_true_pos l' x Hx). lia.
  - intros Hall. rewrite (count_true_all l' Hall). lia.
Qed.

Lemma elem_of_bool_index (a : list Z) mask d :
  d ∈ (filter (λ p : Z * bool, p.2 = true) (zip a mask)).*1
  ↔ ∃ y, a !! y = Some d ∧ mask !! y = Some true.
Proof.
  rewrite list_elem_of_fmap. split.
  - intros ([d' b] & -> & [Hb Hin]%list_elem_of_filter). simpl in Hb. subst b.
    apply list_elem_of_lookup in Hin as [y Hy]. exists y. simpl.
    rewrite lookup_zip_with in Hy.
    destruct (a !! y) as [d0|]; [simpl in Hy|done].
    destruct (mask !! y) as [b0|]; [simpl in Hy|done]. by injection Hy as -> ->.
  - intros (y & Hd & Hm). exists (d, true). split; [done|].
    apply list_elem_of_filter. split; [done|].
    apply list_elem_of_lookup. exists y. rewrite lookup_zip_with, Hd, Hm. done.
Qed.

Section RuleSoundness.

Variable fmt_2f : pyfloat → string.

(** One step of the rule loops keeps [rule_sound], provided the object is
    in the lower approximation when the rules being built are certain. *)
Lemma rule_step_sound c n P t kind idx st st' :
  well_formed c n → in_range n P → idx < N c →
  (kind = "certain" ∨ kind = "possible") →
  (kind = "certain" → lower_dir c P t !! idx = Some true) →
  rule_step fmt_2f (Fit c) c P t kind idx st = Ok st' →
  Forall (rule_sound c) st.2 → Forall (rule_sound c) st'.2.
Proof.
  intros Hwf HP Hidx Hkind Hlower Hstep Hst. unfold rule_step in Hstep.
  destruct (make_profile_spec c n idx P [] Hwf Hidx HP)
    as (d & Hmk & Hd & _ & _ & HdP); [constructor|].
  rewrite Hmk in Hstep. simpl in Hstep.
  assert (Forall (λ kv : nat * Z, kv.1 < n) d) as Hkeys.
  { eapply Forall_impl; [exact Hd|]. by intros kv [? _]. }
  assert (length (ones (N c)) = N c) as Hones by apply length_replicate.
  set (comp := if String.eqb (direction c) "up" then Z.geb else Z.leb) in *.
  destruct (premise_loop_spec c n comp d _ Hwf Hkeys Hones)
    as (mask & Hloop & Hlen & Hmask).
  rewrite Hloop in Hstep. simpl in Hstep. unfold bool_index in Hstep.
  rewrite decide_True in Hstep by (rewrite Hlen; symmetry; apply Hwf).
  simpl in Hstep.
  case_bool_decide as Hfresh; [|by injection Hstep as <-].
  bind_inv Hstep. injection Hstep as <-. destruct a; [|done]. simpl.
  apply Forall_app. split; [done|]. constructor; [|constructor].
  (* the object itself satisfies the premise *)
  assert (mask !! idx = Some true) as Hself.
  { apply (Hmask idx Hidx). split; [unfold ones; by apply lookup_replicate_2|].
    intros kv Hkv. rewrite Forall_forall in Hd. destruct (Hd kv Hkv) as [_ ->].
    unfold comp. destruct (String.eqb _ _); lia. }
  destruct (lookup_lt_is_Some_2 (decision_attribute c) idx) as [d_idx Hd_idx].
  { destruct Hwf as [_ _ Hdec _]. lia. }
  set (sel := (filter (λ p : Z * bool, p.2 = true) (zip (decision_attribute c) mask)).*1).
  assert (d_idx ∈ sel) as Hsel by (apply elem_of_bool_index; eauto).
  destruct (mean_spec mask) as (s & Hs & Hs0 & Hs1 & Hspos & _).
  { intros ->. done. }
  destruct (mean_spec ((λ d0, comp d0 t) <$> sel)) as (q & Hq & Hq0 & Hq1 & _ & Hqall).
  { destruct sel; [by apply elem_of_nil in Hsel | done]. }
  unfold rule_sound. simpl. split; [done|]. split; [done|]. split; [done|].
  split; [exists s; eauto 6|].
  exists q. split; [done|]. split; [done|]. split; [done|].
  intros Hcertain. apply Hqall. apply Forall_fmap, Forall_forall.
  intros d0 (y & Hy & Hmy)%elem_of_bool_index. simpl.
  assert (y < N c) as HyN.
  { apply lookup_lt_Some in Hmy. lia. }
  apply (Hmask y HyN) in Hmy as [_ Hprem].
  specialize (Hlower Hcertain). unfold lower_dir in Hlower. unfold comp in *.
  destruct (String.eqb (direction c) "up").
  - rewrite lower_of_spec in Hlower; [|by eapply shaped_dom_matrix| |done].
    2:{ unfold class_up. rewrite length_fmap. apply Hwf. }
    assert (class_up c t !! y = Some true) as Hcls.
    { apply Hlower, (dom_matrix_entry c n); [done..|].
      intros i Hi. apply (Hprem (i, obj c idx i)). by apply HdP. }
    apply class_up_lookup in Hcls as (d1 & Hd1 & Hge).
    assert (d1 = d0) as -> by congruence. lia.
  - rewrite lower_of_spec in Hlower; [|by eapply shaped_dom_matrix| |done].
    2:{ unfold class_down. rewrite length_fmap. apply Hwf. }
    assert (class_down c t !! y = Some true) as Hcls.
    { apply Hlower, (dom_matrix_entry c n); [done..|].
      intros i Hi. apply (Hprem (i, obj c idx i)). by apply HdP. }
    apply class_down_lookup in Hcls as (d1 & Hd1 & Hge).
    assert (d1 = d0) as -> by congruence. lia.
Qed.

Lemma rule_loop_sound c n P t kind indices st st' :
  well_formed c n → in_range n P →
  (kind = "certain" ∨ kind = "possible") →
  Forall (λ idx, idx < N c ∧ (kind = "certain" → lower_dir c P t !! idx = Some true))
    indices →
  rule_loop fmt_2f (Fit c) c P t kind indices st = Ok st' →
  Forall (rule_sound c) st.2 → Forall (rule_sound c) st'.2.
Proof.
  intros Hwf HP Hkind Hind. revert st.
  induction Hind as [|idx indices [Hidx Hlow] _ IH]; intros st H Hst; simpl in H.
  - by injection H as <-.
  - bind_inv H. eapply IH; [exact H|]. eapply rule_step_sound; eauto.
Qed.

End RuleSoundness.

(** Every rule the induction returns is sound in the sense of
    [rule_sound]. *)
Lemma induce_decision_rules_sound fmt_2f c n criteria_arg t minimal rs r :
  well_formed c n → in_range n (criteria c) →
  (∀ P, criteria_arg = Some P → in_range n P) →
  induce_decision_rules fmt_2f (Fit c) criteria_arg t minimal = Ok rs →
  r ∈ rs → rule_sound c r.
Proof.
  intros Hwf Hcrit Harg H Hr. unfold induce_decision_rules in H. simpl in H.
  set (P := match criteria_arg with Some (i :: l) => i :: l | _ => criteria c end) in *.
  assert (in_range n P) as HP.
  { subst P. destruct criteria_arg as [[|i l]|]; auto. }
  assert ((if String.eqb (direction c) "up" then lower_approx_up (Fit c) P t
           else lower_approx_down (Fit c) P t) = Ok (lower_dir c P t)) as Hlow.
  { unfold lower_dir. destruct (String.eqb _ _).
    - by apply (lower_approx_up_closed c n).
    - by apply (lower_approx_down_closed c n). }
  assert ((if String.eqb (direction c) "up" then upper_approx_up (Fit c) P t
           else upper_approx_down (Fit c) P t) = Ok (upper_dir c P t)) as Hupp.
  { unfold upper_dir. destruct (String.eqb _ _).
    - by apply (upper_approx_up_closed c n).
    - by apply (upper_approx_down_closed c n). }
  rewrite Hlow, Hupp in H. simpl in H.
  assert (length (lower_dir c P t) = N c) as Hllen.
  { unfold lower_dir. destruct (String.eqb _ _); apply length_all_axis0. }
  assert (length (upper_dir c P t) = N c) as Hulen.
  { unfold upper_dir. destruct (String.eqb _ _); apply length_any_axis0. }
  bind_inv H. bind_inv H.
  assert (Forall (rule_sound c) a.2) as Hs1.
  { eapply (rule_loop_sound fmt_2f c n P t "certain"); [done|done|by left| |exact Ha|constructor].
    apply Forall_forall. intros idx Hidx. split.
    - pose proof (np_where_bound (lower_dir c P t)) as Hb.
      rewrite Forall_forall in Hb. specialize (Hb idx Hidx). lia.
    - intros _. by apply np_where_true. }
  assert (Forall (rule_sound c) a0.2) as Hs2.
  { eapply (rule_loop_sound fmt_2f c n P t "possible"); [done|done|by right| |exact Ha0|done].
    apply Forall_forall. intros idx Hidx. split; [|done].
    pose proof (np_where_bound (mask_and (upper_dir c P t) (mask_not (lower_dir c P t))))
      as Hb.
    rewrite Forall_forall in Hb. specialize (Hb idx Hidx).
    rewrite length_mask_and in Hb; [lia|]. unfold mask_not. rewrite length_fmap. lia. }
  assert (rs `sublist_of` a0.2) as Hsub.
  { destruct minimal; [|by injection H as <-].
    apply minimal_loop_spec in H as (kept & -> & Hsub & _). done. }
  rewrite Forall_forall in Hs2. apply Hs2. by eapply elem_of_sublist.
Qed.

(** Every rule returned by [induce_decision_rules] concludes
    ["x is 'good'"], carries the engine's direction, is certain or
    possible, has a support in (0, 1] and a confidence in [0, 1]; a
    certain rule has confidence 1. *)
Theorem returned_rules_sound fmt_2f c n criteria_arg t minimal rs r :
  well_formed c n → in_range n (criteria c) →
  (∀ P, criteria_arg = Some P → in_range n P) →
  induce_decision_rules fmt_2f (Fit c) criteria_arg t minimal = Ok rs →
  r ∈ rs →
  concl r = "x is 'good'" ∧ rule_direction r = direction c ∧
  (kind r = "certain" ∨ kind r = "possible") ∧
  (∃ s, support r = fl s ∧ (0 < s)%Q ∧ (s <= 1)%Q) ∧
  (∃ q, confidence r = fl q ∧ (0 <= q)%Q ∧ (q <= 1)%Q ∧
        (kind r = "certain" → (q == 1)%Q)).
Proof.
  intros Hwf Hcrit Harg H Hr.
  exact (induce_decision_rules_sound fmt_2f c n criteria_arg t minimal rs r
           Hwf Hcrit Harg H Hr).
Qed.

(** ** Subsumption *)

Lemma elem_of_dict_keys (p : dict) k : k ∈ dict_keys p ↔ ∃ v, dict_get p k = Some v.
Proof.
  unfold dict_keys. rewrite elem_of_list_to_set.
  induction p as [|[k0 v0] p IH]; simpl.
  - split; [intros H; by apply elem_of_nil in H | by intros [? ?]].
  - rewrite elem_of_cons, IH. destruct (decide (k = k0)) as [->|Hne].
    + split; [eauto | by left].
    + split; [intros [?|?]; done | by right].
Qed.

Lemma profile_weaker_spec bad (p1 p2 : dict) :
  profile_weaker bad p1 p2 = true
  ↔ ∀ k v2 v1, dict_get p2 k = Some v2 → dict_get p1 k = Some v1 → bad v2 v1 = false.
Proof.
  split; [|apply profile_weaker_true].
  unfold profile_weaker. rewrite forallb_forall. intros H k v2 v1 H2 H1.
  specialize (H k). rewrite H2, H1 in H. apply negb_true_iff, H.
  apply list_elem_of_In, elem_of_elements, elem_of_dict_keys. eauto.
Qed.

(** [subsumes(r1, r2)] in closed form, for the two known directions. *)
Lemma subsumes_spec c r1 r2 :
  direction c = "up" ∨ direction c = "down" →
  subsumes (Fit c) r1 r2 = Ok true
  ↔ concl r1 = concl r2 ∧ dict_keys (profile r2) ⊆ dict_keys (profile r1) ∧
    ∀ k v2 v1, dict_get (profile r2) k = Some v2 → dict_get (profile r1) k = Some v1 →
               if String.eqb (direction c) "up" then (v2 <= v1)%Z else (v2 >= v1)%Z.
Proof.
  intros Hdir. unfold subsumes. simpl.
  destruct (String.eqb (concl r1) (concl r2)) eqn:Hconcl; simpl.
  2:{ apply String.eqb_neq in Hconcl. split; [done | by intros [? _]]. }
  apply String.eqb_eq in Hconcl.
  case_bool_decide as Hkeys; simpl; [|split; [done | by intros (_ & ? & _)]].
  destruct Hdir as [Hd|Hd]; rewrite Hd; simpl.
  - split.
    + intros [= Hw]. split; [done|]. split; [done|].
      intros k v2 v1 H2 H1. pose proof (proj1 (profile_weaker_spec _ _ _) Hw k v2 v1 H2 H1).
      lia.
    + intros (_ & _ & H). f_equal. apply profile_weaker_spec.
      intros k v2 v1 H2 H1. specialize (H k v2 v1 H2 H1). lia.
  - split.
    + intros [= Hw]. split; [done|]. split; [done|].
      intros k v2 v1 H2 H1. pose proof (proj1 (profile_weaker_spec _ _ _) Hw k v2 v1 H2 H1).
      lia.
    + intros (_ & _ & H). f_equal. apply profile_weaker_spec.
      intros k v2 v1 H2 H1. specialize (H k v2 v1 H2 H1). lia.
Qed.

(** For direction "up" or "down", subsumption is reflexive and
    transitive: every rule subsumes itself, and if [r2] subsumes [r1] and
    [r3] subsumes [r2] then [r3] subsumes [r1]. *)
Theorem subsumes_preorder c r1 r2 r3 :
  direction c = "up" ∨ direction c = "down" →
  subsumes (Fit c) r1 r1 = Ok true ∧
  (subsumes (Fit c) r1 r2 = Ok true → subsumes (Fit c) r2 r3 = Ok true →
   subsumes (Fit c) r1 r3 = Ok true).
Proof.
  intros Hdir. rewrite !(subsumes_spec c) by done. split.
  - split; [done|]. split; [done|]. intros k v2 v1 H2 H1.
    assert (v2 = v1) as -> by congruence. destruct (String.eqb _ _); lia.
  - intros (Hc12 & Hk12 & H12) (Hc23 & Hk23 & H23).
    split; [congruence|]. split; [intros k Hk; apply Hk12, Hk23, Hk|].
    intros k v3 v1 H3 H1.
    assert (k ∈ dict_keys (profile r2)) as [v2 H2]%elem_of_dict_keys.
    { apply Hk23, elem_of_dict_keys. eauto. }
    specialize (H12 k v2 v1 H2 H1). specialize (H23 k v3 v2 H3 H2).
    destruct (String.eqb _ _); lia.
Qed.

(** With a direction that is neither "up" nor "down", [subsumes] answers
    [False] without an error when the conclusions differ or the second
    rule uses a criterion the first does not, and raises [ValueError] in
    every other case. *)
Theorem subsumes_unknown_direction c r1 r2 :
  direction c ≠ "up" → direction c ≠ "down" →
  (concl r1 ≠ concl r2 → subsumes (Fit c) r1 r2 = Ok false) ∧
  (¬ dict_keys (profile r2) ⊆ dict_keys (profile r1) → subsumes (Fit c) r1 r2 = Ok false) ∧
  (concl r1 = concl r2 → dict_keys (profile r2) ⊆ dict_keys (profile r1) →
   ∃ msg, subsumes (Fit c) r1 r2 = Raise (ValueError msg)).
Proof.
  intros Hup%String.eqb_neq Hdown%String.eqb_neq. unfold subsumes. simpl.
  split; [|split].
  - intros Hc%String.eqb_neq. by rewrite Hc.
  - intros Hk. destruct (negb (String.eqb _ _)); [done|].
    by rewrite bool_decide_eq_false_2.
  - intros Hc%String.eqb_eq Hk. rewrite Hc. simpl.
    rewrite bool_decide_eq_true_2 by done. simpl. rewrite Hup, Hdown. eauto.
Qed.

(** ** What the minimality filter removes *)

Lemma any_subsumes_true self r1 rules :
  any_subsumes self r1 rules = Ok true →
  ∃ r2, r2 ∈ rules ∧ rule_eqb r2 r1 = false ∧ subsumes self r1 r2 = Ok true.
Proof.
  induction rules as [|r rules IH]; intros H; simpl in H; [done|].
  destruct (rule_eqb r r1) eqn:Heq; simpl in H.
  - destruct (IH H) as (r2 & ? & ? & ?). exists r2. split; [by right | done].
  - destruct (subsumes self r1 r) as [[]|] eqn:Hs; simpl in H; [|..|done].
    + exists r. split; [by left | done].
    + destruct (IH H) as (r2 & ? & ? & ?). exists r2. split; [by right | done].
Qed.

Lemma minimal_loop_decides self rules todo minimal_rules res :
  minimal_loop self rules todo minimal_rules = Ok res →
  ∀ r1, r1 ∈ todo →
    (any_subsumes self r1 rules = Ok false ∧ r1 ∈ res) ∨
    any_subsumes self r1 rules = Ok true.
Proof.
  revert minimal_rules. induction todo as [|r todo IH]; intros acc H r1 Hr1; simpl in H.
  - by apply elem_of_nil in Hr1.
  - bind_inv H. apply elem_of_cons in Hr1 as [->|Hr1]; [|by eapply IH].
    destruct a; [by right|]. left. split; [done|].
    apply minimal_loop_spec in H as (kept & -> & _).
    apply elem_of_app. left. apply elem_of_app. right. by left.
Qed.

Lemma induce_minimal_unfold fmt_2f self criteria_arg t :
  induce_decision_rules fmt_2f self criteria_arg t true
  = mbind (λ rules, minimal_loop self rules rules [])
      (induce_decision_rules fmt_2f self criteria_arg t false).
Proof.
  unfold induce_decision_rules. destruct self as [|c]; [done|]. simpl.
  destruct (if String.eqb (direction c) "up" then lower_approx_up _ _ _
            else lower_approx_down _ _ _) as [lower|]; simpl; [|done].
  destruct (if String.eqb (direction c) "up" then upper_approx_up _ _ _
            else upper_approx_down _ _ _) as [upper|]; simpl; [|done].
  destruct (rule_loop _ _ _ _ _ "certain" _ _) as [st1|]; simpl; [|done].
  destruct (rule_loop _ _ _ _ _ "possible" _ _) as [st2|]; simpl; done.
Qed.

(** [minimal=True] returns a subsequence of what [minimal=False]
    returns: a rule is kept iff no other rule of the unfiltered list
    subsumes it, and each rule left out is subsumed by another rule of
    that list. *)
Theorem minimal_filter_exact fmt_2f c criteria_arg t rs :
  induce_decision_rules fmt_2f (Fit c) criteria_arg t true = Ok rs →
  ∃ rules,
    induce_decision_rules fmt_2f (Fit c) criteria_arg t false = Ok rules ∧
    rs `sublist_of` rules ∧
    ∀ r, r ∈ rules →
      (r ∈ rs ∧ ∀ r2, r2 ∈ rules → rule_eqb r2 r = false →
                      subsumes (Fit c) r r2 = Ok false) ∨
      ((r ∉ rs) ∧ ∃ r2, r2 ∈ rules ∧ rule_eqb r2 r = false ∧
                      subsumes (Fit c) r r2 = Ok true).
Proof.
  rewrite induce_minimal_unfold. intros H. bind_inv H. exists a. split; [done|].
  pose proof (minimal_loop_spec _ _ _ _ _ H) as (kept & -> & Hsub & Hkept).
  split; [done|]. intros r Hr.
  destruct (minimal_loop_decides _ _ _ _ _ H r Hr) as [[Hfalse Hin]|Htrue].
  - left. split; [done|]. by apply any_subsumes_false.
  - right. split; [|by apply any_subsumes_true].
    intros Hin. specialize (Hkept r Hin). congruence.
Qed.

(** ** Configuration *)



(** ** Profiles of the induced rules *)

Section RuleProfiles.

Variable fmt_2f : pyfloat → string.

Lemma rule_step_profile c P t kind idx st st' :
  rule_step fmt_2f (Fit c) c P t kind idx st = Ok st' →
  Forall (λ r, ∃ idx, make_profile (F_pareto c) idx P [] = Ok (profile r)) st.2 →
  Forall (λ r, ∃ idx, make_profile (F_pareto c) idx P [] = Ok (profile r)) st'.2.
Proof.
  unfold rule_step. intros H Hst. bind_inv H. bind_inv H. bind_inv H. bind_inv H.
  case_bool_decide; [|by injection H as <-].
  bind_inv H. injection H as <-. destruct a3; [|done]. simpl.
  apply Forall_app. split; [done|]. constructor; [|constructor]. simpl. eauto.
Qed.

Lemma rule_loop_profile c P t kind indices st st' :
  rule_loop fmt_2f (Fit c) c P t kind indices st = Ok st' →
  Forall (λ r, ∃ idx, make_profile (F_pareto c) idx P [] = Ok (profile r)) st.2 →
  Forall (λ r, ∃ idx, make_profile (F_pareto c) idx P [] = Ok (profile r)) st'.2.
Proof.
  revert st. induction indices as [|idx indices IH]; intros st H Hst; simpl in H.
  - by injection H as <-.
  - bind_inv H. eauto using rule_step_profile.
Qed.

(** The profile of every rule before the minimality filter is the profile
    of an object on the criteria used. *)
Lemma induce_decision_rules_profiles c criteria_arg t rules :
  induce_decision_rules fmt_2f (Fit c) criteria_arg t false = Ok rules →
  let P := match criteria_arg with Some (i :: l) => i :: l | _ => criteria c end in
  Forall (λ r, ∃ idx, make_profile (F_pareto c) idx P [] = Ok (profile r)) rules.
Proof.
  unfold induce_decision_rules. simpl. intros H.
  bind_inv H. bind_inv H. bind_inv H. bind_inv H. injection H as <-.
  eapply rule_loop_profile; [exact Ha2|].
  eapply rule_loop_profile; [exact Ha1|]. constructor.
Qed.

End RuleProfiles.

Lemma make_profile_idx F idx P (d d' : dict) :
  make_profile F idx P d = Ok d' → P ≠ [] → idx < length F.
Proof.
  intros H HP. destruct P as [|i P]; [done|]. simpl in H. bind_inv H.
  unfold entry in Ha. destruct (F !! idx) eqn:Hrow; [|done].
  by apply lookup_lt_Some in Hrow.
Qed.

Lemma dict_get_of_elem (d : dict) k v : (k, v) ∈ d → ∃ v', dict_get d k = Some v'.
Proof.
  induction d as [|[k0 v0] d IH]; [intros H; by apply elem_of_nil in H|]. simpl.
  intros [[= -> ->]|Hin]%elem_of_cons.
  - rewrite decide_True by done. eauto.
  - destruct (decide (k = k0)); eauto.
Qed.

(** A profile that holds one object's values: its keys are the criteria
    used and each key maps to the object's value. *)
Lemma profile_of_object c n idx P (d : dict) :
  well_formed c n → in_range n P → idx < N c →
  make_profile (F_pareto c) idx P [] = Ok d →
  Forall (λ kv, kv.2 = obj c idx kv.1) d ∧
  (∀ i, i ∈ dict_keys d ↔ i ∈ P) ∧ (∀ i, i ∈ P → dict_get d i = Some (obj c idx i)).
Proof.
  intros Hwf HP Hidx Hmk.
  destruct (make_profile_spec c n idx P [] Hwf Hidx HP) as (d' & Hmk' & Hd & Hkeys & _ & Hin);
    [constructor|].
  assert (d' = d) as -> by congruence. rewrite Forall_forall in Hd.
  assert (∀ i, i ∈ P → dict_get d i = Some (obj c idx i)) as Hget.
  { intros i Hi. destruct (dict_get_of_elem d i _ (Hin i Hi)) as [v Hv].
    rewrite Hv. f_equal. apply dict_get_elem_of in Hv. by destruct (Hd _ Hv) as [_ ?]. }
  split; [apply Forall_forall; intros kv Hkv; by destruct (Hd _ Hkv)|].
  split; [|done]. intros i. rewrite elem_of_dict_keys. split.
  - intros [v Hv%dict_get_elem_of]. destruct (Hkeys _ Hv) as [Hnil|?]; [|done].
    by apply elem_of_nil in Hnil.
  - intros Hi. rewrite (Hget i Hi). eauto.
Qed.

(** The profile of every returned rule holds the values of one object on
    exactly the criteria used. *)
Lemma induce_decision_rules_object_profile fmt_2f c n criteria_arg t minimal rs r :
  well_formed c n → in_range n (criteria c) →
  (∀ P, criteria_arg = Some P → in_range n P) →
  induce_decision_rules fmt_2f (Fit c) criteria_arg t minimal = Ok rs →
  r ∈ rs →
  let P := match criteria_arg with Some (i :: l) => i :: l | _ => criteria c end in
  ∃ idx, idx < N c ∧
    Forall (λ kv, kv.2 = obj c idx kv.1) (profile r) ∧
    (∀ i, i ∈ dict_keys (profile r) ↔ i ∈ P) ∧
    (∀ i, i ∈ P → dict_get (profile r) i = Some (obj c idx i)).
Proof.
  intros Hwf Hcrit Harg H Hr P.
  assert (in_range n P) as HP.
  { subst P. destruct criteria_arg as [[|i l]|]; auto. }
  assert (∃ rules, induce_decision_rules fmt_2f (Fit c) criteria_arg t false = Ok rules ∧
                   rs `sublist_of` rules) as (rules & Hrules & Hsub).
  { destruct minimal; [|eauto].
    rewrite induce_minimal_unfold in H. bind_inv H. exists a. split; [done|].
    by apply minimal_loop_spec in H as (kept & -> & ? & _). }
  pose proof (induce_decision_rules_profiles fmt_2f c criteria_arg t rules Hrules) as Hall.
  rewrite Forall_forall in Hall.
  destruct (Hall r) as [idx Hmk]; [by eapply elem_of_sublist|]. fold P in Hmk.
  destruct (decide (idx < N c)) as [Hidx|Hge].
  - exists idx. split; [done|]. by apply (profile_of_object c n idx P).
  - (* only possible without criteria: any object will do *)
    assert (P = []) as HPnil.
    { destruct P as [|i P'] eqn:HPeq; [done|]. exfalso. apply Hge.
      destruct Hwf as [HN _ _ _]. rewrite HN.
      eapply make_profile_idx; [exact Hmk | done]. }
    rewrite HPnil in *. simpl in Hmk. injection Hmk as Hprof.
    exists 0. split; [pose proof (well_formed_N_pos c n Hwf); lia|].
    rewrite <- Hprof. split; [constructor|]. split.
    + intros i. rewrite elem_of_dict_keys. simpl. split; [by intros [? ?] | ].
      intros Hi. by apply elem_of_nil in Hi.
    + intros i Hi. by apply elem_of_nil in Hi.
Qed.

(** The profile of every returned rule is the profile of an object of the
    matrix: its keys are exactly the criteria used, each mapped to that
    object's value. *)
Theorem returned_rules_profile fmt_2f c n criteria_arg t minimal rs r :
  well_formed c n → in_range n (criteria c) →
  (∀ P, criteria_arg = Some P → in_range n P) →
  induce_decision_rules fmt_2f (Fit c) criteria_arg t minimal = Ok rs →
  r ∈ rs →
  let P := match criteria_arg with Some (i :: l) => i :: l | _ => criteria c end in
  ∃ idx, idx < N c ∧
    (∀ i, i ∈ dict_keys (profile r) ↔ i ∈ P) ∧
    (∀ i, i ∈ P → dict_get (profile r) i = Some (obj c idx i)).
Proof.
  intros Hwf Hcrit Harg H Hr P.
  destruct (induce_decision_rules_object_profile fmt_2f c n criteria_arg t minimal rs r
              Hwf Hcrit Harg H Hr) as (idx & Hidx & _ & Hkeys & Hget).
  by exists idx.
Qed.

(** ** Rule induction with an unknown direction *)

Lemma dict_eqb_refl_object c idx (d : dict) :
  Forall (λ kv, kv.2 = obj c idx kv.1) d → dict_eqb d d = true.
Proof.
  intros Hd. unfold dict_eqb. rewrite bool_decide_eq_true_2 by done. simpl.
  rewrite Forall_forall in Hd.
  apply forallb_forall. intros [k v] Hkv%list_elem_of_In. simpl.
  apply bool_decide_eq_true_2.
  destruct (dict_get_of_elem d k v Hkv) as [v' Hv']. rewrite Hv'. f_equal.
  apply dict_get_elem_of in Hv'.
  pose proof (Hd _ Hv') as H1. pose proof (Hd _ Hkv) as H2. simpl in *. congruence.
Qed.

Lemma minimal_loop_nil self rules : minimal_loop self rules [] [] = Ok [].
Proof. reflexivity. Qed.

(** With a direction that is neither "up" nor "down", rule induction
    with [minimal=True] raises [ValueError] exactly when the unfiltered
    list has two rules or more; with fewer rules it returns that list. *)
Theorem induce_unknown_direction fmt_2f c n criteria_arg t rules :
  well_formed c n → in_range n (criteria c) →
  (∀ P, criteria_arg = Some P → in_range n P) →
  direction c ≠ "up" → direction c ≠ "down" →
  induce_decision_rules fmt_2f (Fit c) criteria_arg t false = Ok rules →
  (length rules ≤ 1 →
   induce_decision_rules fmt_2f (Fit c) criteria_arg t true = Ok rules) ∧
  (2 ≤ length rules →
   ∃ msg, induce_decision_rules fmt_2f (Fit c) criteria_arg t true
          = Raise (ValueError msg)).
Proof.
  intros Hwf Hcrit Harg Hup Hdown Hrules.
  rewrite induce_minimal_unfold, Hrules. simpl.
  set (P := match criteria_arg with Some (i :: l) => i :: l | _ => criteria c end).
  assert (in_range n P) as HP.
  { subst P. destruct criteria_arg as [[|i l]|]; auto. }
  (* every rule has the fixed conclusion and the keys of [P] *)
  assert (∀ r, r ∈ rules →
            concl r = "x is 'good'" ∧ (∀ i, i ∈ dict_keys (profile r) ↔ i ∈ P)) as Hshape.
  { intros r Hr. split.
    - by destruct (induce_decision_rules_sound fmt_2f c n criteria_arg t false rules r
                     Hwf Hcrit Harg Hrules Hr) as [? _].
    - destruct (induce_decision_rules_object_profile fmt_2f c n criteria_arg t false
                  rules r Hwf Hcrit Harg Hrules Hr) as (idx & _ & _ & Hkeys & _). done. }
  assert (∀ r1 r2, r1 ∈ rules → r2 ∈ rules →
            ∃ msg, subsumes (Fit c) r1 r2 = Raise (ValueError msg)) as Hraise.
  { intros r1 r2 Hr1 Hr2.
    destruct (Hshape r1 Hr1) as [Hc1 Hk1]. destruct (Hshape r2 Hr2) as [Hc2 Hk2].
    unfold subsumes. simpl. rewrite Hc1, Hc2. simpl.
    rewrite bool_decide_eq_true_2.
    2:{ intros i Hi. apply Hk1, Hk2, Hi. }
    simpl. apply String.eqb_neq in Hup, Hdown. rewrite Hup, Hdown. eauto. }
  split.
  - intros Hlen. destruct rules as [|r [|r' rules']]; [done| |simpl in Hlen; lia].
    simpl.
    assert (rule_eqb r r = true) as ->; [|done].
    destruct (induce_decision_rules_sound fmt_2f c n criteria_arg t false [r] r
                Hwf Hcrit Harg Hrules) as (_ & _ & _ & (s & Hs & _) & (q & Hq & _));
      [by left|].
    destruct (induce_decision_rules_object_profile fmt_2f c n criteria_arg t false [r] r
                Hwf Hcrit Harg Hrules) as (idx & _ & Hvals & _ & _); [by left|].
    unfold rule_eqb. rewrite (dict_eqb_refl_object c idx _ Hvals), !String.eqb_refl, Hs, Hq.
    simpl. by rewrite !Qeq_bool_refl'.
  - intros Hlen. destruct rules as [|r1 [|r2 rules']]; [simpl in Hlen; lia..|].
    assert (NoDup (desc <$> r1 :: r2 :: rules')) as Hnd.
    { destruct (induce_decision_rules_inv fmt_2f c criteria_arg t false _ Hrules)
        as (rules0 & _ & Hnd & Hsub & _).
      eapply sublist_NoDup; [exact Hnd|]. by apply fmap_sublist. }
    assert (rule_eqb r2 r1 = false) as Hne.
    { unfold rule_eqb. apply andb_false_iff. right. apply String.eqb_neq.
      intros Heq. simpl in Hnd. apply NoDup_cons in Hnd as [Hnot _].
      apply Hnot. rewrite <- Heq. by left. }
    destruct (Hraise r1 r1) as [msg1 Hr11]; [by left|by left|].
    destruct (Hraise r1 r2) as [msg2 Hr12]; [by left|right; by left|].
    simpl. destruct (rule_eqb r1 r1); simpl.
    + rewrite Hne. simpl. rewrite Hr12. simpl. eauto.
    + rewrite Hr11. simpl. eauto.
Qed.

(** * Properties of the decision makers *)

(** ** Pareto selection *)

Lemma pyfloat_geb_spec a b :
  pyfloat_geb a b = true ↔ ∃ p q, a = fl p ∧ b = fl q ∧ (q <= p)%Q.
Proof.
  destruct a as [|p], b as [|q]; simpl;
    try (split; [done | intros (? & ? & ? & ? & _); done]).
  rewrite Qle_bool_iff. split; [eauto | by intros (? & ? & [= ->] & [= ->] & ?)].
Qed.

Lemma pyfloat_gtb_spec a b :
  pyfloat_gtb a b = true ↔ ∃ p q, a = fl p ∧ b = fl q ∧ (q < p)%Q.
Proof.
  destruct a as [|p], b as [|q]; simpl;
    try (split; [done | intros (? & ? & ? & ? & _); done]).
  rewrite negb_true_iff. split.
  - intros H. exists p, q. split; [done|]. split; [done|].
    apply Qnot_le_lt. intros Hle%Qle_bool_iff. congruence.
  - intros (? & ? & [= <-] & [= <-] & Hlt).
    destruct (Qle_bool p q) eqn:Hle; [|done].
    apply Qle_bool_iff in Hle. by apply Qlt_not_le in Hlt.
Qed.

(** [r2] dominates [r]: both fields are numbers, none is smaller and one
    is greater. *)
Lemma dominates_rule_spec r r2 :
  BaseDM.dominates_rule r r2 = true
  ↔ ∃ s c s2 c2,
      support r = fl s ∧ confidence r = fl c ∧
      support r2 = fl s2 ∧ confidence r2 = fl c2 ∧
      (s <= s2)%Q ∧ (c <= c2)%Q ∧ ((s < s2)%Q ∨ (c < c2)%Q).
Proof.
  unfold BaseDM.dominates_rule.
  rewrite !andb_true_iff, orb_true_iff, !pyfloat_geb_spec, !pyfloat_gtb_spec. split.
  - intros [[(s2 & s & Hs2 & Hs & Hsle) (c2 & c & Hc2 & Hc & Hcle)] Hstrict].
    exists s, c, s2, c2. do 6 (split; [done|]).
    destruct Hstrict as [(? & ? & ? & ? & ?)|(? & ? & ? & ? & ?)];
      [left | right]; congruence.
  - intros (s & c & s2 & c2 & Hs & Hc & Hs2 & Hc2 & Hsle & Hcle & Hstrict).
    split; [split; eauto 6|]. destruct Hstrict; [left | right]; eauto 6.
Qed.

Lemma dominates_rule_irrefl r : BaseDM.dominates_rule r r = false.
Proof.
  destruct (BaseDM.dominates_rule r r) eqn:H; [|done].
  apply dominates_rule_spec in H
    as (s & c & s2 & c2 & Hs & Hc & Hs2 & Hc2 & _ & _ & Hstrict).
  assert (s2 = s) as -> by congruence. assert (c2 = c) as -> by congruence.
  destruct Hstrict as [H|H]; by apply Qlt_irrefl in H.
Qed.

Lemma dominates_rule_trans r r2 r3 :
  BaseDM.dominates_rule r r2 = true → BaseDM.dominates_rule r2 r3 = true →
  BaseDM.dominates_rule r r3 = true.
Proof.
  rewrite !dominates_rule_spec.
  intros (s & c & s2 & c2 & Hs & Hc & Hs2 & Hc2 & Hsle & Hcle & Hstrict)
         (s2' & c2' & s3 & c3 & Hs2' & Hc2' & Hs3 & Hc3 & Hsle' & Hcle' & _).
  assert (s2' = s2) as -> by congruence. assert (c2' = c2) as -> by congruence.
  exists s, c, s3, c3. do 4 (split; [done|]).
  split; [by eapply Qle_trans|]. split; [by eapply Qle_trans|].
  destruct Hstrict; [left; by eapply Qlt_le_trans | right; by eapply Qlt_le_trans].
Qed.

Lemma length_filter_lt_impl {A} (P Q' : A → Prop) `{∀ x, Decision (P x)}
    `{∀ x, Decision (Q' x)} (l : list A) y :
  (∀ x, x ∈ l → P x → Q' x) → y ∈ l → Q' y → ¬ P y →
  length (filter P l) < length (filter Q' l).
Proof.
  intros Himpl Hy HQ HP.
  assert (∀ l', (∀ x, x ∈ l' → P x → Q' x) →
                length (filter P l') ≤ length (filter Q' l')) as Hle.
  { intros l'. induction l' as [|x l' IH]; intros Hi; [done|].
    rewrite !filter_cons. specialize (IH (λ z Hz, Hi z (list_elem_of_further _ _ _ Hz))).
    destruct (decide (P x)) as [HPx|]; destruct (decide (Q' x)) as [|HnQ]; simpl; try lia.
    destruct HnQ. apply Hi; [by left | done]. }
  induction l as [|x l IH]; [by apply elem_of_nil in Hy|].
  rewrite !filter_cons. apply elem_of_cons in Hy as [->|Hy].
  - rewrite decide_False, decide_True by done. simpl.
    specialize (Hle l (λ z Hz, Himpl z (list_elem_of_further _ _ _ Hz))). lia.
  - specialize (IH (λ z Hz, Himpl z (list_elem_of_further _ _ _ Hz)) Hy).
    destruct (decide (P x)) as [HPx|]; destruct (decide (Q' x)) as [|HnQ]; simpl; try lia.
    destruct HnQ. apply Himpl; [by left | done].
Qed.

Lemma elem_of_select_pareto rules r :
  r ∈ BaseDM.select_pareto rules
  ↔ r ∈ BaseDM.certain_rules rules ∧
    ∀ r2, r2 ∈ BaseDM.certain_rules rules → BaseDM.dominates_rule r r2 = false.
Proof.
  unfold BaseDM.select_pareto. rewrite list_elem_of_filter. split.
  - intros [Hex Hr]. split; [done|]. intros r2 Hr2.
    destruct (BaseDM.dominates_rule r r2) eqn:Hd; [|done].
    assert (existsb (BaseDM.dominates_rule r) (BaseDM.certain_rules rules) = true)
      as Ht; [|congruence].
    apply existsb_exists. exists r2. split; [by apply list_elem_of_In | done].
  - intros [Hr Hnone]. split; [|done].
    destruct (existsb _ _) eqn:Hex; [|done].
    apply existsb_exists in Hex as (r2 & Hr2%list_elem_of_In & Hd).
    rewrite (Hnone r2 Hr2) in Hd. done.
Qed.

(** Every certain rule is selected or dominated by a selected rule. *)
Lemma select_pareto_covers rules r :
  r ∈ BaseDM.certain_rules rules →
  r ∈ BaseDM.select_pareto rules ∨
  ∃ r2, r2 ∈ BaseDM.select_pareto rules ∧ BaseDM.dominates_rule r r2 = true.
Proof.
  set (certain := BaseDM.certain_rules rules).
  set (dominators := λ r0, filter (λ r2, BaseDM.dominates_rule r0 r2 = true) certain).
  assert (∀ k r0, length (dominators r0) < k → r0 ∈ certain →
            r0 ∈ BaseDM.select_pareto rules ∨
            ∃ r2, r2 ∈ BaseDM.select_pareto rules ∧ BaseDM.dominates_rule r0 r2 = true)
    as Hind.
  { induction k as [|k IH]; intros r0 Hk Hr0; [lia|].
    destruct (existsb (BaseDM.dominates_rule r0) certain) eqn:Hex.
    - apply existsb_exists in Hex as (r2 & Hr2%list_elem_of_In & Hd).
      assert (length (dominators r2) < length (dominators r0)) as Hlt.
      { apply (length_filter_lt_impl _ _ certain r2); [|done|done|].
        - intros x _ Hx. by eapply dominates_rule_trans.
        - by rewrite dominates_rule_irrefl. }
      destruct (IH r2) as [Hin|(r3 & Hin & Hd3)]; [lia|done| |].
      + right. by exists r2.
      + right. exists r3. split; [done|]. by eapply dominates_rule_trans.
    - left. unfold BaseDM.select_pareto. apply list_elem_of_filter. done. }
  intros Hr. by apply (Hind (S (length (dominators r)))); [lia|].
Qed.

(** [select_pareto] returns, in their order, certain rules of its
    argument that no certain rule dominates on (support, confidence);
    every certain rule it leaves out is dominated by one it returns, so it
    returns at least one rule whenever a certain rule is given. *)
Theorem select_pareto_front rules :
  BaseDM.select_pareto rules `sublist_of` rules ∧
  (∀ r, r ∈ BaseDM.select_pareto rules →
     r ∈ rules ∧ kind r = "certain" ∧
     ∀ r2, r2 ∈ rules → kind r2 = "certain" → BaseDM.dominates_rule r r2 = false) ∧
  (∀ r, r ∈ rules → kind r = "certain" →
     r ∈ BaseDM.select_pareto rules ∨
     ∃ r2, r2 ∈ BaseDM.select_pareto rules ∧ BaseDM.dominates_rule r r2 = true) ∧
  ((∃ r, r ∈ rules ∧ kind r = "certain") → BaseDM.select_pareto rules ≠ []).
Proof.
  assert (∀ r, r ∈ BaseDM.certain_rules rules ↔ kind r = "certain" ∧ r ∈ rules) as Hcert.
  { intros r. unfold BaseDM.certain_rules. by rewrite list_elem_of_filter. }
  assert (∀ r, r ∈ rules → kind r = "certain" →
     r ∈ BaseDM.select_pareto rules ∨
     ∃ r2, r2 ∈ BaseDM.select_pareto rules ∧ BaseDM.dominates_rule r r2 = true) as Hcov.
  { intros r Hr Hk. apply select_pareto_covers, Hcert. done. }
  split; [|split; [|split; [done|]]].
  - unfold BaseDM.select_pareto, BaseDM.certain_rules.
    etrans; apply sublist_filter.
  - intros r [[Hk Hr]%Hcert Hnone]%elem_of_select_pareto.
    split; [done|]. split; [done|]. intros r2 Hr2 Hk2. apply Hnone, Hcert. done.
  - intros (r & Hr & Hk) Hnil.
    destruct (Hcov r Hr Hk) as [Hin|(r2 & Hin & _)];
      rewrite Hnil in Hin; by apply elem_of_nil in Hin.
Qed.

(** ** Scoring *)

Lemma pyfloat_geb_total a b : a ≠ nan → b ≠ nan → pyfloat_geb a b = false → pyfloat_geb b a = true.
Proof.
  destruct a as [|p], b as [|q]; try done. simpl. intros _ _ Hle.
  apply Qle_bool_iff, Qlt_le_weak, Qnot_le_lt. intros H%Qle_bool_iff. congruence.
Qed.

Lemma pyfloat_geb_trans a b c :
  pyfloat_geb a b = true → pyfloat_geb b c = true → pyfloat_geb a c = true.
Proof.
  rewrite !pyfloat_geb_spec.
  intros (p & q & -> & -> & Hqp) (q' & r & [= <-] & -> & Hrq).
  exists p, r. split; [done|]. split; [done|]. by eapply Qle_trans.
Qed.

Lemma insert_desc_Permutation x l : BaseDM.insert_desc x l ≡ₚ x :: l.
Proof.
  induction l as [|y l IH]; simpl; [done|].
  destruct (pyfloat_geb x.1 y.1); [done|]. rewrite IH. apply Permutation_swap.
Qed.

Lemma sort_desc_Permutation l : BaseDM.sort_desc l ≡ₚ l.
Proof.
  induction l as [|x l IH]; simpl; [done|].
  by rewrite insert_desc_Permutation, IH.
Qed.

Lemma insert_desc_sorted x l :
  x.1 ≠ nan → Forall (λ p, p.1 ≠ nan) l →
  StronglySorted (λ p p' : pyfloat * rule, pyfloat_geb p.1 p'.1 = true) l →
  StronglySorted (λ p p' : pyfloat * rule, pyfloat_geb p.1 p'.1 = true)
    (BaseDM.insert_desc x l).
Proof.
  intros Hx Hl. induction 1 as [|y l Hs IH Hy]; simpl; [repeat constructor|].
  apply Forall_cons in Hl as [Hyn Hl].
  destruct (pyfloat_geb x.1 y.1) eqn:Hge.
  - constructor; [by constructor|].
    constructor; [done|]. eapply Forall_impl; [exact Hy|].
    intros z Hz. simpl in *. by eapply pyfloat_geb_trans.
  - constructor; [by apply IH|].
    rewrite insert_desc_Permutation. constructor; [|done].
    by apply pyfloat_geb_total.
Qed.

Lemma sort_desc_sorted l :
  Forall (λ p, p.1 ≠ nan) l →
  StronglySorted (λ p p' : pyfloat * rule, pyfloat_geb p.1 p'.1 = true) (BaseDM.sort_desc l).
Proof.
  induction 1 as [|x l Hx Hl IH]; simpl; [constructor|].
  apply insert_desc_sorted; [done| |done].
  by rewrite sort_desc_Permutation.
Qed.

(** The stable descending sort is an instance of [python_sort]. *)
Lemma sort_desc_python_sort : BaseDM.python_sort BaseDM.sort_desc.
Proof. split; [apply sort_desc_Permutation | done]. Qed.

Section SimpleScoreProperties.

Variable weighted : pyfloat → pyfloat → pyfloat → pyfloat.
Variable list_sort : list (pyfloat * rule) → list (pyfloat * rule).

(** [simple_score] returns certain rules of its argument; together with
    the certain rules it leaves out they are the certain rules given;
    for [k ≥ 0] it returns [k] rules, or all certain rules when there
    are fewer.  When no certain rule has a NaN score the rules come best
    score first and no rule left out scores higher than a returned
    one. *)
Theorem simple_score_top_k rules k alpha :
  BaseDM.python_sort list_sort →
  let score r := weighted alpha (confidence r) (support r) in
  let selected := BaseDM.simple_score weighted list_sort rules k alpha in
  ∃ rest,
    selected ++ rest ≡ₚ BaseDM.certain_rules rules ∧
    (∀ r, r ∈ selected → r ∈ rules ∧ kind r = "certain") ∧
    ((0 <= k)%Z → length selected = Z.to_nat k `min` length (BaseDM.certain_rules rules)) ∧
    ((∀ r, r ∈ rules → kind r = "certain" → score r ≠ nan) →
     (∀ r r', r ∈ selected → r' ∈ rest → pyfloat_geb (score r) (score r') = true) ∧
     StronglySorted (λ r r', pyfloat_geb (score r) (score r') = true) selected).
Proof.
  intros [Hperm_sort Hstable] score selected. unfold selected, BaseDM.simple_score.
  set (scored := (λ r, (weighted alpha (confidence r) (support r), r))
                   <$> BaseDM.certain_rules rules).
  set (sorted := list_sort scored).
  assert (∃ j, slice_to sorted k = take j sorted ∧ ((0 <= k)%Z → j = Z.to_nat k))
    as (j & -> & Hj).
  { unfold slice_to. destruct (0 <=? k)%Z eqn:Hk; eexists; (split; [done|]); [done|lia]. }
  assert (sorted ≡ₚ scored) as Hperm by apply Hperm_sort.
  assert (Forall (λ p : pyfloat * rule, p.1 = score p.2) sorted) as Hscore.
  { rewrite Hperm. unfold scored. apply Forall_fmap, Forall_forall. done. }
  assert (scored.*2 = BaseDM.certain_rules rules) as Hsnd.
  { unfold scored. rewrite <- list_fmap_compose. apply list_fmap_id. }
  exists (drop j sorted).*2. split; [|split; [|split]].
  - by rewrite <- fmap_app, take_drop, Hperm, Hsnd.
  - intros r (p & -> & Hp)%list_elem_of_fmap.
    assert (p.2 ∈ BaseDM.certain_rules rules) as Hin.
    { rewrite <- Hsnd, <- Hperm. apply list_elem_of_fmap. exists p. split; [done|].
      eapply elem_of_sublist; [exact Hp|]. apply sublist_take. }
    unfold BaseDM.certain_rules in Hin. apply list_elem_of_filter in Hin as [? ?]. done.
  - intros Hk. rewrite length_fmap, length_take, (Hj Hk).
    by rewrite <- Hsnd, length_fmap, <- Hperm.
  - intros Hnan.
    assert (Forall (λ p : pyfloat * rule, p.1 ≠ nan) scored) as Hkeys.
    { unfold scored. apply Forall_fmap, Forall_forall. intros r Hr. simpl.
      unfold BaseDM.certain_rules in Hr. apply list_elem_of_filter in Hr as [? ?].
      by apply Hnan. }
    pose proof (sort_desc_sorted scored Hkeys) as Hsorted.
    rewrite <- (Hstable scored Hkeys) in Hsorted. fold sorted in Hsorted.
    rewrite <- (take_drop j sorted) in Hsorted, Hscore.
    apply Forall_app in Hscore as [Hst Hsd]. rewrite Forall_forall in Hst, Hsd.
    split.
    + intros r r' (p & -> & Hp)%list_elem_of_fmap (p' & -> & Hp')%list_elem_of_fmap.
      rewrite <- (Hst p Hp), <- (Hsd p' Hp').
      apply (StronglySorted_app_1_elem_of _ _ _ p p' Hsorted Hp Hp').
    + apply StronglySorted_app_1_l in Hsorted. revert Hst.
      induction Hsorted as [|p l Hl IH Hp]; intros Hst; simpl; [constructor|].
      constructor.
      * apply IH. intros z Hz. apply Hst. by right.
      * apply Forall_fmap, Forall_forall. intros z Hz. simpl.
        rewrite Forall_forall in Hp. specialize (Hp z Hz). simpl in Hp.
        rewrite <- (Hst p), <- (Hst z); [done|by right|by left].
Qed.

End SimpleScoreProperties.

(** ** Choice of a reduct *)

Lemma shortest_spec (red : list nat) reds :
  let best := foldl (λ best r, if length r <? length best then r else best) red reds in
  best ∈ red :: reds ∧ (∀ r, r ∈ red :: reds → length best ≤ length r) ∧
  ((∀ r, r ∈ reds → length red ≤ length r) → best = red).
Proof.
  revert red. induction reds as [|r reds IH]; intros red; simpl.
  - split; [by left|]. split; [|done]. by intros r ->%list_elem_of_singleton.
  - destruct (Nat.ltb_spec (length r) (length red)) as [Hlt|Hge].
    + destruct (IH r) as (Hin & Hmin & _). split; [by right|]. split.
      * intros r' [->|Hr']%elem_of_cons; [|by apply Hmin].
        specialize (Hmin r (list_elem_of_here _ _)). lia.
      * intros Hall. specialize (Hall r (list_elem_of_here _ _)). lia.
    + destruct (IH red) as (Hin & Hmin & Hfirst). split; [|split].
      * apply elem_of_cons in Hin as [->|Hin]; [by left | right; by right].
      * intros r' [->|[->|Hr']%elem_of_cons]%elem_of_cons.
        -- apply Hmin. by left.
        -- specialize (Hmin red (list_elem_of_here _ _)). lia.
        -- apply Hmin. by right.
      * intros Hall. apply Hfirst. intros r' Hr'. apply Hall. by right.
Qed.

(** [AutomatedDM.select_reduct] raises [ValueError] on an empty list and
    otherwise returns a reduct of the list of least length. *)
Theorem select_reduct_shortest self (reducts : list (list nat)) core0 :
  (reducts = [] → ∃ msg, AutomatedDM.select_reduct self reducts core0
                         = Raise (ValueError msg)) ∧
  (reducts ≠ [] →
   ∃ red, AutomatedDM.select_reduct self reducts core0 = Ok red ∧
          red ∈ reducts ∧ ∀ r, r ∈ reducts → length red ≤ length r).
Proof.
  split.
  - intros ->. simpl. eauto.
  - intros Hne. destruct reducts as [|red reds]; [done|]. simpl.
    destruct (shortest_spec red reds) as (Hin & Hmin & _). eauto.
Qed.

(** On the reducts found by a fitted engine, the automated and the dummy
    decision maker both succeed and select the first reduct found, which
    has the quality of the full criteria set. *)
Theorem select_reduct_of_found c n self core0 :
  well_formed c n → in_range n (criteria c) →
  ∃ reducts red q qf,
    find_reducts (Fit c) = Ok reducts ∧ reducts !! 0 = Some red ∧
    AutomatedDM.select_reduct self reducts core0 = Ok red ∧
    DummyDM.select_reduct reducts core0 = Ok red ∧
    quality (Fit c) red = Ok q ∧ quality (Fit c) (criteria c) = Ok qf ∧ (q == qf)%Q.
Proof.
  intros Hwf Hcrit.
  destruct (find_reducts_levels c n Hwf Hcrit) as (reducts & r & Hfind & Hne & _ & Hall).
  destruct reducts as [|red reds]; [done|].
  exists (red :: reds), red, (quality_of c red), (quality_of c (criteria c)).
  split; [done|]. split; [done|]. split; [|split; [done|]].
  - simpl. f_equal. apply shortest_spec. intros r' Hr'.
    destruct (Hall red) as [[_ ->]%elem_of_combinations _]; [by left|].
    destruct (Hall r') as [[_ ->]%elem_of_combinations _]; [by right|]. done.
  - destruct (Hall red) as [[Hsub _]%elem_of_combinations Hq]; [by left|].
    split; [|split; [by apply (quality_closed c n) | by apply Qeq_bool_iff]].
    apply (quality_closed c n); [done|].
    eapply in_range_subseteq; [|exact Hcrit]. by apply sublist_subseteq.
Qed.

(** ** Stopping rule of the automated decision maker *)

(** A call of [is_satisfied] never changes [max_rounds]; an answer [False]
    advances [round] by one to a value still below [max_rounds], and an
    answer [True] advances it by at most one. *)
Lemma is_satisfied_round self T rules b self' :
  AutomatedDM.is_satisfied self T rules = inr (b, self') →
  AutomatedDM.max_rounds self' = AutomatedDM.max_rounds self ∧
  (b = false →
   AutomatedDM.round self' = (AutomatedDM.round self + 1)%Z ∧
   (AutomatedDM.round self' < AutomatedDM.max_rounds self)%Z) ∧
  (b = true → (AutomatedDM.round self <= AutomatedDM.round self')%Z).
Proof.
  unfold AutomatedDM.is_satisfied. intros H.
  case_decide; [injection H as <- <-; split; [done|]; split; [done | lia]|].
  destruct (AutomatedDM.hv_indicator self) as [indicator|]; [|done].
  destruct (match AutomatedDM.prev_hv self with Some _ => _ | None => _ end);
    [injection H as <- <-; split; [done|]; split; [done | lia]|].
  simpl in H.
  destruct (match AutomatedDM.prev_rules self with Some _ => _ | None => _ end);
    [injection H as <- <-; split; [done|]; split; [done | simpl; lia]|].
  injection H as <- <-. simpl. split; [done|]. split; [|lia].
  intros Hb%Z.leb_gt. done.
Qed.

(** Over any sequence of calls, [is_satisfied] answers [False] at most
    [max_rounds - 1 - round] times: the loop it controls stops. *)
Theorem is_satisfied_bounded self calls bs self' :
  AutomatedDM.answers self calls = inr (bs, self') →
  (Z.of_nat (length (filter (λ b, b = false) bs))
   <= Z.max 0 (AutomatedDM.max_rounds self - 1 - AutomatedDM.round self))%Z.
Proof.
  revert self bs. induction calls as [|[T rules] calls IH]; intros self bs H; simpl in H.
  - injection H as <- <-. simpl. lia.
  - destruct (AutomatedDM.is_satisfied self T rules) as [e|[b self1]] eqn:Hstep; [done|].
    destruct (AutomatedDM.answers self1 calls) as [e|[bs1 self2]] eqn:Hrest; [done|].
    injection H as <- <-. specialize (IH _ _ Hrest).
    destruct (is_satisfied_round _ _ _ _ _ Hstep) as (Hmax & Hfalse & Htrue).
    rewrite Hmax in IH. rewrite filter_cons. destruct b.
    + rewrite decide_False by done. specialize (Htrue eq_refl). lia.
    + rewrite decide_True by done. destruct (Hfalse eq_refl) as [Hr Hlt].
      simpl length. lia.
Qed.

(** With at most one row [is_satisfied] answers [True] and leaves the
    state as it is, also before [classify] has stored a hypervolume
    indicator; with more rows and no indicator it raises [TypeError]. *)
Theorem is_satisfied_edge_cases self T rules :
  (length T ≤ 1 → AutomatedDM.is_satisfied self T rules = inr (true, self)) ∧
  (1 < length T → AutomatedDM.hv_indicator self = None →
   ∃ msg, AutomatedDM.is_satisfied self T rules = inl (AutomatedDM.TypeError msg)).
Proof.
  unfold AutomatedDM.is_satisfied. split.
  - intros H. by rewrite decide_True.
  - intros H Hnone. rewrite decide_False by lia. rewrite Hnone. eauto.
Qed.

(** ** Further theorems on the example engines *)

Lemma sideways_well_formed : well_formed sideways 2.
Proof. split; [reflexivity | repeat constructor | reflexivity | reflexivity]. Qed.

Lemma approx_down_characterisation_witness :
  well_formed scenario 1 ∧ in_range 1 [0] ∧
  ∃ lower upper,
    lower_approx_down (Fit scenario) [0] 2 = Ok lower ∧
    upper_approx_down (Fit scenario) [0] 2 = Ok upper ∧
    length lower = 3 ∧ length upper = 3.
Proof.
  assert (in_range 1 [0]) as Hrange by (repeat constructor).
  split; [exact scenario_well_formed|]. split; [exact Hrange|].
  destruct (approx_down_characterisation scenario 1 [0] 2 scenario_well_formed Hrange)
    as (pos & neg & lower & upper & _ & _ & Hlower & Hupper & Hl & Hu & _).
  exists lower, upper. repeat split; assumption.
Defined.

Lemma approximations_bracket_class_witness :
  well_formed three_by_two 2 ∧ in_range 2 [0; 1] ∧
  decision_attribute three_by_two !! 0 = Some 1%Z ∧
  ∃ lower_up upper_down,
    lower_approx_up (Fit three_by_two) [0; 1] 2 = Ok lower_up ∧
    upper_approx_down (Fit three_by_two) [0; 1] 2 = Ok upper_down ∧
    (lower_up !! 0 = Some true → (1 >= 2)%Z) ∧
    ((1 <= 2)%Z → upper_down !! 0 = Some true).
Proof.
  assert (in_range 2 [0; 1]) as Hrange by (repeat constructor).
  assert (decision_attribute three_by_two !! 0 = Some 1%Z) as Hd by reflexivity.
  split; [exact three_by_two_well_formed|]. split; [exact Hrange|]. split; [exact Hd|].
  destruct (approximations_bracket_class three_by_two 2 [0; 1] 2 0 1
              three_by_two_well_formed Hrange Hd)
    as (lu & uu & ld & ud & Hlu & _ & _ & Hud & H1 & _ & _ & H4).
  exists lu, ud. repeat split; assumption.
Defined.

Lemma cones_transpose_transitive_witness :
  well_formed two_peaks 2 ∧ in_range 2 [0; 1] ∧
  ∃ pos neg,
    positive_cone (Fit two_peaks) [0; 1] = Ok pos ∧
    negative_cone (Fit two_peaks) [0; 1] = Ok neg ∧
    get2 neg 0 1 = get2 pos 1 0.
Proof.
  assert (in_range 2 [0; 1]) as Hrange by (repeat constructor).
  split; [exact two_peaks_well_formed|]. split; [exact Hrange|].
  destruct (cones_transpose_transitive two_peaks 2 [0; 1] two_peaks_well_formed Hrange)
    as (pos & neg & Hpos & Hneg & Ht & _).
  exists pos, neg. split; [exact Hpos|]. split; [exact Hneg|]. apply Ht.
Defined.

Lemma criterion_out_of_range_witness :
  well_formed scenario 1 ∧ 3 ∈ [0; 3] ∧ 1 ≤ 3 ∧
  positive_cone (Fit scenario) [0; 3] = Raise IndexError ∧
  upper_approx_down (Fit scenario) [0; 3] 2 = Raise IndexError ∧
  quality (Fit scenario) [0; 3] = Raise IndexError.
Proof.
  assert (3 ∈ [0; 3]) as Hin by (right; left).
  assert (1 ≤ 3) as Hle by lia.
  split; [exact scenario_well_formed|]. split; [exact Hin|]. split; [exact Hle|].
  destruct (criterion_out_of_range scenario 1 [0; 3] 3 2 scenario_well_formed Hin Hle)
    as (Hpos & _ & _ & _ & _ & Hud & Hq).
  split; [exact Hpos|]. split; [exact Hud|]. apply Hq. simpl. lia.
Defined.

Lemma quality_bounds_witness :
  well_formed three_by_two 2 ∧ in_range 2 [0] ∧
  ∃ q, quality (Fit three_by_two) [0] = Ok q ∧ (0 <= q)%Q ∧ (q <= 1)%Q.
Proof.
  assert (in_range 2 [0]) as Hrange by (repeat constructor).
  split; [exact three_by_two_well_formed|]. split; [exact Hrange|].
  exact (quality_bounds three_by_two 2 [0] three_by_two_well_formed Hrange).
Defined.

Lemma quality_without_thresholds_witness :
  (m single_class < 2)%Z ∧
  ∃ q, quality (Fit single_class) [0] = Ok q ∧ (q == 1)%Q.
Proof.
  assert (m single_class < 2)%Z as Hm by (simpl; lia).
  split; [exact Hm|].
  apply (quality_without_thresholds single_class [0] Hm). simpl. lia.
Defined.

Lemma quality_of_criteria_set_witness :
  well_formed three_by_two 2 ∧ in_range 2 [0; 1] ∧
  [0; 1] ⊆ [1; 0; 1] ∧ [1; 0; 1] ⊆ [0; 1] ∧
  ∃ q, quality (Fit three_by_two) [0; 1] = Ok q ∧
       quality (Fit three_by_two) [1; 0; 1] = Ok q.
Proof.
  assert (in_range 2 [0; 1]) as Hrange by (repeat constructor).
  assert ([0; 1] ⊆ [1; 0; 1]) as H1.
  { intros i Hi. by right. }
  assert ([1; 0; 1] ⊆ [0; 1]) as H2.
  { intros i Hi. apply elem_of_cons in Hi as [->|Hi]; [right; left | exact Hi]. }
  split; [exact three_by_two_well_formed|]. split; [exact Hrange|].
  split; [exact H1|]. split; [exact H2|].
  exact (quality_of_criteria_set three_by_two 2 [0; 1] [1; 0; 1]
           three_by_two_well_formed Hrange H1 H2).
Defined.

Lemma other_direction_is_down_witness :
  direction sideways ≠ "up" ∧
  find_reducts (Fit sideways)
  = find_reducts (Fit (Config [[1; 2]; [2; 1]]%Z [2; 2]%Z [0; 1] 2 2%Z "down")).
Proof.
  assert (direction sideways ≠ "up") as Hne by discriminate.
  split; [exact Hne|].
  exact (proj2 (other_direction_is_down sideways [0; 1] Hne)).
Defined.

Lemma reducts_shape_witness :
  well_formed three_by_two 2 ∧ in_range 2 (criteria three_by_two) ∧
  ∃ reducts r,
    find_reducts (Fit three_by_two) = Ok reducts ∧
    ∀ S, S ∈ reducts → S `sublist_of` criteria three_by_two ∧ NoDup S ∧ length S = r.
Proof.
  assert (in_range 2 (criteria three_by_two)) as Hrange by (repeat constructor).
  split; [exact three_by_two_well_formed|]. split; [exact Hrange|].
  exact (reducts_shape three_by_two 2 three_by_two_well_formed Hrange).
Defined.

Lemma reducts_are_minimal_witness :
  well_formed three_by_two 2 ∧ in_range 2 (criteria three_by_two) ∧
  ∃ reducts qf,
    find_reducts (Fit three_by_two) = Ok reducts ∧
    quality (Fit three_by_two) (criteria three_by_two) = Ok qf.
Proof.
  assert (in_range 2 (criteria three_by_two)) as Hrange by (repeat constructor).
  split; [exact three_by_two_well_formed|]. split; [exact Hrange|].
  destruct (reducts_are_minimal three_by_two 2 three_by_two_well_formed Hrange)
    as (reducts & qf & Hfind & Hq & _).
  exists reducts, qf. split; [exact Hfind | exact Hq].
Defined.

Lemma core_sorted_witness :
  ∃ t, core (Fit scenario) (Some [[2; 1; 0]; [0; 2; 2]]) = Ok t ∧ StronglySorted Nat.lt t.
Proof.
  eexists _. split; [vm_compute; reflexivity|].
  eapply (core_sorted scenario (Some [[2; 1; 0]; [0; 2; 2]]) _).
  vm_compute; reflexivity.
Defined.

Lemma core_within_criteria_witness :
  well_formed three_by_two 2 ∧ in_range 2 (criteria three_by_two) ∧
  ∃ t, core (Fit three_by_two) None = Ok t ∧ t ⊆ criteria three_by_two.
Proof.
  assert (in_range 2 (criteria three_by_two)) as Hrange by (repeat constructor).
  split; [exact three_by_two_well_formed|]. split; [exact Hrange|].
  exact (core_within_criteria three_by_two 2 three_by_two_well_formed Hrange).
Defined.

Lemma object_rules_are_robust_witness :
  well_formed three_by_two 2 ∧ in_range 2 [0; 1] ∧ 1 < N three_by_two ∧
  ∃ profile_idx,
    make_profile (F_pareto three_by_two) 1 [0; 1] [] = Ok profile_idx ∧
    ∀ r, profile r = profile_idx → is_robust (Fit three_by_two) r = Ok true.
Proof.
  assert (in_range 2 [0; 1]) as Hrange by (repeat constructor).
  assert (1 < N three_by_two) as Hidx by (simpl; lia).
  split; [exact three_by_two_well_formed|]. split; [exact Hrange|]. split; [exact Hidx|].
  exact (object_rules_are_robust three_by_two 2 [0; 1] 1
           three_by_two_well_formed Hrange Hidx).
Defined.

Lemma returned_rules_sound_witness :
  ∃ rs r,
    induce_decision_rules format_2f (Fit scenario) None 2 true = Ok rs ∧ r ∈ rs ∧
    kind r = "certain" ∧ ∃ q, confidence r = fl q ∧ (q == 1)%Q.
Proof.
  assert (in_range 1 (criteria scenario)) as Hrange by (repeat constructor).
  assert (∀ P, (None : option (list nat)) = Some P → in_range 1 P) as Harg by discriminate.
  eexists _, _.
  split; [vm_compute; reflexivity|]. split; [left|]. split; [reflexivity|].
  edestruct (returned_rules_sound format_2f scenario 1 None 2 true)
    as (_ & _ & _ & _ & (q & Hq & _ & _ & Hone));
    [exact scenario_well_formed | exact Hrange | exact Harg
    | vm_compute; reflexivity | left |].
  exists q. split; [exact Hq|]. apply Hone. reflexivity.
Defined.

Lemma subsumes_preorder_witness :
  (direction scenario = "up" ∨ direction scenario = "down") ∧
  subsumes (Fit scenario) (good_at 2) (good_at 2) = Ok true.
Proof.
  assert (direction scenario = "up" ∨ direction scenario = "down") as Hdir by (left; reflexivity).
  split; [exact Hdir|].
  exact (proj1 (subsumes_preorder scenario (good_at 2) (good_at 1) (good_at 1) Hdir)).
Defined.

Lemma subsumes_unknown_direction_witness :
  direction sideways ≠ "up" ∧ direction sideways ≠ "down" ∧
  ∃ msg, subsumes (Fit sideways) (good_at 1) (good_at 2) = Raise (ValueError msg).
Proof.
  assert (direction sideways ≠ "up") as Hup by discriminate.
  assert (direction sideways ≠ "down") as Hdown by discriminate.
  split; [exact Hup|]. split; [exact Hdown|].
  destruct (subsumes_unknown_direction sideways (good_at 1) (good_at 2) Hup Hdown)
    as (_ & _ & Hraise).
  apply Hraise; [reflexivity|]. intros k Hk. exact Hk.
Defined.

Lemma minimal_filter_exact_witness :
  ∃ rs rules,
    induce_decision_rules format_2f (Fit two_peaks) None 2 true = Ok rs ∧
    induce_decision_rules format_2f (Fit two_peaks) None 2 false = Ok rules ∧
    rs `sublist_of` rules.
Proof.
  eexists _.
  edestruct (minimal_filter_exact format_2f two_peaks None 2) as (rules & Hrules & Hsub & _);
    [vm_compute; reflexivity|].
  exists rules. split; [vm_compute; reflexivity|]. split; [exact Hrules | exact Hsub].
Defined.

Lemma select_reduct_of_found_witness :
  well_formed three_by_two 2 ∧ in_range 2 (criteria three_by_two) ∧
  ∃ reducts red,
    find_reducts (Fit three_by_two) = Ok reducts ∧
    AutomatedDM.select_reduct (AutomatedDM.init 3 (1 # 1000) "simple") reducts [] = Ok red ∧
    DummyDM.select_reduct reducts [] = Ok red.
Proof.
  assert (in_range 2 (criteria three_by_two)) as Hrange by (repeat constructor).
  split; [exact three_by_two_well_formed|]. split; [exact Hrange|].
  destruct (select_reduct_of_found three_by_two 2 (AutomatedDM.init 3 (1 # 1000) "simple") []
              three_by_two_well_formed Hrange)
    as (reducts & red & q & qf & Hfind & _ & Hauto & Hdummy & _).
  exists reducts, red. split; [exact Hfind|]. split; [exact Hauto | exact Hdummy].
Defined.

Lemma is_satisfied_bounded_witness :
  ∃ bs self',
    AutomatedDM.answers counting_dm three_rounds = inr (bs, self') ∧
    bs = [false; false; true] ∧
    (Z.of_nat (length (filter (λ b, b = false) bs))
     <= Z.max 0 (AutomatedDM.max_rounds counting_dm - 1 - AutomatedDM.round counting_dm))%Z.
Proof.
  eexists _, _.
  split; [vm_compute; reflexivity|]. split; [reflexivity|].
  eapply (is_satisfied_bounded counting_dm three_rounds _ _).
  vm_compute; reflexivity.
Defined.

Lemma returned_rules_profile_witness :
  ∃ rs r,
    induce_decision_rules format_2f (Fit three_by_two) (Some [1]) 2 false = Ok rs ∧ r ∈ rs ∧
    ∃ idx, idx < N three_by_two ∧
      dict_get (profile r) 1 = Some (obj three_by_two idx 1).
Proof.
  assert (in_range 2 (criteria three_by_two)) as Hrange by (repeat constructor).
  assert (∀ P, Some [1] = Some P → in_range 2 P) as Harg.
  { intros P [= <-]. repeat constructor. }
  eexists _, _.
  split; [vm_compute; reflexivity|]. split; [left|].
  edestruct (returned_rules_profile format_2f three_by_two 2 (Some [1]) 2 false)
    as (idx & Hidx & _ & Hget);
    [exact three_by_two_well_formed | exact Hrange | exact Harg
    | vm_compute; reflexivity | left |].
  exists idx. split; [exact Hidx|]. apply Hget. left.
Defined.

Lemma induce_unknown_direction_witness :
  direction sideways ≠ "up" ∧ direction sideways ≠ "down" ∧
  ∃ msg, induce_decision_rules format_2f (Fit sideways) None 2 true
         = Raise (ValueError msg).
Proof.
  assert (direction sideways ≠ "up") as Hup by discriminate.
  assert (direction sideways ≠ "down") as Hdown by discriminate.
  assert (in_range 2 (criteria sideways)) as Hrange by (repeat constructor).
  assert (∀ P, (None : option (list nat)) = Some P → in_range 2 P) as Harg by discriminate.
  split; [exact Hup|]. split; [exact Hdown|].
  edestruct (induce_unknown_direction format_2f sideways 2 None 2) as [_ Hraise];
    [exact sideways_well_formed | exact Hrange | exact Harg | exact Hup | exact Hdown
    | vm_compute; reflexivity |].
  apply Hraise. simpl. lia.
Defined.

Lemma simple_score_top_k_witness :
  BaseDM.python_sort BaseDM.sort_desc ∧
  ∃ rest,
    BaseDM.simple_score exact_weighted BaseDM.sort_desc scored_rules 2 (fl (7 # 10)) ++ rest
      ≡ₚ BaseDM.certain_rules scored_rules ∧
    length (BaseDM.simple_score exact_weighted BaseDM.sort_desc scored_rules 2 (fl (7 # 10)))
      = 2 ∧
    StronglySorted
      (λ r r', pyfloat_geb (exact_weighted (fl (7 # 10)) (confidence r) (support r))
                           (exact_weighted (fl (7 # 10)) (confidence r') (support r')) = true)
      (BaseDM.simple_score exact_weighted BaseDM.sort_desc scored_rules 2 (fl (7 # 10))).
Proof.
  split; [exact sort_desc_python_sort|].
  destruct (simple_score_top_k exact_weighted BaseDM.sort_desc scored_rules 2 (fl (7 # 10))
              sort_desc_python_sort) as (rest & Hperm & _ & Hlen & Horder).
  exists rest. split; [exact Hperm|]. split.
  - rewrite Hlen by lia. reflexivity.
  - apply Horder. intros r Hr _.
    repeat (apply elem_of_cons in Hr as [->|Hr]; [discriminate|]).
    by apply elem_of_nil in Hr.
Defined.
